(** * bin-world: large-image LOD rendering

    A shallow embedding of the tile pyramid generator (Python,
    [ImageProcessor]) and of the streaming client (TypeScript,
    [ImageRenderer], [MemoryManager], [ChunkPredictor]) described in
    [docs/image-lod- base.md] and its companion on advanced features,
    together with the properties of the design that hold, or fail, on
    that code.

    Conventions.  Python integers and the integer-valued JavaScript
    numbers are [Z].  The remaining JavaScript numbers (viewport
    coordinates, zoom, scale factors) are rationals [Q], every double
    being one.  Products and quotients of the viewport arithmetic are
    taken exactly; the logarithm of the level selection is rounded to a
    double as [Math.log2] rounds it, since the selected level depends on
    it; and the non-finite outcomes that the code can produce are made
    explicit where they arise ([jsint], the loop bounds of
    [getVisibleChunks]).
    JavaScript [Map]s and [Set]s that are only looked up, inserted into
    and deleted from are [gmap]s and [gset]s; a [Map] whose iteration
    order is observed is an association list. *)

From Stdlib Require Import ZArith QArith Qround Qpower Lia Lqa.
From stdpp Require Import base list list_numbers sorting gmap strings pretty.
From Equations Require Import Equations.

Local Open Scope Z_scope.

(** ** JavaScript numbers *)

Module JS.

(** An integer-valued JavaScript number, [NaN], or [+Infinity]. *)
Inductive jsint : Type :=
| JNaN
| JInf
| JInt (z : Z).

Definition Math_floor (q : Q) : Z := Qfloor q.
Definition Math_ceil (q : Q) : Z := Qceiling q.

(** The real number [floor(-log2 z)] for [z > 0]: for [z = p/q <= 1] it
    is [floor (log2 (q/p))], otherwise it is [- ceil (log2 (p/q))]. *)
Definition neg_log2_floor (z : Q) : Z :=
  let p := Qnum z in
  let q := Z.pos (Qden z) in
  if p <=? q then Z.log2 (q / p) else - Z.log2_up ((p + q - 1) / q).

(** Doubles next to an integer: the double that follows the integer [c]
    towards [+Infinity] is [c + 2^e] for [e = gap_exponent c].  Above a
    negative [c] the doubles are those of the binade
    [[2^(k-1), 2^k)], [k = ceil(log2 |c|)], which are [2^(k-53)] apart;
    above a positive [c] they are those of [[2^k, 2^(k+1))],
    [k = floor(log2 c)], which are [2^(k-52)] apart; the double that
    follows 0 is [2^-1074]. *)
Definition gap_exponent (c : Z) : Z :=
  if c <? 0 then Z.log2_up (- c) - 53
  else if c =? 0 then -1074
  else Z.log2 c - 52.

(** [Math.log2(w * 2^c)] is the double [c], for an integer [c] and
    [1 < w <= 2]: the real logarithm [c + log2 w] is nearer to [c] than
    to the double that follows [c], that is [log2 w <= 2^e / 2], that is
    [w^(2^(1-e)) <= 2].  [Math.log2] is taken to return the double
    nearest to the real logarithm (no tie can occur: a logarithm that is
    a dyadic rational is an integer).  The first test only spares the
    evaluation of the power where it cannot hold:
    [(1 + 2^e)^(2^(1-e)) >= 3]. *)
Definition log2_rounds_to (c : Z) (w : Q) : bool :=
  let e := gap_exponent c in
  if Qle_bool (1 + Qpower (2 # 1) e) w then false
  else Qle_bool (Qpower w (2 ^ (1 - e))) 2.

(** [Math.floor(-Math.log2(z))] for a double [z > 0].  With
    [n = floor(-log2 z)] the real logarithm lies between [-(n+1)] and
    [-n], and so does the double that [Math.log2] returns; the floor of
    its negation is [n] unless that double is [-(n+1)] itself, which
    happens when [z] is just above [2^-(n+1)]. *)
Definition neg_log2_floor_double (z : Q) : Z :=
  let n := neg_log2_floor z in
  if log2_rounds_to (- (n + 1)) (z * Qpower (2 # 1) (n + 1)) then n + 1 else n.

(** [Math.floor(-Math.log2(zoom))] for every finite [zoom]:
    [log2] of a negative number is [NaN], [log2 0] is [-Infinity]. *)
Definition floor_neg_log2 (zoom : Q) : jsint :=
  match Qnum zoom ?= 0 with
  | Lt => JNaN
  | Eq => JInf
  | Gt => JInt (neg_log2_floor_double zoom)
  end.

(** [Math.max(a, b)] with a finite [a]. *)
Definition Math_max (a : Z) (b : jsint) : jsint :=
  match b with
  | JNaN => JNaN
  | JInf => JInf
  | JInt z => JInt (Z.max a z)
  end.

(** [Math.min(a, b)] with a finite [b]. *)
Definition Math_min (a : jsint) (b : Z) : jsint :=
  match a with
  | JNaN => JNaN
  | JInf => JInt b
  | JInt z => JInt (Z.min z b)
  end.

End JS.

(** ** Insertion-ordered maps and stable sorting

    Python [dict]s and JavaScript [Map]s iterate in insertion order, and
    assigning to an existing key keeps the key where it is. *)

Section Assoc.
Context {K V : Type} `{EqDecision K}.

Fixpoint assoc_set (k : K) (v : V) (d : list (K * V)) : list (K * V) :=
  match d with
  | [] => [(k, v)]
  | (k', v') :: d' =>
      if decide (k' = k) then (k, v) :: d' else (k', v') :: assoc_set k v d'
  end.

Definition assoc_delete (k : K) (d : list (K * V)) : list (K * V) :=
  filter (fun e => e.1 <> k) d.
End Assoc.

(** [Array.prototype.sort] with a comparator is stable: insertion sort
    that never moves an element past an equal one.  [le a b] is
    [compare(a, b) <= 0]. *)
Section StableSort.
Context {A : Type} (le : A -> A -> bool).

Fixpoint sort_insert (a : A) (l : list A) : list A :=
  match l with
  | [] => [a]
  | b :: l' => if le a b then a :: b :: l' else b :: sort_insert a l'
  end.

Definition stable_sort (l : list A) : list A := foldr sort_insert [] l.
End StableSort.

(** ** The metadata descriptor, shared by server and client *)

Record LevelInfo : Type := mkLevelInfo {
  level : Z;
  width : Z;
  height : Z;
  scale : Q;
  chunk_size : Z;
  chunks_x : Z;
  chunks_y : Z;
  chunk_count : Z
}.

(** [ImageMetadata] of the client; the server adds [processing_time]. *)
Record ImageMetadata : Type := mkImageMetadata {
  image_id : string;
  levels : list LevelInfo;
  total_chunks : Z;
  meta_chunk_size : Z
}.

Record ChunkInfo : Type := mkChunkInfo {
  c_level : Z;
  c_x : Z;
  c_y : Z
}.

Record Viewport : Type := mkViewport {
  v_x : Q;
  v_y : Q;
  v_width : Q;
  v_height : Q;
  v_zoom : Q
}.

(** [2 ** (-level)], the value of [1.0 / (2 ** level)] and of
    [Math.pow(2, -level)]. *)
Definition pow2_neg (lvl : Z) : Q := Qpower (2 # 1) (- lvl).

(** [arr[i]] for a JavaScript array and an integer-valued index:
    [undefined] out of range. *)
Definition js_index {A : Type} (arr : list A) (i : Z) : option A :=
  if i <? 0 then None else arr !! Z.to_nat i.

(** ** ImageProcessor: pyramid, tiles and metadata (server side) *)

(** The image library behind [load_image], [resize_image] and
    [crop_image] (OpenCV in the design); the three helpers are not part of
    the design text.  The processor only reads the dimensions of an image,
    halves it and crops it; halving makes the smaller side of a non-empty
    image strictly smaller. *)
Class ImageCodec : Type := {
  Image : Type;
  im_width : Image -> Z;
  im_height : Image -> Z;
  (** [resize_image(img, scale=0.5)] *)
  resize_image_half : Image -> Image;
  (** [crop_image(img, x, y, w, h)] *)
  crop_image : Image -> Z -> Z -> Z -> Z -> Image;
  resize_shrinks : forall img,
    0 < Z.min (im_width img) (im_height img) ->
    Z.min (im_width (resize_image_half img)) (im_height (resize_image_half img))
      < Z.min (im_width img) (im_height img)
}.

(** A Python [dict] with integer keys, in insertion order. *)
Definition pydict (V : Type) : Type := list (Z * V).

(** [d[k] = v]: an existing key keeps its position. *)
Definition dict_set {V : Type} (k : Z) (v : V) (d : pydict V) : pydict V :=
  assoc_set k v d.

(** [max(...)] over a generator: [ValueError] on an empty one. *)
Definition py_max (l : list Z) : option Z :=
  match l with
  | [] => None
  | a :: l' => Some (fold_left Z.max l' a)
  end.

(** [math.ceil(a / b)] on integers: [ZeroDivisionError] for [b = 0].
    The quotient is taken exactly.  The code rounds [a / b] to a double
    before it takes the ceiling, which gives the same integer as long as
    both operands are at most [2^53] in absolute value; above that the
    rounded quotient can reach an integer that the exact one only
    approaches (with [a = 10^17 + 1] and [b = 10^17] the code gets 1, the
    exact ceiling is 2).  Where a property of an arbitrary image depends
    on the value of the ceiling, and not only on its sign, it carries
    that bound as a hypothesis. *)
Definition ceil_div (a b : Z) : option Z :=
  if b =? 0 then None else Some (Qceiling (inject_Z a / inject_Z b)).

Module ImageProcessor.

(** [ImageProcessor(chunk_size)]; [__init__] sets [self.min_size = 256]. *)
Record t : Type := init { self_chunk_size : Z }.

Definition min_size (self : t) : Z := 256.

(** What one run meets outside the code of the class: the helpers
    [generate_image_id] and [save_chunks] and the attribute
    [self.start_time] are used by the processor and defined nowhere in
    it.  [env_image_id] is what [generate_image_id()] returns ([None]
    when it raises), [env_start_time] the value of [self.start_time]
    ([None] when nothing has assigned it, which raises
    [AttributeError]), [env_now] the reading of [time.time()] at the end,
    and [env_saved] tells whether [save_chunks(chunks_data)] returns. *)
Record RunEnv : Type := mkRunEnv {
  env_image_id : option string;
  env_start_time : option Q;
  env_now : Q;
  env_saved : bool
}.

(** The helpers of a run all return. *)
Definition helpers_return (env : RunEnv) : Prop :=
  is_Some (env_image_id env) /\ is_Some (env_start_time env)
  /\ env_saved env = true.

Section WithCodec.
Context `{codec : ImageCodec}.

(** An entry of the list built by [generate_pyramid]. *)
Record PyramidLevel : Type := mkPyramidLevel {
  pl_level : Z;
  pl_width : Z;
  pl_height : Z;
  pl_scale : Q;
  pl_image : Image
}.

(** A tile as built by [split_into_chunks]. *)
Record Chunk : Type := mkChunk {
  ch_level : Z;
  ch_x : Z;
  ch_y : Z;
  ch_actual_x : Z;
  ch_actual_y : Z;
  ch_width : Z;
  ch_height : Z;
  ch_data : Image
}.

(** The dictionary returned by [generate_metadata]. *)
Record Metadata : Type := mkMetadata {
  md_image_id : string;
  md_levels : list LevelInfo;
  md_total_chunks : Z;
  md_chunk_size : Z;
  md_processing_time : Q
}.

Definition min_side (img : Image) : Z := Z.min (im_width img) (im_height img).

(** The [while] loop of [generate_pyramid], from the state
    [(current, level)]; the entries appended from there on. *)
Equations? pyramid_loop (self : t) (current : Image) (lvl : Z) : list PyramidLevel
  by wf (Z.to_nat (min_side current)) lt :=
  pyramid_loop self current lvl with Z_lt_dec (min_size self) (min_side current) := {
    | left _ =>
        mkPyramidLevel lvl (im_width current) (im_height current)
                       (pow2_neg lvl) current
          :: pyramid_loop self (resize_image_half current) (lvl + 1);
    | right _ => [] }.
Proof.
  pose proof (resize_shrinks current) as Hs.
  unfold min_side, min_size in *. lia.
Qed.

Definition generate_pyramid (self : t) (image : Image) : list PyramidLevel :=
  pyramid_loop self image 0.

(** The tiles of one level: rows outermost, columns innermost. *)
Definition level_chunks (self : t) (lvl : Z) (image : Image)
    (chunks_x chunks_y : Z) : list Chunk :=
  y ← seqZ 0 chunks_y;
  x ← seqZ 0 chunks_x;
  let actual_x := x * self_chunk_size self in
  let actual_y := y * self_chunk_size self in
  let chunk_width := Z.min (self_chunk_size self) (im_width image - actual_x) in
  let chunk_height := Z.min (self_chunk_size self) (im_height image - actual_y) in
  [mkChunk lvl x y actual_x actual_y chunk_width chunk_height
           (crop_image image actual_x actual_y chunk_width chunk_height)].

(** The body of the [for level_data in pyramid_levels] loop of
    [split_into_chunks], on the dictionary built so far. *)
Definition split_level (self : t) (chunks : pydict (list Chunk))
    (level_data : PyramidLevel) : option (pydict (list Chunk)) :=
  let image := pl_image level_data in
  chunks_x ← ceil_div (im_width image) (self_chunk_size self);
  chunks_y ← ceil_div (im_height image) (self_chunk_size self);
  Some (dict_set (pl_level level_data)
                 (level_chunks self (pl_level level_data) image chunks_x chunks_y)
                 chunks).

Definition split_into_chunks (self : t) (pyramid_levels : list PyramidLevel)
    : option (pydict (list Chunk)) :=
  foldl (fun acc level_data => chunks ← acc; split_level self chunks level_data)
        (Some []) pyramid_levels.

(** One iteration of the loop of [generate_metadata]: [chunk_list[0]]
    raises on an empty list (so the [if chunk_list else 0] that
    follows always takes its first branch). *)
Definition level_metadata (self : t) (lvl : Z) (chunk_list : list Chunk)
    : option LevelInfo :=
  level_info ← head chunk_list;
  max_x ← py_max (ch_x <$> chunk_list);
  max_y ← py_max (ch_y <$> chunk_list);
  Some {| level := lvl;
          width := ch_actual_x level_info + ch_width level_info;
          height := ch_actual_y level_info + ch_height level_info;
          scale := pow2_neg lvl;
          chunk_size := self_chunk_size self;
          chunks_x := max_x + 1;
          chunks_y := max_y + 1;
          chunk_count := Z.of_nat (length chunk_list) |}.

Definition generate_metadata (self : t) (env : RunEnv)
    (chunks_data : pydict (list Chunk)) : option Metadata :=
  lvls ← mapM (fun '(lvl, chunk_list) => level_metadata self lvl chunk_list)
              chunks_data;
  image_id ← env_image_id env;
  start_time ← env_start_time env;
  Some {| md_image_id := image_id;
          md_levels := lvls;
          md_total_chunks :=
            foldl (fun n '(_, chunk_list) => n + Z.of_nat (length chunk_list))
                  0 chunks_data;
          md_chunk_size := self_chunk_size self;
          md_processing_time := (env_now env - start_time)%Q |}.

(** [process_large_image(image_path)]: the metadata returned and the
    tiles handed to [save_chunks]; [None] when a step raises, the call
    of [save_chunks] included. *)
Definition process_large_image (self : t)
    (load_image : string -> option Image) (env : RunEnv)
    (image_path : string) : option (Metadata * pydict (list Chunk)) :=
  original_image ← load_image image_path;
  let pyramid_levels := generate_pyramid self original_image in
  chunks_data ← split_into_chunks self pyramid_levels;
  metadata ← generate_metadata self env chunks_data;
  if env_saved env then Some (metadata, chunks_data) else None.

End WithCodec.

(** The descriptor as the client receives it. *)
Definition to_client (m : Metadata) : ImageMetadata :=
  {| image_id := md_image_id m;
     levels := md_levels m;
     total_chunks := md_total_chunks m;
     meta_chunk_size := md_chunk_size m |}.

End ImageProcessor.

(** Halving by integer division makes the smaller side smaller. *)
Lemma rect_resize_shrinks (img : Z * Z) :
  0 < Z.min (fst img) (snd img) ->
  Z.min (fst img / 2) (snd img / 2) < Z.min (fst img) (snd img).
Proof.
  destruct img as [w h]; simpl; intros Hpos.
  assert (w / 2 < w) by (apply Z.div_lt; lia).
  assert (h / 2 < h) by (apply Z.div_lt; lia).
  lia.
Qed.

(** Modelled from the spec: [resize_image] and [crop_image] are missing
    from the source; each subsequent level halves width and height, and a
    tile is the crop of the size asked for.  Images are reduced to their
    dimensions and halved by integer division; this is the codec of the
    worked examples. *)
Definition RectCodec : ImageCodec :=
  {| Image := Z * Z;
     im_width := fst;
     im_height := snd;
     resize_image_half := fun img => (fst img / 2, snd img / 2);
     crop_image := fun _ _ _ w h => (w, h);
     resize_shrinks := rect_resize_shrinks |}.

(** ** ImageRenderer: level selection, visible tiles, loading and drawing *)

(** A texture handle of the graphics context. *)
Definition WebGLTexture : Type := positive.

Module ImageRenderer.
Import JS.

(** The fields of the renderer that the frame logic reads and writes,
    and the two things around it that the properties speak about:
    [pending], the keys of the [loadChunk] calls suspended at an
    [await] (each has issued its [fetch] and has not resumed), and
    [fetched], the log of the [fetch] calls issued so far. *)
Record t : Type := mkState {
  imageMetadata : ImageMetadata;
  chunkCache : gmap string WebGLTexture;
  loadingChunks : gset string;
  pending : list string;
  fetched : list ChunkInfo
}.

(** [new ImageRenderer()] followed by [initialize(canvas, metadata)]. *)
Definition initialize (metadata : ImageMetadata) : t :=
  {| imageMetadata := metadata;
     chunkCache := ∅;
     loadingChunks := ∅;
     pending := [];
     fetched := [] |}.

(** [calculateLOD(zoom)] *)
Definition calculateLOD (imageMetadata : ImageMetadata) (zoom : Q) : jsint :=
  let targetLevel := Math_max 0 (floor_neg_log2 zoom) in
  Math_min targetLevel (Z.of_nat (length (levels imageMetadata)) - 1).

(** The doubly nested [for] loop of [getVisibleChunks]: rows [startY..endY]
    outermost, columns [startX..endX] innermost, both bounds inclusive. *)
Definition chunk_grid (lvl startX endX startY endY : Z) : list ChunkInfo :=
  y ← seqZ startY (endY - startY + 1);
  x ← seqZ startX (endX - startX + 1);
  [mkChunkInfo lvl x y].

(** [Math.max(0, Math.floor(s / chunkSize))] as the first index of a
    loop of [getVisibleChunks].  For [chunkSize = 0] the quotient is
    [-Infinity] for a negative [s], and [Math.max(0, -Infinity)] is 0;
    for any other [s] it is [NaN] or [Infinity], the bound is too, and
    the loop does not run ([None]). *)
Definition loop_start (s chunkSize : Q) : option Z :=
  if Qeq_bool chunkSize 0 then (if Qle_bool 0 s then None else Some 0)
  else Some (Z.max 0 (Math_floor (s / chunkSize))).

(** [Math.min(last, Math.ceil(s / chunkSize))] as the last index of a
    loop.  For [chunkSize = 0] the quotient is [Infinity] for a positive
    [s], and [Math.min(last, Infinity)] is [last]; for any other [s] the
    bound is [NaN] or [-Infinity] and the loop does not run ([None]). *)
Definition loop_end (last : Z) (s chunkSize : Q) : option Z :=
  if Qeq_bool chunkSize 0 then (if Qle_bool s 0 then None else Some last)
  else Some (Z.min last (Math_ceil (s / chunkSize))).

(** [getVisibleChunks(viewport, level)].  Products and quotients are
    exact. *)
Definition getVisibleChunks (imageMetadata : ImageMetadata)
    (viewport : Viewport) (lvl : Z) : list ChunkInfo :=
  match js_index (levels imageMetadata) lvl with
  | None => []
  | Some levelData =>
      let chunkSize := inject_Z (chunk_size levelData) in
      let scale := scale levelData in
      let sx := (v_x viewport * scale)%Q in
      let sy := (v_y viewport * scale)%Q in
      let sw := (v_width viewport * scale)%Q in
      let sh := (v_height viewport * scale)%Q in
      match loop_start sx chunkSize, loop_start sy chunkSize,
            loop_end (chunks_x levelData - 1) (sx + sw) chunkSize,
            loop_end (chunks_y levelData - 1) (sy + sh) chunkSize with
      | Some startX, Some startY, Some endX, Some endY =>
          chunk_grid lvl startX endX startY endY
      | _, _, _, _ => []
      end
  end.

(** The part of [render] that picks the tiles of a frame;
    [levels[NaN]] is [undefined]. *)
Definition render_visible (imageMetadata : ImageMetadata)
    (viewport : Viewport) : list ChunkInfo :=
  match calculateLOD imageMetadata (v_zoom viewport) with
  | JInt targetLOD => getVisibleChunks imageMetadata viewport targetLOD
  | _ => []
  end.

(** [getChunkKey(chunk)] *)
Definition getChunkKey (chunk : ChunkInfo) : string :=
  pretty (c_level chunk) +:+ "-" +:+ pretty (c_x chunk) +:+ "-"
    +:+ pretty (c_y chunk).

(** How the awaited part of [loadChunk] ends: the texture was created
    from the decoded response, or something on the way threw
    ([fetch] rejected, [!response.ok], [blob()] or
    [createImageBitmap] failed). *)
Inductive Outcome : Type :=
| Loaded (texture : WebGLTexture)
| Failed.

(** How an [async] function's promise settles. *)
Inductive Settled : Type :=
| Fulfilled
| Rejected.

(** [loadChunk(chunk)] up to its first [await]: the early return, or
    the key marked as loading and the [fetch] issued. *)
Definition loadChunk_begin (s : t) (chunk : ChunkInfo) : t :=
  let key := getChunkKey chunk in
  if decide (is_Some (chunkCache s !! key) ∨ key ∈ loadingChunks s) then s
  else {| imageMetadata := imageMetadata s;
          chunkCache := chunkCache s;
          loadingChunks := {[key]} ∪ loadingChunks s;
          pending := pending s ++ [key];
          fetched := fetched s ++ [chunk] |}.

Fixpoint remove_first (key : string) (l : list string) : list string :=
  match l with
  | [] => []
  | k :: l' => if decide (k = key) then l' else k :: remove_first key l'
  end.

(** [loadChunk] from the point where the awaited work of the load of
    [key] ends with [outcome]: [chunkCache.set] is the last statement of
    the [try] block, [catch] logs and swallows the error, [finally]
    removes the key from [loadingChunks]. *)
Definition loadChunk_resume (s : t) (key : string) (outcome : Outcome)
    : t * Settled :=
  let cache :=
    match outcome with
    | Loaded texture => <[key := texture]> (chunkCache s)
    | Failed => chunkCache s
    end in
  ({| imageMetadata := imageMetadata s;
      chunkCache := cache;
      loadingChunks := loadingChunks s ∖ {[key]};
      pending := remove_first key (pending s);
      fetched := fetched s |},
   Fulfilled).

(** [loadMissingChunks(chunks)] up to its [await]: [filter] runs over
    the whole array first, then [map] starts the loads one by one. *)
Definition loadMissingChunks (s : t) (chunks : list ChunkInfo) : t :=
  foldl loadChunk_begin s
    (filter (fun chunk =>
               ¬ is_Some (chunkCache s !! getChunkKey chunk)
               ∧ getChunkKey chunk ∉ loadingChunks s) chunks).

(** One [drawElements] call with the uniforms set for it. *)
Record DrawCall : Type := mkDrawCall {
  d_key : string;
  d_texture : WebGLTexture;
  d_chunkOffset : Z * Z;
  d_chunkSize : Z * Z;
  d_opacity : Q
}.

(** [renderChunks(chunks, viewport)]: the draw calls issued, in order.
    It has no [await] and runs to completion; reading [chunk_size] of a
    missing level throws ([None]). *)
Fixpoint renderChunks (s : t) (chunks : list ChunkInfo) : option (list DrawCall) :=
  match chunks with
  | [] => Some []
  | chunk :: rest =>
      let key := getChunkKey chunk in
      match chunkCache s !! key with
      | None => renderChunks s rest
      | Some texture =>
          levelData ← js_index (levels (imageMetadata s)) (c_level chunk);
          draws ← renderChunks s rest;
          Some ({| d_key := key;
                   d_texture := texture;
                   d_chunkOffset := (c_x chunk * chunk_size levelData,
                                     c_y chunk * chunk_size levelData);
                   d_chunkSize := (chunk_size levelData, chunk_size levelData);
                   d_opacity := 1 |} :: draws)
      end
  end.

(** [render(viewport)]: the state once the frame is drawn and the draw
    calls of the frame. *)
Definition render (s : t) (viewport : Viewport) : option (t * list DrawCall) :=
  let visibleChunks := render_visible (imageMetadata s) viewport in
  let s' := loadMissingChunks s visibleChunks in
  draws ← renderChunks s' visibleChunks;
  Some (s', draws).

(** What can happen to a renderer between two observations. *)
Inductive Event : Type :=
| EvRender (viewport : Viewport)
| EvLoadChunk (chunk : ChunkInfo)
| EvSettle (key : string) (outcome : Outcome)
| EvEvict (keys : list string).

(** [EvSettle] needs a suspended load of that key; [EvEvict] stands for
    a memory manager deleting entries of the [chunkCache] handed to
    it. *)
Definition apply_event (s : t) (ev : Event) : option t :=
  match ev with
  | EvRender viewport => fst <$> render s viewport
  | EvLoadChunk chunk => Some (loadChunk_begin s chunk)
  | EvSettle key outcome =>
      if decide (key ∈ pending s) then Some (loadChunk_resume s key outcome).1
      else None
  | EvEvict keys =>
      Some {| imageMetadata := imageMetadata s;
              chunkCache := foldr delete (chunkCache s) keys;
              loadingChunks := loadingChunks s;
              pending := pending s;
              fetched := fetched s |}
  end.

Definition run (s : t) (evs : list Event) : option t :=
  foldl (fun acc ev => s' ← acc; apply_event s' ev) (Some s) evs.

Definition reachable (s : t) : Prop :=
  exists metadata evs, run (initialize metadata) evs = Some s.

End ImageRenderer.

(** ** MemoryManager: least-recently-used clean-up of the texture cache *)

Module MemoryManager.

Definition maxCacheSize : Z := 100 * 1024 * 1024.

(** The mutable fields; [accessTimes] is a [Map] iterated by
    [entries()]. *)
Record t : Type := mkState {
  currentCacheSize : Z;
  accessTimes : list (string * Z)
}.

Definition new : t := {| currentCacheSize := 0; accessTimes := [] |}.

(** [recordAccess(chunkKey)], [now] being the reading of [Date.now()]. *)
Definition recordAccess (self : t) (chunkKey : string) (now : Z) : t :=
  {| currentCacheSize := currentCacheSize self;
     accessTimes := assoc_set chunkKey now (accessTimes self) |}.

(** The comparator [(a, b) => a[1] - b[1]]. *)
Definition by_access_time (a b : string * Z) : bool := a.2 <=? b.2.

(** [Math.floor(n * 0.3)]; the double nearest to [0.3] is below it by
    less than half a unit in the last place, so the product rounds to
    the exact [3n/10] wherever that is an integer. *)
Definition thirty_percent (n : Z) : Z := 3 * n / 10.

(** [recalculateCacheSize(chunkCache)] *)
Definition recalculateCacheSize (chunkCache : gmap string WebGLTexture) : Z :=
  Z.of_nat (size chunkCache) * 512 * 512 * 4.

(** The entries [cleanupCache] iterates over. *)
Definition sortedChunks (self : t) (chunkCache : gmap string WebGLTexture)
    : list (string * Z) :=
  take (Z.to_nat (thirty_percent (Z.of_nat (size chunkCache))))
       (stable_sort by_access_time (accessTimes self)).

(** The body of the [for] loop of [cleanupCache] on the access times,
    the cache and the textures deleted so far. *)
Definition evict_one
    (st : list (string * Z) * gmap string WebGLTexture * list WebGLTexture)
    (entry : string * Z)
    : list (string * Z) * gmap string WebGLTexture * list WebGLTexture :=
  let '(times, cache, deleted) := st in
  match cache !! entry.1 with
  | Some texture =>
      (assoc_delete entry.1 times, delete entry.1 cache, deleted ++ [texture])
  | None => st
  end.

(** [cleanupCache(chunkCache)]: the manager and the cache afterwards,
    and the textures passed to [deleteTexture]. *)
Definition cleanupCache (self : t) (chunkCache : gmap string WebGLTexture)
    : t * gmap string WebGLTexture * list WebGLTexture :=
  if currentCacheSize self <? maxCacheSize then (self, chunkCache, [])
  else
    let '(times, cache, deleted) :=
      foldl evict_one (accessTimes self, chunkCache, [])
            (sortedChunks self chunkCache) in
    ({| currentCacheSize := recalculateCacheSize cache;
        accessTimes := times |},
     cache, deleted).

(** Calls on a manager, with the cache handed to [cleanupCache]. *)
Inductive Call : Type :=
| CallRecordAccess (chunkKey : string) (now : Z)
| CallCleanupCache (chunkCache : gmap string WebGLTexture).

Definition apply_call (self : t) (c : Call) : t :=
  match c with
  | CallRecordAccess chunkKey now => recordAccess self chunkKey now
  | CallCleanupCache chunkCache => (cleanupCache self chunkCache).1.1
  end.

(** A state of a manager made by its constructor. *)
Definition reachable (self : t) : Prop :=
  exists calls, foldl apply_call new calls = self.

End MemoryManager.

(** ** ChunkPredictor: tiles around the predicted position *)

Module ChunkPredictor.
Import JS.

Record Movement : Type := mkMovement {
  m_x : Q;
  m_y : Q;
  m_zoom : Q;
  m_timestamp : Z
}.

Record Position : Type := mkPosition {
  p_x : Q;
  p_y : Q;
  p_zoom : Q
}.

(** An element of the prediction.  [priority] is
    [max(0, 1 - sqrt(dist2) / radius)], kept as the squared distance
    [dist2 = dx*dx + dy*dy] it is computed from. *)
Record Prediction : Type := mkPrediction {
  pr_level : Z;
  pr_x : Z;
  pr_y : Z;
  pr_dist2 : Z
}.

Definition radius : Z := 2.

(** The priority decreases strictly with [dist2] up to [radius^2] and is
    zero from there on, so priorities compare as these ranks do,
    reversed. *)
Definition priority_rank (c : Prediction) : Z :=
  Z.min (pr_dist2 c) (radius * radius).

(** The comparator [(a, b) => b.priority - a.priority]. *)
Definition by_priority_desc (a b : Prediction) : bool :=
  priority_rank a <=? priority_rank b.

(** [getChunksForPosition(position)] for [zoom > 0]; for other zooms
    the level is [NaN] or [Infinity] and the level and coordinates of the
    result are not finite numbers ([None]). *)
Definition getChunksForPosition (position : Position) : option (list Prediction) :=
  match Math_max 0 (floor_neg_log2 (p_zoom position)) with
  | JInt lvl =>
      let scale := pow2_neg lvl in
      let chunkSize := (512 * scale)%Q in
      let centerX := Math_floor (p_x position / chunkSize) in
      let centerY := Math_floor (p_y position / chunkSize) in
      let chunks :=
        dy ← seqZ (- radius) (2 * radius + 1);
        dx ← seqZ (- radius) (2 * radius + 1);
        [mkPrediction lvl (centerX + dx) (centerY + dy) (dx * dx + dy * dy)] in
      Some (stable_sort by_priority_desc chunks)
  | _ => None
  end.

Definition historyLimit : nat := 10.

(** [recordMovement(x, y, zoom)], [now] being the reading of
    [Date.now()]. *)
Definition recordMovement (movementHistory : list Movement) (x y zoom : Q)
    (now : Z) : list Movement :=
  let pushed := movementHistory ++ [mkMovement x y zoom now] in
  if (historyLimit <? length pushed)%nat then drop 1 pushed else pushed.

Section WithHelpers.
(** [calculateVelocities], [calculateAcceleration] and
    [predictPosition] are not part of the design text. *)
Context {Velocity Acceleration : Type}.
Variable calculateVelocities : list Movement -> list Velocity.
Variable calculateAcceleration : list Velocity -> Acceleration.
Variable predictPosition :
  option Movement -> option Velocity -> Acceleration -> Position.

(** [predictNextChunks()] on the recorded [movementHistory]. *)
Definition predictNextChunks (movementHistory : list Movement)
    : option (list Prediction) :=
  if (length movementHistory <? 2)%nat then Some []
  else
    let velocities := calculateVelocities movementHistory in
    let acceleration := calculateAcceleration velocities in
    let latest := last movementHistory in
    let predictedPosition :=
      predictPosition latest (last velocities) acceleration in
    getChunksForPosition predictedPosition.
End WithHelpers.

End ChunkPredictor.

(** ** Reference definitions of the design

    What the design document says a result should be, to compare the
    code with. *)


(** [a < b] on rationals, as a boolean. *)
Definition Qltb (a b : Q) : bool := negb (Qle_bool b a).

(** Tile [(x, y)] of a level meets the viewport rectangle, both taken in
    the level's coordinate space: the tile is the square
    [[x*c, (x+1)*c) x [y*c, (y+1)*c)] for the chunk size [c], the
    viewport is scaled by the level's [scale]. *)
Definition tile_overlaps (levelData : LevelInfo) (viewport : Viewport)
    (x y : Z) : bool :=
  let c := inject_Z (chunk_size levelData) in
  let sx := (v_x viewport * scale levelData)%Q in
  let sy := (v_y viewport * scale levelData)%Q in
  let sw := (v_width viewport * scale levelData)%Q in
  let sh := (v_height viewport * scale levelData)%Q in
  Qltb (inject_Z x * c) (sx + sw) && Qltb sx (inject_Z (x + 1) * c)
  && Qltb (inject_Z y * c) (sy + sh) && Qltb sy (inject_Z (y + 1) * c).

(** The brute-force reference: every tile of the level's grid, kept when
    it meets the viewport. *)
Definition overlapping_tiles (metadata : ImageMetadata) (viewport : Viewport)
    (lvl : Z) : list ChunkInfo :=
  match js_index (levels metadata) lvl with
  | None => []
  | Some levelData =>
      y ← seqZ 0 (chunks_y levelData);
      x ← seqZ 0 (chunks_x levelData);
      if tile_overlaps levelData viewport x y then [mkChunkInfo lvl x y] else []
  end.

(** ** The worked example of the design: a 4096 x 4096 image, tiles of 512 *)

Definition example_processor : ImageProcessor.t := ImageProcessor.init 512.

Definition example_image : @Image RectCodec := (4096, 4096).

Definition example_env : ImageProcessor.RunEnv :=
  ImageProcessor.mkRunEnv (Some "example") (Some 0%Q) 1 true.

Definition example_run
    : option (ImageProcessor.Metadata * pydict (list ImageProcessor.Chunk)) :=
  ImageProcessor.process_large_image (codec := RectCodec) example_processor
    (fun _ => Some example_image) example_env "example.png".

(** The descriptor of the example as the client holds it. *)
Definition example_metadata : ImageMetadata :=
  match example_run with
  | Some (metadata, _) => ImageProcessor.to_client metadata
  | None => mkImageMetadata "" [] 0 0
  end.

Definition example_viewport : Viewport := mkViewport 0 0 1024 1024 1.

(** ** A second example: an 8192 x 8192 image and a cache of its tiles *)

Definition wide_image : @Image RectCodec := (8192, 8192).

Definition wide_metadata : ImageMetadata :=
  match ImageProcessor.process_large_image (codec := RectCodec) example_processor
          (fun _ => Some wide_image) example_env "wide.png" with
  | Some (metadata, _) => ImageProcessor.to_client metadata
  | None => mkImageMetadata "" [] 0 0
  end.

(** Tile [i] of level 0 in row-major order (16 tiles per row), its key and
    the texture it is given in the examples. *)
Definition tile (i : nat) : ChunkInfo :=
  mkChunkInfo 0 (Z.of_nat i mod 16) (Z.of_nat i / 16).

Definition tile_key (i : nat) : string := ImageRenderer.getChunkKey (tile i).

Definition tile_texture (i : nat) : WebGLTexture := Pos.of_succ_nat i.

(** The number of tiles that fit under the byte ceiling of the cache. *)
Definition cache_capacity : Z := MemoryManager.maxCacheSize / (512 * 512 * 4).

(** One request of the eviction scenario of the design: tile [i] enters
    the cache, the access is recorded at time [i], and the cache is cleaned
    up; the textures deleted so far are collected. *)
Definition request_tile
    (st : MemoryManager.t * gmap string WebGLTexture * list WebGLTexture)
    (i : nat) : MemoryManager.t * gmap string WebGLTexture * list WebGLTexture :=
  let '(manager, cache, evicted) := st in
  let cache1 := <[tile_key i := tile_texture i]> cache in
  let manager1 := MemoryManager.recordAccess manager (tile_key i) (Z.of_nat i) in
  let '(manager2, cache2, deleted) := MemoryManager.cleanupCache manager1 cache1 in
  (manager2, cache2, evicted ++ deleted).

(** Tiles [0 .. n-1] requested in turn, starting from a new manager and an
    empty cache. *)
Definition request_sequence (n : nat)
    : MemoryManager.t * gmap string WebGLTexture * list WebGLTexture :=
  foldl request_tile (MemoryManager.new, ∅, []) (seq 0 n).

(** A cache holding tiles [0 .. n-1]. *)
Definition touched_cache (n : nat) : gmap string WebGLTexture :=
  list_to_map ((fun i => (tile_key i, tile_texture i)) <$> seq 0 n).

(** The image at level [k] of a pyramid: the source halved [k] times. *)
Definition halved `{codec : ImageCodec} (image : Image) (k : nat) : Image :=
  Nat.iter k resize_image_half image.

(** The pyramid of [image] stays within what the doubles of the code
    represent.  The sides of every level are at most [2^53] pixels:
    together with a chunk size of at most [2^53] this keeps
    [math.ceil(width / chunk_size)] the ceiling of the exact quotient.
    There are at most 1024 levels: [1.0 / (2 ** level)] is a double up to
    level 1023 and raises [OverflowError] from level 1024 on. *)
Definition levels_in_double_range `{codec : ImageCodec} (self : ImageProcessor.t)
    (image : Image) : Prop :=
  (length (ImageProcessor.generate_pyramid self image) <= 1024)%nat
  /\ Forall (fun e => ImageProcessor.pl_width e <= 2 ^ 53
                      /\ ImageProcessor.pl_height e <= 2 ^ 53)
            (ImageProcessor.generate_pyramid self image).

(** The range of the levels of a given image, by evaluation. *)
Ltac solve_double_range :=
  unfold levels_in_double_range;
  match goal with
  | |- _ /\ Forall _ ?l =>
      let v := eval vm_compute in l in
      replace l with v by (vm_compute; reflexivity)
  end;
  split; [apply Nat.leb_le; vm_compute; reflexivity |];
  repeat constructor; vm_compute; discriminate.

(** The tiles that [split_into_chunks] makes of a pyramid level, with the
    level as their key, for a chunk size other than 0. *)
Definition tiles_of_level `{codec : ImageCodec} (self : ImageProcessor.t)
    (e : ImageProcessor.PyramidLevel) : Z * list ImageProcessor.Chunk :=
  let image := ImageProcessor.pl_image e in
  let c := inject_Z (ImageProcessor.self_chunk_size self) in
  (ImageProcessor.pl_level e,
   ImageProcessor.level_chunks self (ImageProcessor.pl_level e) image
     (Qceiling (inject_Z (im_width image) / c))
     (Qceiling (inject_Z (im_height image) / c))).

(** The metadata entry that [generate_metadata] makes of these tiles. *)
Definition info_of_level `{codec : ImageCodec} (self : ImageProcessor.t)
    (e : ImageProcessor.PyramidLevel) : LevelInfo :=
  let image := ImageProcessor.pl_image e in
  let c := inject_Z (ImageProcessor.self_chunk_size self) in
  let cx := Qceiling (inject_Z (im_width image) / c) in
  let cy := Qceiling (inject_Z (im_height image) / c) in
  {| level := ImageProcessor.pl_level e;
     width := Z.min (ImageProcessor.self_chunk_size self) (im_width image);
     height := Z.min (ImageProcessor.self_chunk_size self) (im_height image);
     scale := pow2_neg (ImageProcessor.pl_level e);
     chunk_size := ImageProcessor.self_chunk_size self;
     chunks_x := cx;
     chunks_y := cy;
     chunk_count := cx * cy |}.

(** What every reachable renderer satisfies: the suspended loads have
    pairwise different keys, they are exactly the keys marked as loading,
    and none of them is cached. *)
Definition loading_invariant (s : ImageRenderer.t) : Prop :=
  NoDup (ImageRenderer.pending s)
  /\ (forall key,
        key ∈ ImageRenderer.pending s <-> key ∈ ImageRenderer.loadingChunks s)
  /\ (forall key,
        key ∈ ImageRenderer.pending s -> ImageRenderer.chunkCache s !! key = None).

(** The tiles of [chunks] whose key is not in [seen], every key at its
    first occurrence, in the order of the list. *)
Fixpoint first_by_key (seen : gset string) (chunks : list ChunkInfo)
    : list ChunkInfo :=
  match chunks with
  | [] => []
  | chunk :: rest =>
      let key := ImageRenderer.getChunkKey chunk in
      if decide (key ∈ seen) then first_by_key seen rest
      else chunk :: first_by_key ({[key]} ∪ seen) rest
  end.

(** A renderer of the wide example whose cache holds tiles 0 to 99. *)
Definition wide_renderer : ImageRenderer.t :=
  {| ImageRenderer.imageMetadata := wide_metadata;
     ImageRenderer.chunkCache := touched_cache 100;
     ImageRenderer.loadingChunks := ∅;
     ImageRenderer.pending := [];
     ImageRenderer.fetched := tile <$> seq 0 100 |}.

(** A predictor for a view that does not move: the predicted position is
    the latest one. *)
Definition stationary_predictPosition (latest : option ChunkPredictor.Movement)
    (velocity : option unit) (acceleration : unit) : ChunkPredictor.Position :=
  match latest with
  | Some m =>
      ChunkPredictor.mkPosition (ChunkPredictor.m_x m) (ChunkPredictor.m_y m)
                                (ChunkPredictor.m_zoom m)
  | None => ChunkPredictor.mkPosition 0 0 1
  end.

(** ** LODManager: level of detail adjusted to the frame rate *)

Module LODManager.
Import JS.

Definition targetFPS : Q := 60.
Definition maxHistoryLength : nat := 10.

(** A frame-rate sample: [1000 / deltaTime], which is [Infinity] for two
    frames at the same instant. *)
Inductive fps : Type :=
| Fps (q : Q)
| FpsInfinity.

Record t : Type := mkState {
  lastFrameTime : Q;
  frameHistory : list fps
}.

Definition new : t := {| lastFrameTime := 0; frameHistory := [] |}.

Definition fps_add (a b : fps) : fps :=
  match a, b with
  | Fps x, Fps y => Fps (x + y)
  | _, _ => FpsInfinity
  end.

(** [avg < bound] for a finite [bound]. *)
Definition fps_ltb (avg : fps) (bound : Q) : bool :=
  match avg with
  | Fps x => Qltb x bound
  | FpsInfinity => false
  end.

(** [frameHistory.reduce((a, b) => a + b) / frameHistory.length], or
    [targetFPS] for an empty history. *)
Definition avgFPS (history : list fps) : fps :=
  match history with
  | [] => Fps targetFPS
  | a :: rest =>
      match foldl fps_add a rest with
      | Fps total => Fps (total / inject_Z (Z.of_nat (length history)))
      | FpsInfinity => FpsInfinity
      end
  end.

(** The [if / else if] that sets [lodBias]. *)
Definition lodBias (avg : fps) : Z :=
  if fps_ltb avg (targetFPS * (8 # 10)) then 1
  else if fps_ltb avg (targetFPS * (6 # 10)) then 2
  else 0.

(** [a + bias] on a level that may be [NaN] or [Infinity]. *)
Definition jsint_add (a : jsint) (bias : Z) : jsint :=
  match a with
  | JInt z => JInt (z + bias)
  | other => other
  end.

(** The samples after the frame at time [currentTime]. *)
Definition record_frame (self : t) (currentTime : Q) : list fps :=
  if Qltb 0 (lastFrameTime self) then
    let deltaTime := (currentTime - lastFrameTime self)%Q in
    let currentFPS :=
      if Qeq_bool deltaTime 0 then FpsInfinity else Fps (1000 / deltaTime) in
    let pushed := frameHistory self ++ [currentFPS] in
    if (maxHistoryLength <? length pushed)%nat then drop 1 pushed else pushed
  else frameHistory self.

(** [updateLOD(renderer, viewport)]: [currentTime] is the reading of
    [performance.now()], [maxLODLevel] what [renderer.getMaxLODLevel()]
    returns. *)
Definition updateLOD (self : t) (currentTime : Q) (maxLODLevel : Z)
    (viewport : Viewport) : t * jsint :=
  let history := record_frame self currentTime in
  let bias := lodBias (avgFPS history) in
  let baseLOD := Math_max 0 (floor_neg_log2 (v_zoom viewport)) in
  let finalLOD := Math_min (jsint_add baseLOD bias) maxLODLevel in
  ({| lastFrameTime := currentTime; frameHistory := history |}, finalLOD).

(** A manager after some frames. *)
Definition run (frames : list (Q * Z * Viewport)) : t :=
  foldl (fun self '(currentTime, maxLODLevel, viewport) =>
           (updateLOD self currentTime maxLODLevel viewport).1) new frames.

End LODManager.

(** ** PreloadManager: tiles ahead of the motion, and the preload queue *)

Module PreloadManager.

Definition maxConcurrentLoads : Z := 4.
Definition extraChunks : Z := 2.

Record Direction : Type := mkDirection {
  dir_x : Q;
  dir_y : Q
}.

(** The four [if]s in the loop body of [predictNextChunks]. *)
Definition shifted (direction : Direction) (chunk : ChunkInfo) : list ChunkInfo :=
  (if Qltb 0 (dir_x direction)
   then [mkChunkInfo (c_level chunk) (c_x chunk + extraChunks) (c_y chunk)] else [])
  ++ (if Qltb (dir_x direction) 0
      then [mkChunkInfo (c_level chunk) (c_x chunk - extraChunks) (c_y chunk)] else [])
  ++ (if Qltb 0 (dir_y direction)
      then [mkChunkInfo (c_level chunk) (c_x chunk) (c_y chunk + extraChunks)] else [])
  ++ (if Qltb (dir_y direction) 0
      then [mkChunkInfo (c_level chunk) (c_x chunk) (c_y chunk - extraChunks)] else []).

Section WithHelpers.
(** [getCurrentVisibleChunks] and [isValidChunk] are not part of the
    design text. *)
Variable getCurrentVisibleChunks : Viewport -> list ChunkInfo.
Variable isValidChunk : ChunkInfo -> bool.

(** [predictNextChunks(viewport, direction)] *)
Definition predictNextChunks (viewport : Viewport) (direction : Direction)
    : list ChunkInfo :=
  let currentChunks := getCurrentVisibleChunks viewport in
  let predictions := currentChunks ≫= shifted direction in
  filter (fun chunk => isValidChunk chunk = true) predictions.
End WithHelpers.

(** The queue, the counter, and around them the chunks whose load a
    suspended [processPreloadQueue] awaits and the log of the loads
    started. *)
Record t : Type := mkState {
  preloadQueue : list ChunkInfo;
  currentLoads : Z;
  awaiting : list ChunkInfo;
  started : list ChunkInfo
}.

Definition new : t :=
  {| preloadQueue := []; currentLoads := 0; awaiting := []; started := [] |}.

(** [processPreloadQueue] from its loop test to the next [await] or to
    its end: it takes at most one chunk, because it awaits the load. *)
Definition loop_step (self : t) : t :=
  match preloadQueue self with
  | chunk :: rest =>
      if currentLoads self <? maxConcurrentLoads then
        {| preloadQueue := rest;
           currentLoads := currentLoads self + 1;
           awaiting := awaiting self ++ [chunk];
           started := started self ++ [chunk] |}
      else self
  | [] => self
  end.

(** [schedulePreload(chunks)] up to the first [await]. *)
Definition schedulePreload (self : t) (chunks : list ChunkInfo) : t :=
  loop_step {| preloadQueue := preloadQueue self ++ chunks;
               currentLoads := currentLoads self;
               awaiting := awaiting self;
               started := started self |}.

(** The [i]-th suspended [processPreloadQueue] resumes, its load having
    succeeded or failed: [finally] decrements the counter and the loop
    goes round.  [None] when there is no such suspended call. *)
Definition resume (self : t) (i : nat) : option t :=
  match awaiting self !! i with
  | Some _ =>
      Some (loop_step {| preloadQueue := preloadQueue self;
                         currentLoads := currentLoads self - 1;
                         awaiting := delete i (awaiting self);
                         started := started self |})
  | None => None
  end.

Inductive Event : Type :=
| EvSchedule (chunks : list ChunkInfo)
| EvResume (i : nat).

Definition apply_event (self : t) (ev : Event) : option t :=
  match ev with
  | EvSchedule chunks => Some (schedulePreload self chunks)
  | EvResume i => resume self i
  end.

Definition run (evs : list Event) : option t :=
  foldl (fun acc ev => self ← acc; apply_event self ev) (Some new) evs.

(** The chunks handed to [schedulePreload] in a trace, in order. *)
Definition scheduled (evs : list Event) : list ChunkInfo :=
  evs ≫= fun ev => match ev with EvSchedule chunks => chunks | EvResume _ => [] end.

End PreloadManager.

(** ** ProgressiveRenderer: the coarser tiles drawn first *)

Module ProgressiveRenderer.

(** [getLowerLODChunks(chunks)], [maxLODLevel] being the field it reads. *)
Definition getLowerLODChunks (maxLODLevel : Z) (chunks : list ChunkInfo)
    : list ChunkInfo :=
  (fun chunk =>
     mkChunkInfo (Z.min (c_level chunk + 1) maxLODLevel)
                 (c_x chunk / 2) (c_y chunk / 2)) <$> chunks.

End ProgressiveRenderer.

(** ** ViewportController: wheel zoom *)

Module ViewportController.

(** [Math.max] and [Math.min] on finite numbers. *)
Definition Math_max (a b : Q) : Q := if Qle_bool a b then b else a.
Definition Math_min (a b : Q) : Q := if Qle_bool a b then a else b.

(** [onWheel(event)] followed by [zoomToPoint]: the viewport handed to
    [render].  [mouseX], [mouseY] are [event.clientX - rect.left] and
    [event.clientY - rect.top].  With a zoom of 0 before, the ratio and
    the new origin are not finite numbers ([None]). *)
Definition onWheel (viewport : Viewport) (deltaY mouseX mouseY : Q)
    : option Viewport :=
  let zoomFactor := if Qltb 0 deltaY then (9 # 10) else (11 # 10) in
  let newZoom := Math_max (1 # 10) (Math_min 10 (v_zoom viewport * zoomFactor)) in
  if Qeq_bool (v_zoom viewport) 0 then None
  else
    let zoomRatio := (newZoom / v_zoom viewport)%Q in
    Some {| v_x := mouseX - (mouseX - v_x viewport) * zoomRatio;
            v_y := mouseY - (mouseY - v_y viewport) * zoomRatio;
            v_width := v_width viewport;
            v_height := v_height viewport;
            v_zoom := newZoom |}.

End ViewportController.

(** ** FrustumCuller: the plane test *)

Module FrustumCuller.

(** [plane[k]] of [frustumPlanes.subarray(i * 4, (i + 1) * 4)]:
    [undefined] past the end of the array. *)
Definition plane_entry (frustumPlanes : list Q) (i k : nat) : option Q :=
  if (k <? 4)%nat then frustumPlanes !! (i * 4 + k)%nat else None.

(** One iteration of the loop of [intersectsFrustum]: [true] when the
    box is entirely on the negative side of plane [i].  An [undefined]
    entry makes the sum [NaN], and [NaN < 0] is false. *)
Definition outside_plane (frustumPlanes : list Q) (i : nat)
    (minX minY maxX maxY : Q) : bool :=
  match plane_entry frustumPlanes i 0, plane_entry frustumPlanes i 1,
        plane_entry frustumPlanes i 3 with
  | Some a, Some b, Some d =>
      let px := if Qltb 0 a then maxX else minX in
      let py := if Qltb 0 b then maxY else minY in
      Qltb (px * a + py * b + d) 0
  | _, _, _ => false
  end.

(** [intersectsFrustum(minX, minY, maxX, maxY)] *)
Definition intersectsFrustum (frustumPlanes : list Q)
    (minX minY maxX maxY : Q) : bool :=
  forallb (fun i => negb (outside_plane frustumPlanes i minX minY maxX maxY))
          (seq 0 6).

(** [isChunkVisible(chunk, levelData)] *)
Definition isChunkVisible (frustumPlanes : list Q) (chunk : ChunkInfo)
    (levelData : LevelInfo) : bool :=
  let scale := scale levelData in
  let chunkSize := inject_Z (chunk_size levelData) in
  let minX := (inject_Z (c_x chunk) * chunkSize * scale)%Q in
  let minY := (inject_Z (c_y chunk) * chunkSize * scale)%Q in
  let maxX := (minX + chunkSize * scale)%Q in
  let maxY := (minY + chunkSize * scale)%Q in
  intersectsFrustum frustumPlanes minX minY maxX maxY.

End FrustumCuller.

(** ** Definitions used by the further properties *)

(** What every state of the preload queue satisfies: the counter counts
    the suspended calls, there are at most four, a chunk waits in the
    queue only while a load is in flight, and no chunk is lost or started
    twice. *)
Definition queue_invariant (scheduled_so_far : list ChunkInfo)
    (self : PreloadManager.t) : Prop :=
  PreloadManager.currentLoads self
  = Z.of_nat (length (PreloadManager.awaiting self))
  /\ PreloadManager.currentLoads self <= PreloadManager.maxConcurrentLoads
  /\ (PreloadManager.preloadQueue self <> [] -> PreloadManager.awaiting self <> [])
  /\ PreloadManager.started self ++ PreloadManager.preloadQueue self
     = scheduled_so_far
  /\ PreloadManager.awaiting self ⊆ PreloadManager.started self.

(** The pixels of the full-resolution image that tile [x] of level [lvl]
    spans along one axis, as [first, one past last], for tiles of [c]
    pixels: a pixel of level [lvl] is [2^lvl] pixels of level 0. *)
Definition tile_span (c lvl x : Z) : Z * Z :=
  (x * (c * 2 ^ lvl), (x + 1) * (c * 2 ^ lvl)).

(** Pixel [(px, py)] of a level lies in the rectangle a tile was cropped
    from. *)
Definition chunk_covers `{codec : ImageCodec} (c : ImageProcessor.Chunk)
    (px py : Z) : Prop :=
  ImageProcessor.ch_actual_x c <= px
    < ImageProcessor.ch_actual_x c + ImageProcessor.ch_width c
  /\ ImageProcessor.ch_actual_y c <= py
       < ImageProcessor.ch_actual_y c + ImageProcessor.ch_height c.

(** The separator of [getChunkKey], the character [-] (code 45). *)
Definition dash_char : Ascii.ascii :=
  Ascii.Ascii true false true true false true false false.

(** A string without the separator. *)
Fixpoint no_dash (s : string) : Prop :=
  match s with
  | EmptyString => True
  | String c s' => c <> dash_char /\ no_dash s'
  end.

(** Every suspended load resumes with a texture: the loads of [pending],
    in the order they were started, each ending in [chunkCache.set]. *)
Definition settle_all (textures : string -> WebGLTexture) (s : ImageRenderer.t)
    : ImageRenderer.t :=
  foldl (fun s' key =>
           (ImageRenderer.loadChunk_resume s' key
              (ImageRenderer.Loaded (textures key))).1)
        s (ImageRenderer.pending s).

(** The access times that a sequence of calls records, by
    [recordAccess] alone. *)
Definition recorded (calls : list MemoryManager.Call) : list (string * Z) :=
  foldl (fun d c =>
           match c with
           | MemoryManager.CallRecordAccess chunkKey now => assoc_set chunkKey now d
           | MemoryManager.CallCleanupCache _ => d
           end) [] calls.

(** ** The handler of [POST /api/process-image] *)

Module Api.

(** What [process_image] returns: the success body with the metadata
    spread into it, or an error body with its HTTP status (the message
    text is left out). *)
Inductive Response `{codec : ImageCodec} : Type :=
| Success (metadata : ImageProcessor.Metadata)
| Error (http_status : Z).

(** [process_image(request)] on a body whose [file_path] is a string or
    is absent ([data.get] gives [None]); [path_exists] is
    [os.path.exists].  The processor is [ImageProcessor()], with the
    default chunk size, and every exception of the processing is
    caught. *)
Definition process_image `{codec : ImageCodec} (path_exists : string -> bool)
    (load_image : string -> option Image) (env : ImageProcessor.RunEnv)
    (file_path : option string) : Response :=
  match file_path with
  | None => Error 400
  | Some path =>
      if bool_decide (path = "") || negb (path_exists path) then Error 400
      else
        match ImageProcessor.process_large_image (ImageProcessor.init 512)
                load_image env path with
        | Some (metadata, _) => Success metadata
        | None => Error 500
        end
  end.

End Api.

(** * Properties *)

(** ** Powers of two and the floor of the binary logarithm *)

Lemma pow2_neg_of_nonneg (k : Z) :
  0 <= k -> (pow2_neg k == / inject_Z (2 ^ k))%Q.
Proof.
  intros Hk. unfold pow2_neg.
  rewrite Qpower_opp, Zpower_Qpower by lia. reflexivity.
Qed.

Lemma pow2_neg_of_nonpos (k : Z) :
  k <= 0 -> (pow2_neg k == inject_Z (2 ^ (- k)))%Q.
Proof.
  intros Hk. unfold pow2_neg.
  rewrite Zpower_Qpower by lia. reflexivity.
Qed.

Lemma pow2_neg_pos (k : Z) : (0 < pow2_neg k)%Q.
Proof. unfold pow2_neg. apply Qpower_0_lt. reflexivity. Qed.

Lemma pow2_neg_antitone (j k : Z) : j <= k -> (pow2_neg k <= pow2_neg j)%Q.
Proof.
  intros Hjk. unfold pow2_neg. apply Qpower_le_compat_l; [lia | discriminate].
Qed.

Lemma pow2_neg_succ (k : Z) : (pow2_neg (k + 1) == pow2_neg k / 2)%Q.
Proof.
  unfold pow2_neg.
  replace (- (k + 1)) with (- k + - 1) by lia.
  rewrite Qpower_plus by discriminate. reflexivity.
Qed.

(** [p/q <= 1/a] and [1/a < p/q] for a positive integer [a], as integer
    inequalities. *)
Lemma Qle_inv_inject (z : Q) (a : Z) :
  0 < a -> (z <= / inject_Z a)%Q <-> Qnum z * a <= Z.pos (Qden z).
Proof.
  intros Ha. destruct z as [p q]. destruct a as [|a|a]; try lia.
  unfold Qle; simpl. lia.
Qed.

Lemma Qlt_inv_inject (z : Q) (a : Z) :
  0 < a -> (/ inject_Z a < z)%Q <-> Z.pos (Qden z) < Qnum z * a.
Proof.
  intros Ha. destruct z as [p q]. destruct a as [|a|a]; try lia.
  unfold Qlt; simpl. lia.
Qed.

Lemma Qle_inject (z : Q) (a : Z) :
  (z <= inject_Z a)%Q <-> Qnum z <= a * Z.pos (Qden z).
Proof. destruct z as [p q]. unfold Qle; simpl. lia. Qed.

Lemma Qlt_inject (z : Q) (a : Z) :
  (inject_Z a < z)%Q <-> a * Z.pos (Qden z) < Qnum z.
Proof. destruct z as [p q]. unfold Qlt; simpl. lia. Qed.

(** [neg_log2_floor z] is the integer [n] with [2^-(n+1) < z <= 2^-n],
    that is, [n <= -log2 z < n + 1]. *)
Lemma neg_log2_floor_bracket (z : Q) :
  (0 < z)%Q ->
  (pow2_neg (JS.neg_log2_floor z + 1) < z <= pow2_neg (JS.neg_log2_floor z))%Q.
Proof.
  intros Hz. unfold JS.neg_log2_floor.
  assert (Hp : 0 < Qnum z) by (destruct z; unfold Qlt in Hz; simpl in *; lia).
  set (p := Qnum z) in *. set (q := Z.pos (Qden z)).
  assert (Hq : 0 < q) by (subst q; lia).
  destruct (Z.leb_spec p q) as [Hle | Hgt].
  - assert (Hd : 0 < q / p) by (apply Z.div_str_pos; lia).
    destruct (Z.log2_spec (q / p) Hd) as [Hlo Hhi].
    pose proof (Z.log2_nonneg (q / p)) as Hn.
    set (n := Z.log2 (q / p)) in *.
    pose proof (Z.mul_div_le q p Hp) as Hfl.
    pose proof (Z.mul_succ_div_gt q p Hp) as Hfu.
    rewrite (pow2_neg_of_nonneg n), (pow2_neg_of_nonneg (n + 1)) by lia.
    assert (0 < 2 ^ n) by (apply Z.pow_pos_nonneg; lia).
    assert (0 < 2 ^ (n + 1)) by (apply Z.pow_pos_nonneg; lia).
    rewrite Qlt_inv_inject, Qle_inv_inject by assumption.
    fold p q. replace (Z.succ n) with (n + 1) in Hhi by lia. nia.
  - set (c := (p + q - 1) / q).
    assert (Hc : 1 < c).
    { subst c. apply Z.div_le_lower_bound with (a := p + q - 1) (b := q) (q := 2) in Hq as H2; lia. }
    destruct (Z.log2_up_spec c Hc) as [Hlo Hhi].
    assert (Hm : 0 < Z.log2_up c) by (apply Z.log2_up_pos; lia).
    set (m := Z.log2_up c) in *.
    pose proof (Z.mul_div_le (p + q - 1) q Hq) as Hfl.
    pose proof (Z.mul_succ_div_gt (p + q - 1) q Hq) as Hfu.
    fold c in Hfl, Hfu.
    rewrite (pow2_neg_of_nonpos (- m)), (pow2_neg_of_nonpos (- m + 1)) by lia.
    rewrite Qlt_inject, Qle_inject. fold p q.
    replace (- - m) with m by lia.
    replace (- (- m + 1)) with (Z.pred m) by lia.
    nia.
Qed.

Lemma neg_log2_floor_unique (z : Q) (n : Z) :
  (pow2_neg (n + 1) < z <= pow2_neg n)%Q -> JS.neg_log2_floor z = n.
Proof.
  intros [Hlo Hhi].
  assert (Hz : (0 < z)%Q) by (eapply Qlt_trans; [apply pow2_neg_pos | exact Hlo]).
  destruct (neg_log2_floor_bracket z Hz) as [Hlo' Hhi'].
  set (m := JS.neg_log2_floor z) in *.
  destruct (Z.lt_trichotomy m n) as [Hlt | [Heq | Hgt]]; [| exact Heq |].
  - exfalso. apply (Qlt_irrefl z).
    eapply Qle_lt_trans; [exact Hhi |].
    eapply Qle_lt_trans; [| exact Hlo'].
    apply pow2_neg_antitone. lia.
  - exfalso. apply (Qlt_irrefl z).
    eapply Qle_lt_trans; [exact Hhi' |].
    eapply Qle_lt_trans; [| exact Hlo].
    apply pow2_neg_antitone. lia.
Qed.

(** ** Rounding of the logarithm *)

Lemma Qpower_succ_pos (a : Q) (n : positive) :
  (Qpower a (Z.pos (Pos.succ n)) == Qpower a (Z.pos n) * a)%Q.
Proof.
  rewrite Pos2Z.inj_succ. unfold Z.succ.
  rewrite Qpower_plus' by lia. reflexivity.
Qed.




Lemma Qpower_base_le (a b : Q) (n : positive) :
  (0 <= a)%Q -> (a <= b)%Q -> (Qpower a (Z.pos n) <= Qpower b (Z.pos n))%Q.
Proof.
  intros Ha Hab. induction n as [| n IH] using Pos.peano_ind.
  - change (Qpower a 1) with a. change (Qpower b 1) with b. exact Hab.
  - rewrite !Qpower_succ_pos.
    assert (HA : (0 <= Qpower a (Z.pos n))%Q) by (apply Qpower_0_le; exact Ha).
    set (A := Qpower a (Z.pos n)) in *. set (B := Qpower b (Z.pos n)) in *.
    nra.
Qed.



(** What [neg_log2_floor_double] can be: the real floor, or one more
    when [z] is within one gap of the power of two below it. *)
Lemma neg_log2_floor_double_cases (z : Q) :
  let n := JS.neg_log2_floor z in
  JS.neg_log2_floor_double z = n
  \/ (JS.neg_log2_floor_double z = n + 1
      /\ (z * Qpower (2 # 1) (n + 1)
          < 1 + Qpower (2 # 1) (JS.gap_exponent (- (n + 1))))%Q).
Proof.
  intros n. unfold JS.neg_log2_floor_double. fold n. unfold JS.log2_rounds_to.
  cbv zeta.
  destruct (Qle_bool (1 + Qpower (2 # 1) (JS.gap_exponent (- (n + 1))))
                     (z * Qpower (2 # 1) (n + 1))) eqn:Hguard; [left; reflexivity |].
  destruct (Qle_bool _ 2); [right | left; reflexivity].
  split; [reflexivity |]. apply Qnot_le_lt. intros Hle.
  apply Qle_bool_iff in Hle. congruence.
Qed.

(** ** LOD selection *)

(** From a zoom of one tenth upwards the rounded logarithm selects at
    most level 3: one tenth is far from the power of two below it. *)
Lemma neg_log2_floor_double_tenth (z : Q) :
  ((1 # 10) <= z)%Q -> JS.neg_log2_floor_double z <= 3.
Proof.
  intros Hlo.
  assert (Hpos : (0 < z)%Q) by (eapply Qlt_le_trans; [| exact Hlo]; reflexivity).
  destruct (neg_log2_floor_bracket z Hpos) as [Hlow Hup].
  assert (Hn : JS.neg_log2_floor z <= 3).
  { destruct (Z.le_gt_cases (JS.neg_log2_floor z) 3) as [Hle | Hgt]; [exact Hle |].
    exfalso. apply (Qlt_irrefl (1 # 10)).
    eapply Qle_lt_trans; [exact Hlo |]. eapply Qle_lt_trans; [exact Hup |].
    eapply Qle_lt_trans; [apply (pow2_neg_antitone 4); lia |]. reflexivity. }
  destruct (neg_log2_floor_double_cases z) as [-> | [-> Hguard]]; [exact Hn |].
  destruct (Z.eq_dec (JS.neg_log2_floor z) 3) as [E | NE]; [| lia].
  exfalso. rewrite E in Hguard.
  change (Qpower (2 # 1) (3 + 1)) with (16 # 1)%Q in Hguard.
  assert (Hgap : (1 + Qpower (2 # 1) (JS.gap_exponent (- (3 + 1))) <= 16 # 10)%Q)
    by (vm_compute; discriminate).
  apply (Qlt_irrefl (z * (16 # 1))).
  eapply Qlt_le_trans; [exact Hguard |]. eapply Qle_trans; [exact Hgap |].
  assert (E16 : ((16 # 10) == (1 # 10) * (16 # 1))%Q) by reflexivity.
  rewrite E16. apply Qmult_le_compat_r; [exact Hlo | discriminate].
Qed.

(** [calculateLOD] for a zoom above 0. *)
Lemma calculateLOD_of_positive_zoom (metadata : ImageMetadata) (zoom : Q) :
  (0 < zoom)%Q ->
  ImageRenderer.calculateLOD metadata zoom
  = JS.JInt (Z.min (Z.max 0 (JS.neg_log2_floor_double zoom))
                   (Z.of_nat (length (levels metadata)) - 1)).
Proof.
  intros Hpos. unfold ImageRenderer.calculateLOD, JS.floor_neg_log2.
  assert (Hnum : 0 < Qnum zoom)
    by (destruct zoom; unfold Qlt in Hpos; simpl in *; lia).
  destruct (Z.compare_spec (Qnum zoom) 0); try lia. reflexivity.
Qed.



(** ** Visible tiles *)

Lemma Qltb_lt (a b : Q) : Qltb a b = true <-> (a < b)%Q.
Proof.
  unfold Qltb. rewrite negb_true_iff, <- not_true_iff_false, Qle_bool_iff.
  split; [apply Qnot_le_lt | apply Qlt_not_le].
Qed.

Lemma elem_of_chunk_grid (lvl startX endX startY endY : Z) (c : ChunkInfo) :
  c ∈ ImageRenderer.chunk_grid lvl startX endX startY endY
  <-> c_level c = lvl /\ startX <= c_x c <= endX /\ startY <= c_y c <= endY.
Proof.
  unfold ImageRenderer.chunk_grid. rewrite list_elem_of_bind. split.
  - intros (y & Hc & Hy). apply list_elem_of_bind in Hc as (x & Hc & Hx).
    apply list_elem_of_singleton in Hc as ->.
    apply elem_of_seqZ in Hx, Hy. simpl. lia.
  - intros (Hl & Hx & Hy). exists (c_y c). split.
    + apply list_elem_of_bind. exists (c_x c). split.
      * destruct c; simpl in *; subst. apply list_elem_of_singleton. reflexivity.
      * apply elem_of_seqZ. lia.
    + apply elem_of_seqZ. lia.
Qed.

Lemma loop_start_nonneg (s chunkSize : Q) (k : Z) :
  ImageRenderer.loop_start s chunkSize = Some k -> 0 <= k.
Proof.
  unfold ImageRenderer.loop_start.
  destruct (Qeq_bool chunkSize 0); [destruct (Qle_bool 0 s) |];
    intros [= <-]; lia.
Qed.

Lemma loop_end_le (last : Z) (s chunkSize : Q) (k : Z) :
  ImageRenderer.loop_end last s chunkSize = Some k -> k <= last.
Proof.
  unfold ImageRenderer.loop_end.
  destruct (Qeq_bool chunkSize 0); [destruct (Qle_bool s 0) |];
    intros [= <-]; lia.
Qed.

Lemma loop_start_nonzero (s chunkSize : Q) :
  (0 < chunkSize)%Q ->
  ImageRenderer.loop_start s chunkSize
  = Some (Z.max 0 (JS.Math_floor (s / chunkSize))).
Proof.
  intros Hc. unfold ImageRenderer.loop_start.
  destruct (Qeq_bool chunkSize 0) eqn:H0; [| reflexivity].
  apply Qeq_bool_iff in H0. rewrite H0 in Hc. discriminate.
Qed.

Lemma loop_end_nonzero (last : Z) (s chunkSize : Q) :
  (0 < chunkSize)%Q ->
  ImageRenderer.loop_end last s chunkSize
  = Some (Z.min last (JS.Math_ceil (s / chunkSize))).
Proof.
  intros Hc. unfold ImageRenderer.loop_end.
  destruct (Qeq_bool chunkSize 0) eqn:H0; [| reflexivity].
  apply Qeq_bool_iff in H0. rewrite H0 in Hc. discriminate.
Qed.

(** Every tile returned lies in the grid of the level asked for. *)
Lemma getVisibleChunks_in_bounds
    (metadata : ImageMetadata) (viewport : Viewport) (lvl : Z) (c : ChunkInfo) :
  c ∈ ImageRenderer.getVisibleChunks metadata viewport lvl ->
  exists levelData,
    js_index (levels metadata) lvl = Some levelData
    /\ c_level c = lvl
    /\ 0 <= c_x c < chunks_x levelData
    /\ 0 <= c_y c < chunks_y levelData.
Proof.
  unfold ImageRenderer.getVisibleChunks.
  destruct (js_index (levels metadata) lvl) as [levelData |]; [| by intros ?%elem_of_nil].
  cbv zeta.
  destruct (ImageRenderer.loop_start (v_x viewport * scale levelData) _)
    as [startX |] eqn:HsX; [| by intros ?%elem_of_nil].
  destruct (ImageRenderer.loop_start (v_y viewport * scale levelData) _)
    as [startY |] eqn:HsY; [| by intros ?%elem_of_nil].
  destruct (ImageRenderer.loop_end (chunks_x levelData - 1) _ _)
    as [endX |] eqn:HeX; [| by intros ?%elem_of_nil].
  destruct (ImageRenderer.loop_end (chunks_y levelData - 1) _ _)
    as [endY |] eqn:HeY; [| by intros ?%elem_of_nil].
  intros Hc%elem_of_chunk_grid. exists levelData.
  split; [reflexivity |].
  apply loop_start_nonneg in HsX, HsY. apply loop_end_le in HeX, HeY. lia.
Qed.

(** No gaps: a tile of the grid that meets the viewport is returned. *)
Lemma getVisibleChunks_no_gaps
    (metadata : ImageMetadata) (viewport : Viewport) (lvl : Z)
    (levelData : LevelInfo) (x y : Z) :
  js_index (levels metadata) lvl = Some levelData ->
  0 < chunk_size levelData ->
  0 <= x < chunks_x levelData ->
  0 <= y < chunks_y levelData ->
  tile_overlaps levelData viewport x y = true ->
  mkChunkInfo lvl x y ∈ ImageRenderer.getVisibleChunks metadata viewport lvl.
Proof.
  intros Hlvl Hcs Hx Hy Hov. unfold ImageRenderer.getVisibleChunks. rewrite Hlvl.
  assert (Hc : (0 < inject_Z (chunk_size levelData))%Q)
    by (rewrite <- (Zlt_Qlt 0); exact Hcs).
  cbv zeta. rewrite !loop_start_nonzero, !loop_end_nonzero by exact Hc.
  apply elem_of_chunk_grid. cbn [c_level c_x c_y].
  unfold tile_overlaps in Hov. rewrite !andb_true_iff, !Qltb_lt in Hov.
  destruct Hov as [[[Hx1 Hx2] Hy1] Hy2].
  assert (Hfloor : forall (q : Q) (k : Z),
    (q < inject_Z (k + 1) * inject_Z (chunk_size levelData))%Q ->
    JS.Math_floor (q / inject_Z (chunk_size levelData)) <= k).
  { intros q k Hq. apply Qlt_shift_div_r in Hq; [| exact Hc].
    pose proof (Qfloor_le (q / inject_Z (chunk_size levelData))) as Hfl.
    unfold JS.Math_floor. apply Z.lt_succ_r. rewrite Zlt_Qlt.
    eapply Qle_lt_trans; [exact Hfl |]. replace (Z.succ k) with (k + 1) by lia.
    exact Hq. }
  assert (Hceil : forall (q : Q) (k : Z),
    (inject_Z k * inject_Z (chunk_size levelData) < q)%Q ->
    k <= JS.Math_ceil (q / inject_Z (chunk_size levelData))).
  { intros q k Hq. apply Qlt_shift_div_l in Hq; [| exact Hc].
    pose proof (Qle_ceiling (q / inject_Z (chunk_size levelData))) as Hce.
    unfold JS.Math_ceil. apply Z.lt_le_incl. rewrite Zlt_Qlt.
    eapply Qlt_le_trans; [exact Hq | exact Hce]. }
  specialize (Hfloor _ _ Hx2) as Hfx. specialize (Hfloor _ _ Hy2) as Hfy.
  specialize (Hceil _ _ Hx1) as Hcx. specialize (Hceil _ _ Hy1) as Hcy.
  lia.
Qed.

Lemma Qfloor_div_le (s c : Q) (k : Z) :
  (0 < c)%Q -> Qfloor (s / c) <= k <-> (s < inject_Z (k + 1) * c)%Q.
Proof.
  intros Hc. unfold Qdiv. split.
  - intros Hle. apply (Qmult_lt_r _ _ (/ c)); [apply Qinv_lt_0_compat, Hc |].
    rewrite <- Qmult_assoc, Qmult_inv_r, Qmult_1_r by (intros H0; rewrite H0 in Hc; discriminate).
    eapply Qlt_le_trans; [apply Qlt_floor |].
    rewrite <- Zle_Qle. lia.
  - intros Hlt. apply Qlt_shift_div_r in Hlt; [| exact Hc]. unfold Qdiv in Hlt.
    apply Z.lt_succ_r. rewrite Zlt_Qlt.
    eapply Qle_lt_trans; [apply Qfloor_le |].
    replace (Z.succ k) with (k + 1) by lia. exact Hlt.
Qed.

Lemma Qceiling_div_ge (s c : Q) (k : Z) :
  (0 < c)%Q -> k <= Qceiling (s / c) <-> (inject_Z (k - 1) * c < s)%Q.
Proof.
  intros Hc. unfold Qdiv. split.
  - intros Hle. apply (Qmult_lt_r _ _ (/ c)); [apply Qinv_lt_0_compat, Hc |].
    rewrite <- Qmult_assoc, Qmult_inv_r, Qmult_1_r by (intros H0; rewrite H0 in Hc; discriminate).
    eapply Qle_lt_trans; [| apply Qceiling_lt].
    rewrite <- Zle_Qle. lia.
  - intros Hlt. apply Qlt_shift_div_l in Hlt; [| exact Hc]. unfold Qdiv in Hlt.
    assert (k - 1 < Qceiling (s * / c)); [| lia]. rewrite Zlt_Qlt.
    eapply Qlt_le_trans; [exact Hlt | apply Qle_ceiling].
Qed.

(** What [getVisibleChunks] returns, exactly: the tiles of the grid that
    meet the viewport stretched by one chunk to the right and to the
    bottom. *)
Lemma getVisibleChunks_exact
    (metadata : ImageMetadata) (viewport : Viewport) (lvl : Z)
    (levelData : LevelInfo) (x y : Z) :
  js_index (levels metadata) lvl = Some levelData ->
  0 < chunk_size levelData ->
  let c := inject_Z (chunk_size levelData) in
  let sx := (v_x viewport * scale levelData)%Q in
  let sy := (v_y viewport * scale levelData)%Q in
  let sw := (v_width viewport * scale levelData)%Q in
  let sh := (v_height viewport * scale levelData)%Q in
  mkChunkInfo lvl x y ∈ ImageRenderer.getVisibleChunks metadata viewport lvl
  <-> 0 <= x < chunks_x levelData
      /\ 0 <= y < chunks_y levelData
      /\ (sx < inject_Z (x + 1) * c)%Q
      /\ (inject_Z (x - 1) * c < sx + sw)%Q
      /\ (sy < inject_Z (y + 1) * c)%Q
      /\ (inject_Z (y - 1) * c < sy + sh)%Q.
Proof.
  intros Hlvl Hcs c sx sy sw sh.
  assert (Hc : (0 < c)%Q) by (subst c; rewrite <- (Zlt_Qlt 0); exact Hcs).
  unfold ImageRenderer.getVisibleChunks. rewrite Hlvl.
  cbv zeta. rewrite !loop_start_nonzero, !loop_end_nonzero by exact Hc.
  rewrite elem_of_chunk_grid. cbn [c_level c_x c_y]. unfold JS.Math_floor, JS.Math_ceil.
  fold c sx sy sw sh.
  rewrite <- (Qfloor_div_le sx c x Hc), <- (Qfloor_div_le sy c y Hc).
  rewrite <- (Qceiling_div_ge (sx + sw) c x Hc), <- (Qceiling_div_ge (sy + sh) c y Hc).
  lia.
Qed.

(** C1 on the worked example.  For the viewport
    [(x=0, y=0, w=1024, h=1024)] at zoom 1 on the 4096 x 4096 pyramid with
    tiles of 512, level 0 is selected and the brute-force overlap test
    keeps the four tiles [(0,0) (1,0) (0,1) (1,1)]; [getVisibleChunks]
    returns nine, adding the column [x = 2] and the row [y = 2], which
    only touch the viewport's edge. *)
Theorem getVisibleChunks_example_returns_nine_tiles :
  ImageRenderer.calculateLOD example_metadata (v_zoom example_viewport) = JS.JInt 0
  /\ overlapping_tiles example_metadata example_viewport 0
     = [mkChunkInfo 0 0 0; mkChunkInfo 0 1 0; mkChunkInfo 0 0 1; mkChunkInfo 0 1 1]
  /\ ImageRenderer.getVisibleChunks example_metadata example_viewport 0
     = [mkChunkInfo 0 0 0; mkChunkInfo 0 1 0; mkChunkInfo 0 2 0;
        mkChunkInfo 0 0 1; mkChunkInfo 0 1 1; mkChunkInfo 0 2 1;
        mkChunkInfo 0 0 2; mkChunkInfo 0 1 2; mkChunkInfo 0 2 2]
  /\ (exists levelData,
        js_index (levels example_metadata) 0 = Some levelData
        /\ tile_overlaps levelData example_viewport 2 0 = false).
Proof.
  split; [vm_compute; reflexivity |].
  split; [vm_compute; reflexivity |].
  split; [vm_compute; reflexivity |].
  eexists. split; [vm_compute; reflexivity | vm_compute; reflexivity].
Qed.

(** ** The pyramid *)

Section Pyramid.
Context `{codec : ImageCodec}.
Import ImageProcessor.

Lemma halved_succ (image : Image) (k : nat) :
  halved (resize_image_half image) k = halved image (S k).
Proof.
  unfold halved. induction k as [| k IH]; [reflexivity |].
  simpl. rewrite IH. reflexivity.
Qed.

(** The loop from [(current, lvl)] records exactly the images
    [current], [current/2], ... whose smaller side exceeds [min_size],
    numbered from [lvl], and stops at the first that does not. *)
Lemma pyramid_loop_spec (self : t) (current : Image) (lvl : Z) :
  let ls := pyramid_loop self current lvl in
  (forall (k : nat) (e : PyramidLevel),
      ls !! k = Some e ->
      pl_level e = lvl + Z.of_nat k
      /\ pl_image e = halved current k
      /\ pl_width e = im_width (pl_image e)
      /\ pl_height e = im_height (pl_image e)
      /\ pl_scale e = pow2_neg (pl_level e)
      /\ min_size self < min_side (pl_image e))
  /\ min_side (halved current (length ls)) <= min_size self.
Proof.
  funelim (pyramid_loop self current lvl).
  - clear Heqcall Heq. destruct H as [IHk IHstop]. split.
    + intros [| k] e' Hk; simpl in Hk.
      * inversion Hk; subst; simpl.
        repeat split; try reflexivity; [lia | exact l].
      * specialize (IHk k e' Hk). rewrite halved_succ in IHk.
        destruct IHk as (? & ? & ? & ? & ? & ?).
        repeat split; try assumption. lia.
    + simpl length. rewrite <- halved_succ. exact IHstop.
  - clear Heqcall Heq. split.
    + intros k e' Hk. rewrite lookup_nil in Hk. discriminate.
    + simpl. lia.
Qed.
End Pyramid.

(** C2, as amended.  [generate_pyramid] records the source image and its
    successive halvings, numbered from 0, for as long as the smaller side
    is greater than [min_size] (256), and nothing else: entry [k] is the
    image halved [k] times with its own dimensions, every recorded level
    has a smaller side above the minimum, and the level at which the loop
    stops, whose smaller side is at most the minimum, is not recorded. *)
Theorem generate_pyramid_stops_before_min_size
    `{codec : ImageCodec} (self : ImageProcessor.t) (image : Image) :
  let ls := ImageProcessor.generate_pyramid self image in
  (forall (k : nat) (e : ImageProcessor.PyramidLevel),
      ls !! k = Some e ->
      ImageProcessor.pl_level e = Z.of_nat k
      /\ ImageProcessor.pl_image e = halved image k
      /\ ImageProcessor.pl_width e = im_width (halved image k)
      /\ ImageProcessor.pl_height e = im_height (halved image k)
      /\ ImageProcessor.min_size self
         < Z.min (ImageProcessor.pl_width e) (ImageProcessor.pl_height e))
  /\ ImageProcessor.min_side (halved image (length ls))
     <= ImageProcessor.min_size self
  /\ (forall e, e ∈ ls ->
        ~ Z.min (ImageProcessor.pl_width e) (ImageProcessor.pl_height e)
          <= ImageProcessor.min_size self).
Proof.
  intros ls.
  destruct (pyramid_loop_spec self image 0) as [Hk Hstop]. fold ls in Hk, Hstop.
  assert (Hall : forall (k : nat) e, ls !! k = Some e ->
    ImageProcessor.pl_level e = Z.of_nat k
    /\ ImageProcessor.pl_image e = halved image k
    /\ ImageProcessor.pl_width e = im_width (halved image k)
    /\ ImageProcessor.pl_height e = im_height (halved image k)
    /\ ImageProcessor.min_size self
       < Z.min (ImageProcessor.pl_width e) (ImageProcessor.pl_height e)).
  { intros k e He. destruct (Hk k e He) as (Hl & Hi & Hw & Hh & _ & Hm).
    unfold ImageProcessor.min_side in Hm. rewrite <- Hw, <- Hh in Hm.
    rewrite Hi in Hw, Hh. repeat split; try assumption; lia. }
  split; [exact Hall |]. split; [exact Hstop |].
  intros e [k He]%list_elem_of_lookup.
  destruct (Hall k e He) as (_ & _ & _ & _ & Hm). lia.
Qed.

(** C2 as stated fails on the worked example: the levels recorded are
    4096, 2048, 1024 and 512; the level at which the loop stops (256 x 256)
    is not in the list, nor is the first level below the minimum
    (128 x 128), and halving the last recorded level gives 256, which is
    not below the minimum. *)
Lemma generate_pyramid_example_excludes_stopping_level :
  let ls := ImageProcessor.generate_pyramid example_processor example_image in
  (fun e => (ImageProcessor.pl_level e, ImageProcessor.pl_width e,
             ImageProcessor.pl_height e)) <$> ls
  = [(0, 4096, 4096); (1, 2048, 2048); (2, 1024, 1024); (3, 512, 512)]
  /\ halved example_image 4 = (256, 256)
  /\ halved example_image 5 = (128, 128)
  /\ ~ (exists e, e ∈ ls /\ ImageProcessor.pl_image e = halved example_image 4)
  /\ ~ (exists e, e ∈ ls /\ ImageProcessor.pl_image e = halved example_image 5)
  /\ ~ ImageProcessor.min_side (halved example_image 4)
       < ImageProcessor.min_size example_processor.
Proof.
  intros ls.
  assert (Hls : ImageProcessor.pl_image <$> ls
                = [(4096, 4096); (2048, 2048); (1024, 1024); (512, 512)])
    by (vm_compute; reflexivity).
  assert (Hnot : forall img, img ∈ ImageProcessor.pl_image <$> ls ->
                             img <> (256, 256) /\ img <> (128, 128)).
  { intros img Himg. rewrite Hls in Himg.
    repeat (apply elem_of_cons in Himg as [-> | Himg]; [split; discriminate |]).
    by apply elem_of_nil in Himg. }
  split; [vm_compute; reflexivity |].
  split; [vm_compute; reflexivity |].
  split; [vm_compute; reflexivity |].
  split.
  { intros (e & He & Himg).
    apply (list_elem_of_fmap_2 ImageProcessor.pl_image) in He.
    apply Hnot in He as [H256 _]. apply H256. rewrite Himg. vm_compute. reflexivity. }
  split.
  { intros (e & He & Himg).
    apply (list_elem_of_fmap_2 ImageProcessor.pl_image) in He.
    apply Hnot in He as [_ H128]. apply H128. rewrite Himg. vm_compute. reflexivity. }
  vm_compute. discriminate.
Qed.

(** ** The metadata descriptor *)

Lemma py_max_unique (l : list Z) (m : Z) :
  m ∈ l -> Forall (fun x => x <= m) l -> py_max l = Some m.
Proof.
  destruct l as [| a l]; [intros []%elem_of_nil |]. intros Hin Hall. simpl. f_equal.
  assert (Hfold : forall (l' : list Z) (b : Z),
    b <= fold_left Z.max l' b
    /\ Forall (fun x => x <= fold_left Z.max l' b) l'
    /\ (fold_left Z.max l' b = b \/ fold_left Z.max l' b ∈ l')).
  { induction l' as [| c l' IH]; intros b; simpl.
    - split; [lia |]. split; [constructor | left; reflexivity].
    - destruct (IH (Z.max b c)) as (Hb & Hl & Hm). split; [lia |]. split.
      + constructor; [lia | exact Hl].
      + destruct Hm as [Hm | Hm].
        * destruct (Z.max_spec b c) as [[_ Hc] | [_ Hc]]; rewrite Hm, Hc.
          -- right. left.
          -- left. reflexivity.
        * right. right. exact Hm. }
  destruct (Hfold l a) as (Ha & Hl & Hm).
  apply Forall_cons in Hall as [Ham Hall].
  assert (fold_left Z.max l a <= m).
  { destruct Hm as [-> | Hm]; [exact Ham |].
    eapply Forall_forall in Hall; [exact Hall | exact Hm]. }
  assert (m <= fold_left Z.max l a); [| lia].
  apply elem_of_cons in Hin as [-> | Hin]; [exact Ha |].
  eapply Forall_forall in Hl; [exact Hl | exact Hin].
Qed.

Lemma length_bind_const {A B : Type} (f : A -> list B) (l : list A) (n : nat) :
  (forall a, a ∈ l -> length (f a) = n) -> length (l ≫= f) = (length l * n)%nat.
Proof.
  induction l as [| a l IH]; intros Hf; [reflexivity |].
  rewrite bind_cons, length_app, IH, Hf; [simpl; lia | left |].
  intros b Hb. apply Hf. right. exact Hb.
Qed.

Lemma assoc_set_fresh {V : Type} (k : Z) (v : V) (d : list (Z * V)) :
  k ∉ d.*1 -> assoc_set k v d = d ++ [(k, v)].
Proof.
  induction d as [| [k' v'] d IH]; intros Hk; [reflexivity |].
  rewrite fmap_cons, not_elem_of_cons in Hk. destruct Hk as [Hne Hk]. simpl in *.
  rewrite decide_False by congruence. rewrite IH by exact Hk. reflexivity.
Qed.

Lemma ceil_div_pos (a b : Z) :
  0 < a -> 0 < b -> exists n, ceil_div a b = Some n /\ 0 < n
                              /\ n = Qceiling (inject_Z a / inject_Z b).
Proof.
  intros Ha Hb. unfold ceil_div.
  destruct (Z.eqb_spec b 0) as [-> | _]; [lia |].
  eexists. split; [reflexivity |]. split; [| reflexivity].
  assert (1 <= Qceiling (inject_Z a / inject_Z b)); [| lia].
  apply Qceiling_div_ge; [rewrite <- (Zlt_Qlt 0); exact Hb |].
  rewrite Qmult_0_l, <- (Zlt_Qlt 0). exact Ha.
Qed.

Section MetadataFacts.
Context `{codec : ImageCodec}.
Import ImageProcessor.

(** The grid of a level as a set of tiles. *)
Lemma elem_of_level_chunks (self : t) (lvl : Z) (image : Image)
    (cx cy : Z) (c : Chunk) :
  c ∈ level_chunks self lvl image cx cy
  <-> exists x y,
        0 <= x < cx /\ 0 <= y < cy
        /\ c = mkChunk lvl x y (x * self_chunk_size self) (y * self_chunk_size self)
                 (Z.min (self_chunk_size self) (im_width image - x * self_chunk_size self))
                 (Z.min (self_chunk_size self) (im_height image - y * self_chunk_size self))
                 (crop_image image (x * self_chunk_size self) (y * self_chunk_size self)
                    (Z.min (self_chunk_size self) (im_width image - x * self_chunk_size self))
                    (Z.min (self_chunk_size self) (im_height image - y * self_chunk_size self))).
Proof.
  unfold level_chunks. rewrite list_elem_of_bind. split.
  - intros (y & Hc & Hy). apply list_elem_of_bind in Hc as (x & Hc & Hx).
    apply list_elem_of_singleton in Hc. apply elem_of_seqZ in Hx, Hy.
    exists x, y. split; [lia |]. split; [lia | exact Hc].
  - intros (x & y & Hx & Hy & ->). exists y. split; [| apply elem_of_seqZ; lia].
    apply list_elem_of_bind. exists x. split; [| apply elem_of_seqZ; lia].
    apply list_elem_of_singleton. reflexivity.
Qed.

Lemma length_level_chunks (self : t) (lvl : Z) (image : Image) (cx cy : Z) :
  0 <= cx -> 0 <= cy ->
  Z.of_nat (length (level_chunks self lvl image cx cy)) = cx * cy.
Proof.
  intros Hx Hy. unfold level_chunks.
  rewrite (length_bind_const _ _ (Z.to_nat cx)).
  - rewrite length_seqZ. lia.
  - intros y _. rewrite (length_bind_const _ _ 1%nat).
    + rewrite length_seqZ. lia.
    + intros x _. reflexivity.
Qed.

(** The metadata of one level, computed from its tiles: the grid is that
    of the level, the width and height are those of its first tile. *)
Lemma level_metadata_level_chunks (self : t) (lvl : Z) (image : Image) (cx cy : Z) :
  0 < cx -> 0 < cy ->
  level_metadata self lvl (level_chunks self lvl image cx cy)
  = Some {| level := lvl;
            width := Z.min (self_chunk_size self) (im_width image);
            height := Z.min (self_chunk_size self) (im_height image);
            scale := pow2_neg lvl;
            chunk_size := self_chunk_size self;
            chunks_x := cx;
            chunks_y := cy;
            chunk_count := cx * cy |}.
Proof.
  intros Hx Hy. unfold level_metadata.
  assert (Hhead : head (level_chunks self lvl image cx cy)
            = Some (mkChunk lvl 0 0 0 0
                      (Z.min (self_chunk_size self) (im_width image))
                      (Z.min (self_chunk_size self) (im_height image))
                      (crop_image image 0 0
                         (Z.min (self_chunk_size self) (im_width image))
                         (Z.min (self_chunk_size self) (im_height image))))).
  { unfold level_chunks. rewrite (seqZ_cons 0 cy) by lia. rewrite bind_cons.
    rewrite (seqZ_cons 0 cx) by lia. rewrite bind_cons. simpl.
    rewrite !Z.sub_0_r. reflexivity. }
  assert (Hmx : py_max (ch_x <$> level_chunks self lvl image cx cy) = Some (cx - 1)).
  { apply py_max_unique.
    - apply list_elem_of_fmap. eexists. split; [| apply elem_of_level_chunks].
      2: { exists (cx - 1), 0. split; [lia |]. split; [lia | reflexivity]. }
      reflexivity.
    - apply Forall_forall. intros v (c & -> & Hc)%list_elem_of_fmap.
      apply elem_of_level_chunks in Hc as (x & y & Hxb & Hyb & ->). simpl. lia. }
  assert (Hmy : py_max (ch_y <$> level_chunks self lvl image cx cy) = Some (cy - 1)).
  { apply py_max_unique.
    - apply list_elem_of_fmap. eexists. split; [| apply elem_of_level_chunks].
      2: { exists 0, (cy - 1). split; [lia |]. split; [lia | reflexivity]. }
      reflexivity.
    - apply Forall_forall. intros v (c & -> & Hc)%list_elem_of_fmap.
      apply elem_of_level_chunks in Hc as (x & y & Hxb & Hyb & ->). simpl. lia. }
  rewrite Hhead, Hmx, Hmy. simpl.
  rewrite length_level_chunks by lia. do 2 f_equal; lia.
Qed.
End MetadataFacts.

Section PipelineFacts.
Context `{codec : ImageCodec}.
Import ImageProcessor.

Lemma split_into_chunks_spec (self : t) (ls : list PyramidLevel) :
  0 < self_chunk_size self ->
  NoDup (pl_level <$> ls) ->
  split_into_chunks self ls = Some (tiles_of_level self <$> ls).
Proof.
  intros Hcs. unfold split_into_chunks.
  change (Some []) with (Some (tiles_of_level self <$> [])).
  rewrite <- (app_nil_l ls) at 1 3. generalize (@nil PyramidLevel) as pre.
  induction ls as [| e ls IH]; intros pre Hnd.
  - rewrite app_nil_r. reflexivity.
  - change (foldl ?f (Some ?d) (e :: ls))
      with (foldl f (split_level self d e) ls).
    assert (Hstep : split_level self (tiles_of_level self <$> pre) e
                    = Some (dict_set (tiles_of_level self e).1 (tiles_of_level self e).2
                                     (tiles_of_level self <$> pre))).
    { unfold split_level, ceil_div.
      destruct (Z.eqb_spec (self_chunk_size self) 0) as [H0 | _]; [lia |]. reflexivity. }
    rewrite Hstep. unfold dict_set. rewrite assoc_set_fresh.
    + replace ((tiles_of_level self <$> pre)
               ++ [((tiles_of_level self e).1, (tiles_of_level self e).2)])
        with (tiles_of_level self <$> (pre ++ [e]))
        by (rewrite fmap_app; reflexivity).
      rewrite (cons_middle e pre ls), app_assoc in Hnd |- *.
      apply IH. exact Hnd.
    + rewrite <- list_fmap_compose. rewrite fmap_app, fmap_cons in Hnd.
      apply NoDup_app in Hnd as (_ & Hdisj & _). intros Hin.
      apply (Hdisj (pl_level e)); [exact Hin | left].
Qed.

Lemma generate_metadata_tiles (self : t) (env : RunEnv) (ls : list PyramidLevel) :
  0 < self_chunk_size self ->
  Forall (fun e => 0 < im_width (pl_image e) /\ 0 < im_height (pl_image e)) ls ->
  generate_metadata self env (tiles_of_level self <$> ls)
  = (image_id ← env_image_id env;
     start_time ← env_start_time env;
     Some {| md_image_id := image_id;
             md_levels := info_of_level self <$> ls;
             md_total_chunks :=
               foldl (fun n '(_, chunk_list) => n + Z.of_nat (length chunk_list))
                     0 (tiles_of_level self <$> ls);
             md_chunk_size := self_chunk_size self;
             md_processing_time := (env_now env - start_time)%Q |}).
Proof.
  intros Hcs Hpos. unfold generate_metadata.
  assert (Hm : mapM (fun '(lvl, chunk_list) => level_metadata self lvl chunk_list)
                 (tiles_of_level self <$> ls)
               = Some (info_of_level self <$> ls)).
  { apply mapM_Some_2. apply Forall2_fmap.
    apply Forall_Forall2_diag. eapply Forall_impl; [exact Hpos |].
    intros e [Hw Hh]. unfold tiles_of_level, info_of_level. cbv zeta.
    apply level_metadata_level_chunks.
    - assert (1 <= Qceiling (inject_Z (im_width (pl_image e))
                             / inject_Z (self_chunk_size self))); [| lia].
      apply Qceiling_div_ge; [rewrite <- (Zlt_Qlt 0); exact Hcs |].
      rewrite Qmult_0_l, <- (Zlt_Qlt 0). exact Hw.
    - assert (1 <= Qceiling (inject_Z (im_height (pl_image e))
                             / inject_Z (self_chunk_size self))); [| lia].
      apply Qceiling_div_ge; [rewrite <- (Zlt_Qlt 0); exact Hcs |].
      rewrite Qmult_0_l, <- (Zlt_Qlt 0). exact Hh. }
  rewrite Hm. reflexivity.
Qed.

Lemma generate_metadata_spec (self : t) (env : RunEnv) (ls : list PyramidLevel)
    (image_id : string) (start_time : Q) :
  0 < self_chunk_size self ->
  Forall (fun e => 0 < im_width (pl_image e) /\ 0 < im_height (pl_image e)) ls ->
  env_image_id env = Some image_id ->
  env_start_time env = Some start_time ->
  generate_metadata self env (tiles_of_level self <$> ls)
  = Some {| md_image_id := image_id;
            md_levels := info_of_level self <$> ls;
            md_total_chunks :=
              foldl (fun n '(_, chunk_list) => n + Z.of_nat (length chunk_list))
                    0 (tiles_of_level self <$> ls);
            md_chunk_size := self_chunk_size self;
            md_processing_time := (env_now env - start_time)%Q |}.
Proof.
  intros Hcs Hpos Hid Hstart.
  rewrite (generate_metadata_tiles self env ls Hcs Hpos), Hid, Hstart. reflexivity.
Qed.

Lemma generate_pyramid_levels_NoDup (self : t) (image : Image) :
  NoDup (pl_level <$> generate_pyramid self image).
Proof.
  apply NoDup_alt. intros i j lvl Hi Hj.
  rewrite list_lookup_fmap in Hi, Hj.
  destruct (generate_pyramid self image !! i) as [ei |] eqn:Hei; [| discriminate].
  destruct (generate_pyramid self image !! j) as [ej |] eqn:Hej; [| discriminate].
  destruct (pyramid_loop_spec self image 0) as [Hk _].
  destruct (Hk i ei Hei) as (Hli & _). destruct (Hk j ej Hej) as (Hlj & _).
  simpl in Hi, Hj. inversion Hi. inversion Hj. lia.
Qed.

(** The pipeline on a readable image, with a positive chunk size and
    helpers that return, returns this: the tiles of every level, and the
    metadata whose level entries have the grid and the count of the level
    and the width and height of one tile. *)
Lemma process_large_image_value (self : t) (load_image : string -> option Image)
    (env : RunEnv) (image_path : string) (image : Image)
    (image_id : string) (start_time : Q) :
  0 < self_chunk_size self ->
  load_image image_path = Some image ->
  env_image_id env = Some image_id ->
  env_start_time env = Some start_time ->
  env_saved env = true ->
  process_large_image self load_image env image_path
  = Some ({| md_image_id := image_id;
             md_levels := info_of_level self <$> generate_pyramid self image;
             md_total_chunks :=
               foldl (fun n '(_, chunk_list) => n + Z.of_nat (length chunk_list))
                     0 (tiles_of_level self <$> generate_pyramid self image);
             md_chunk_size := self_chunk_size self;
             md_processing_time := (env_now env - start_time)%Q |},
          tiles_of_level self <$> generate_pyramid self image).
Proof.
  intros Hcs Hload Hid Hstart Hsaved. unfold process_large_image.
  rewrite Hload. cbn [mbind option_bind]. cbv zeta.
  rewrite split_into_chunks_spec by (exact Hcs || apply generate_pyramid_levels_NoDup).
  cbn [mbind option_bind].
  rewrite (generate_metadata_spec self env (generate_pyramid self image)
             image_id start_time Hcs); [| | exact Hid | exact Hstart].
  - cbn [mbind option_bind]. rewrite Hsaved. reflexivity.
  - apply Forall_forall. intros e [k He]%list_elem_of_lookup.
    destruct (pyramid_loop_spec self image 0) as [Hk _].
    destruct (Hk k e He) as (_ & _ & _ & _ & _ & Hmin).
    unfold min_side, min_size in Hmin. lia.
Qed.

Lemma process_large_image_levels (self : t) (load_image : string -> option Image)
    (env : RunEnv) (image_path : string) (image : Image) :
  0 < self_chunk_size self ->
  load_image image_path = Some image ->
  helpers_return env ->
  exists metadata,
    process_large_image self load_image env image_path
    = Some (metadata, tiles_of_level self <$> generate_pyramid self image)
    /\ md_levels metadata = info_of_level self <$> generate_pyramid self image.
Proof.
  intros Hcs Hload ([image_id Hid] & [start_time Hstart] & Hsaved).
  eexists. split.
  - apply (process_large_image_value self load_image env image_path image
             image_id start_time Hcs Hload Hid Hstart Hsaved).
  - reflexivity.
Qed.

(** A run that returns met helpers that returned. *)
Lemma process_large_image_helpers (self : t) (load_image : string -> option Image)
    (env : RunEnv) (image_path : string)
    (result : Metadata * pydict (list Chunk)) :
  process_large_image self load_image env image_path = Some result ->
  helpers_return env.
Proof.
  unfold process_large_image, generate_metadata, helpers_return.
  destruct (load_image image_path) as [image |]; [| discriminate].
  cbn [mbind option_bind]. cbv zeta.
  destruct (split_into_chunks self _) as [chunks_data |]; [| discriminate].
  cbn [mbind option_bind].
  destruct (mapM _ chunks_data) as [lvls |]; [| discriminate].
  cbn [mbind option_bind].
  destruct (env_image_id env) as [image_id |]; [| discriminate].
  cbn [mbind option_bind].
  destruct (env_start_time env) as [start_time |]; [| discriminate].
  cbn [mbind option_bind].
  destruct (env_saved env); [| discriminate].
  intros _. repeat split; eauto.
Qed.


(** The part of the invariant of the descriptor that always holds:
    [chunk_count] is [chunks_x * chunks_y], and the grid is the ceiling of
    the level's dimensions over the chunk size. *)
Lemma process_large_image_chunk_count (self : t)
    (load_image : string -> option Image) (env : RunEnv) (image_path : string)
    (metadata : Metadata) (chunks_data : pydict (list Chunk)) :
  0 < self_chunk_size self ->
  process_large_image self load_image env image_path = Some (metadata, chunks_data) ->
  Forall (fun l => chunk_count l = chunks_x l * chunks_y l) (md_levels metadata)
  /\ Forall2 (fun e l =>
                ceil_div (pl_width e) (self_chunk_size self) = Some (chunks_x l)
                /\ ceil_div (pl_height e) (self_chunk_size self) = Some (chunks_y l)
                /\ width l = Z.min (self_chunk_size self) (pl_width e)
                /\ height l = Z.min (self_chunk_size self) (pl_height e))
       (match load_image image_path with
        | Some image => generate_pyramid self image
        | None => []
        end)
       (md_levels metadata).
Proof.
  intros Hcs Hrun.
  destruct (load_image image_path) as [image |] eqn:Hload;
    [| unfold process_large_image in Hrun; rewrite Hload in Hrun; discriminate].
  destruct (process_large_image_levels self load_image env image_path image Hcs Hload
              (process_large_image_helpers _ _ _ _ _ Hrun))
    as (metadata' & Hrun' & Hlevels).
  rewrite Hrun in Hrun'. inversion Hrun'; subst metadata'. rewrite Hlevels. split.
  - apply Forall_fmap, Forall_forall. intros e _. reflexivity.
  - apply Forall2_fmap_r, Forall_Forall2_diag, Forall_forall.
    intros e [k He]%list_elem_of_lookup.
    destruct (pyramid_loop_spec self image 0) as [Hk _].
    destruct (Hk k e He) as (_ & _ & Hw & Hh & _). rewrite Hw, Hh.
    unfold ceil_div. destruct (Z.eqb_spec (self_chunk_size self) 0); [lia |].
    repeat split; reflexivity.
Qed.
End PipelineFacts.

(** C3 on the worked example.  The descriptor of the 4096 x 4096 image
    records, for level 0, [chunks_x = chunks_y = 8] and
    [chunk_count = 64 = 8 * 8], but [width = height = 512]: the width and
    height are read off the first tile of the level, so
    [ceil(width / chunk_size)] is 1, not the recorded 8. *)
Theorem generate_metadata_example_records_first_tile_size :
  is_Some example_run
  /\ (fun l => (level l, width l, height l, chunks_x l, chunks_y l,
                chunk_count l)) <$> levels example_metadata
     = [(0, 512, 512, 8, 8, 64); (1, 512, 512, 4, 4, 16);
        (2, 512, 512, 2, 2, 4); (3, 512, 512, 1, 1, 1)]
  /\ meta_chunk_size example_metadata = 512
  /\ ceil_div 512 (meta_chunk_size example_metadata) = Some 1
  /\ ceil_div (im_width example_image) (meta_chunk_size example_metadata)
     = Some 8.
Proof.
  split.
  { assert (H : (fun _ => tt) <$> example_run = Some tt) by (vm_compute; reflexivity).
    destruct example_run; [eauto | discriminate]. }
  repeat split; vm_compute; reflexivity.
Qed.

(** ** Loading: one fetch in flight per tile *)

Section Loading.
Import ImageRenderer.

Lemma elem_of_remove_first (key k : string) (l : list string) :
  NoDup l -> k ∈ remove_first key l <-> k ∈ l /\ k <> key.
Proof.
  induction l as [| a l IH]; intros Hnd; simpl.
  - split; [intros []%elem_of_nil | intros [[]%elem_of_nil _]].
  - apply NoDup_cons in Hnd as [Ha Hnd]. destruct (decide (a = key)) as [-> | Hne].
    + rewrite elem_of_cons. split.
      * intros Hk. split; [right; exact Hk |]. intros ->. contradiction.
      * intros [[-> | Hk] Hneq]; [contradiction | exact Hk].
    + rewrite !elem_of_cons, IH by exact Hnd. split.
      * intros [-> | [Hk Hneq]]; [split; [left; reflexivity | exact Hne] |].
        split; [right; exact Hk | exact Hneq].
      * intros [[-> | Hk] Hneq]; [left; reflexivity | right; split; assumption].
Qed.

Lemma NoDup_remove_first (key : string) (l : list string) :
  NoDup l -> NoDup (remove_first key l).
Proof.
  induction l as [| a l IH]; intros Hnd; simpl; [constructor |].
  apply NoDup_cons in Hnd as [Ha Hnd]. destruct (decide (a = key)); [exact Hnd |].
  apply NoDup_cons. split; [| apply IH; exact Hnd].
  rewrite elem_of_remove_first by exact Hnd. intros [Hin _]. contradiction.
Qed.

Lemma initialize_invariant (metadata : ImageMetadata) :
  loading_invariant (initialize metadata).
Proof.
  repeat split; simpl.
  - constructor.
  - intros []%elem_of_nil.
  - intros []%elem_of_empty.
Qed.

(** The early return of [loadChunk]. *)
Lemma loadChunk_begin_coalesces (s : ImageRenderer.t) (chunk : ChunkInfo) :
  is_Some (chunkCache s !! getChunkKey chunk)
  \/ getChunkKey chunk ∈ loadingChunks s ->
  loadChunk_begin s chunk = s.
Proof. intros H. unfold loadChunk_begin. rewrite decide_True by exact H. reflexivity. Qed.

(** The other branch: one [fetch], and the key marked. *)
Lemma loadChunk_begin_fetches (s : ImageRenderer.t) (chunk : ChunkInfo) :
  chunkCache s !! getChunkKey chunk = None ->
  getChunkKey chunk ∉ loadingChunks s ->
  let s' := loadChunk_begin s chunk in
  fetched s' = fetched s ++ [chunk]
  /\ pending s' = pending s ++ [getChunkKey chunk]
  /\ loadingChunks s' = {[getChunkKey chunk]} ∪ loadingChunks s
  /\ chunkCache s' = chunkCache s
  /\ imageMetadata s' = imageMetadata s.
Proof.
  intros Hc Hl. unfold loadChunk_begin. rewrite decide_False; [repeat split |].
  intros [[v Hv] | Hin]; [congruence | contradiction].
Qed.

Lemma loadChunk_begin_invariant (s : ImageRenderer.t) (chunk : ChunkInfo) :
  loading_invariant s -> loading_invariant (loadChunk_begin s chunk).
Proof.
  intros (Hnd & Hiff & Hnc). unfold loadChunk_begin.
  destruct (decide _) as [Hskip | Hgo]; [exact (conj Hnd (conj Hiff Hnc)) |].
  assert (Hc : chunkCache s !! getChunkKey chunk = None).
  { destruct (chunkCache s !! getChunkKey chunk) eqn:E; [| reflexivity].
    exfalso. apply Hgo. left. eauto. }
  assert (Hl : getChunkKey chunk ∉ loadingChunks s) by (intros Hin; apply Hgo; right; exact Hin).
  repeat split; simpl.
  - apply NoDup_app. repeat split; [exact Hnd | | apply NoDup_singleton].
    intros k Hk ->%list_elem_of_singleton. apply Hl, Hiff, Hk.
  - rewrite elem_of_app, list_elem_of_singleton, elem_of_union, elem_of_singleton, Hiff. tauto.
  - rewrite elem_of_union, elem_of_singleton, <- Hiff, elem_of_app, list_elem_of_singleton. tauto.
  - intros key [Hk | ->%list_elem_of_singleton]%elem_of_app; [apply Hnc, Hk | exact Hc].
Qed.

Lemma loadChunk_resume_invariant (s : ImageRenderer.t) (key : string) (outcome : Outcome) :
  loading_invariant s -> loading_invariant (loadChunk_resume s key outcome).1.
Proof.
  intros (Hnd & Hiff & Hnc). repeat split; simpl.
  - apply NoDup_remove_first, Hnd.
  - rewrite elem_of_remove_first by exact Hnd.
    rewrite elem_of_difference, elem_of_singleton, Hiff. tauto.
  - rewrite elem_of_remove_first by exact Hnd.
    rewrite elem_of_difference, elem_of_singleton, <- Hiff. tauto.
  - intros k [Hk Hne]%elem_of_remove_first; [| exact Hnd].
    destruct outcome; [rewrite lookup_insert_ne by congruence |]; apply Hnc, Hk.
Qed.

Lemma foldl_loadChunk_begin_invariant (chunks : list ChunkInfo) (s : ImageRenderer.t) :
  loading_invariant s -> loading_invariant (foldl loadChunk_begin s chunks).
Proof.
  revert s. induction chunks as [| c chunks IH]; intros s Hs; simpl; [exact Hs |].
  apply IH, loadChunk_begin_invariant, Hs.
Qed.

Lemma foldl_loadChunk_begin_cache (chunks : list ChunkInfo) (s : ImageRenderer.t) :
  chunkCache (foldl loadChunk_begin s chunks) = chunkCache s
  /\ imageMetadata (foldl loadChunk_begin s chunks) = imageMetadata s.
Proof.
  revert s. induction chunks as [| c chunks IH]; intros s; simpl; [split; reflexivity |].
  destruct (IH (loadChunk_begin s c)) as [-> ->].
  unfold loadChunk_begin. destruct (decide _); split; reflexivity.
Qed.

Lemma evict_invariant (s : ImageRenderer.t) (keys : list string) :
  loading_invariant s ->
  loading_invariant
    {| imageMetadata := imageMetadata s;
       chunkCache := foldr delete (chunkCache s) keys;
       loadingChunks := loadingChunks s;
       pending := pending s;
       fetched := fetched s |}.
Proof.
  intros (Hnd & Hiff & Hnc). repeat split; simpl; try assumption; try apply Hiff.
  intros key Hk. specialize (Hnc key Hk).
  induction keys as [| k keys IH]; simpl; [exact Hnc |].
  destruct (decide (k = key)) as [-> | Hne].
  - apply lookup_delete_eq.
  - rewrite lookup_delete_ne by exact Hne. exact IH.
Qed.

Lemma apply_event_invariant (s s' : ImageRenderer.t) (ev : Event) :
  loading_invariant s -> apply_event s ev = Some s' -> loading_invariant s'.
Proof.
  intros Hs. destruct ev as [viewport | chunk | key outcome | keys]; simpl.
  - unfold render. destruct (renderChunks _ _) as [draws |]; simpl; [| discriminate].
    intros [= <-]. apply foldl_loadChunk_begin_invariant, Hs.
  - intros [= <-]. apply loadChunk_begin_invariant, Hs.
  - destruct (decide _); [| discriminate]. intros [= <-].
    apply loadChunk_resume_invariant, Hs.
  - intros [= <-]. apply evict_invariant, Hs.
Qed.

Lemma run_invariant (evs : list Event) (s s' : ImageRenderer.t) :
  loading_invariant s -> run s evs = Some s' -> loading_invariant s'.
Proof.
  revert s. induction evs as [| ev evs IH]; intros s Hs; unfold run; simpl.
  - intros [= <-]. exact Hs.
  - destruct (apply_event s ev) as [s1 |] eqn:Hev.
    + apply IH. eapply apply_event_invariant; eassumption.
    + intros Hnone. exfalso. clear -Hnone.
      induction evs as [| e evs IHe]; simpl in Hnone; [discriminate | auto].
Qed.

Lemma reachable_invariant (s : ImageRenderer.t) :
  reachable s -> loading_invariant s.
Proof.
  intros (metadata & evs & Hrun).
  eapply run_invariant; [apply initialize_invariant | exact Hrun].
Qed.

Lemma run_snoc (s : ImageRenderer.t) (evs : list Event) (ev : Event) :
  run s (evs ++ [ev]) = run s evs ≫= fun s' => apply_event s' ev.
Proof. unfold run. rewrite foldl_app. reflexivity. Qed.

Lemma reachable_step (s s' : ImageRenderer.t) (ev : Event) :
  reachable s -> apply_event s ev = Some s' -> reachable s'.
Proof.
  intros (metadata & evs & Hrun) Hev. exists metadata, (evs ++ [ev]).
  rewrite run_snoc, Hrun. exact Hev.
Qed.
End Loading.

(** C7.  In every reachable state of the renderer at most one load per
    tile key is in flight: the suspended loads have pairwise different
    keys and are exactly the keys of [loadingChunks].  A request for a
    tile that is loading or cached changes nothing and issues no
    [fetch]; two requests in a row for a tile that is neither issue
    exactly one [fetch], whether made by [loadChunk] twice or by one
    [loadMissingChunks] that lists the tile twice. *)
Theorem at_most_one_fetch_in_flight (s : ImageRenderer.t) :
  ImageRenderer.reachable s ->
  NoDup (ImageRenderer.pending s)
  /\ (forall key,
        key ∈ ImageRenderer.pending s <-> key ∈ ImageRenderer.loadingChunks s)
  /\ (forall chunk,
        ImageRenderer.getChunkKey chunk ∈ ImageRenderer.loadingChunks s
        \/ is_Some (ImageRenderer.chunkCache s !! ImageRenderer.getChunkKey chunk) ->
        ImageRenderer.loadChunk_begin s chunk = s)
  /\ (forall chunk,
        ImageRenderer.chunkCache s !! ImageRenderer.getChunkKey chunk = None ->
        ImageRenderer.getChunkKey chunk ∉ ImageRenderer.loadingChunks s ->
        let s1 := ImageRenderer.loadChunk_begin s chunk in
        let s2 := ImageRenderer.loadChunk_begin s1 chunk in
        ImageRenderer.fetched s1 = ImageRenderer.fetched s ++ [chunk]
        /\ s2 = s1
        /\ ImageRenderer.loadMissingChunks s [chunk; chunk] = s1
        /\ ImageRenderer.getChunkKey chunk ∈ ImageRenderer.pending s1
        /\ NoDup (ImageRenderer.pending s1)).
Proof.
  intros Hreach. pose proof (reachable_invariant s Hreach) as (Hnd & Hiff & Hnc).
  split; [exact Hnd |]. split; [exact Hiff |]. split.
  { intros chunk H. apply loadChunk_begin_coalesces. tauto. }
  intros chunk Hc Hl s1 s2.
  destruct (loadChunk_begin_fetches s chunk Hc Hl) as (Hf & Hp & Hlo & Hca & _).
  fold s1 in Hf, Hp, Hlo, Hca.
  assert (Hs2 : s2 = s1).
  { apply loadChunk_begin_coalesces. right. rewrite Hlo.
    apply elem_of_union_l, elem_of_singleton. reflexivity. }
  split; [exact Hf |]. split; [exact Hs2 |]. split.
  { unfold ImageRenderer.loadMissingChunks.
    assert (Hkeep : ¬ is_Some (ImageRenderer.chunkCache s !! ImageRenderer.getChunkKey chunk)
                    ∧ ImageRenderer.getChunkKey chunk ∉ ImageRenderer.loadingChunks s).
    { split; [rewrite Hc; intros [v Hv]; discriminate | exact Hl]. }
    rewrite !filter_cons, !decide_True by exact Hkeep. rewrite filter_nil. simpl.
    exact Hs2. }
  split.
  { rewrite Hp, elem_of_app, list_elem_of_singleton. right. reflexivity. }
  destruct (loadChunk_begin_invariant s chunk (conj Hnd (conj Hiff Hnc))) as [Hnd1 _].
  exact Hnd1.
Qed.

(** The theorem at the state reached by asking twice for tile (0,0) of
    level 0 on the worked example: one fetch. *)
Lemma at_most_one_fetch_in_flight_witness :
  let chunk := mkChunkInfo 0 0 0 in
  let s := ImageRenderer.initialize example_metadata in
  ImageRenderer.fetched
    (ImageRenderer.loadChunk_begin (ImageRenderer.loadChunk_begin s chunk) chunk)
  = [chunk].
Proof.
  intros chunk s.
  assert (Hreach : ImageRenderer.reachable s).
  { exists example_metadata, []. reflexivity. }
  destruct (at_most_one_fetch_in_flight s Hreach) as (_ & _ & _ & Htwice).
  destruct (Htwice chunk) as (Hf & Hs2 & _).
  - reflexivity.
  - apply not_elem_of_empty.
  - rewrite Hs2. exact Hf.
Defined.

(** ** Loading: a failed fetch can be retried *)

(** C8.  When the awaited work of a load in flight fails, [loadChunk]
    still fulfils its promise, and the tile is left neither loading nor
    cached; the next request for the tile issues a new [fetch], and when
    that one succeeds the tile is cached and no longer loading. *)
Theorem failed_fetch_can_be_retried (s : ImageRenderer.t) (chunk : ChunkInfo) :
  ImageRenderer.reachable s ->
  ImageRenderer.getChunkKey chunk ∈ ImageRenderer.pending s ->
  let key := ImageRenderer.getChunkKey chunk in
  let failed := ImageRenderer.loadChunk_resume s key ImageRenderer.Failed in
  let s1 := failed.1 in
  let s2 := ImageRenderer.loadChunk_begin s1 chunk in
  failed.2 = ImageRenderer.Fulfilled
  /\ ImageRenderer.reachable s1
  /\ (key ∉ ImageRenderer.loadingChunks s1)
  /\ (key ∉ ImageRenderer.pending s1)
  /\ ImageRenderer.chunkCache s1 !! key = None
  /\ ImageRenderer.fetched s2 = ImageRenderer.fetched s1 ++ [chunk]
  /\ key ∈ ImageRenderer.loadingChunks s2
  /\ key ∈ ImageRenderer.pending s2
  /\ (forall texture,
        let loaded :=
          ImageRenderer.loadChunk_resume s2 key (ImageRenderer.Loaded texture) in
        loaded.2 = ImageRenderer.Fulfilled
        /\ ImageRenderer.chunkCache loaded.1 !! key = Some texture
        /\ (key ∉ ImageRenderer.loadingChunks loaded.1)
        /\ (key ∉ ImageRenderer.pending loaded.1)).
Proof.
  intros Hreach Hpend key failed s1 s2.
  pose proof (reachable_invariant s Hreach) as (Hnd & Hiff & Hnc).
  assert (Hreach1 : ImageRenderer.reachable s1).
  { apply (reachable_step s s1 (ImageRenderer.EvSettle key ImageRenderer.Failed) Hreach).
    simpl. rewrite decide_True by exact Hpend. reflexivity. }
  pose proof (reachable_invariant s1 Hreach1) as (Hnd1 & Hiff1 & Hnc1).
  assert (Hl1 : key ∉ ImageRenderer.loadingChunks s1).
  { simpl. rewrite elem_of_difference, elem_of_singleton. tauto. }
  assert (Hc1 : ImageRenderer.chunkCache s1 !! key = None) by (simpl; apply Hnc, Hpend).
  destruct (loadChunk_begin_fetches s1 chunk Hc1 Hl1) as (Hf & Hp & Hlo & Hca & _).
  fold s2 in Hf, Hp, Hlo, Hca.
  destruct (loadChunk_begin_invariant s1 chunk (conj Hnd1 (conj Hiff1 Hnc1)))
    as (Hnd2 & Hiff2 & Hnc2). fold s2 in Hnd2, Hiff2, Hnc2.
  split; [reflexivity |]. split; [exact Hreach1 |]. split; [exact Hl1 |].
  split; [rewrite Hiff1; exact Hl1 |]. split; [exact Hc1 |]. split; [exact Hf |].
  split; [rewrite Hlo; apply elem_of_union_l, elem_of_singleton; reflexivity |].
  split; [rewrite Hp, elem_of_app, list_elem_of_singleton; right; reflexivity |].
  intros texture loaded. split; [reflexivity |]. split; [apply lookup_insert_eq |].
  split; [simpl; rewrite elem_of_difference, elem_of_singleton; tauto |].
  simpl. rewrite elem_of_remove_first by exact Hnd2. tauto.
Qed.

(** The theorem on the worked example: tile (0,0) of level 0 is
    requested, its fetch fails, it is requested again and texture 7
    arrives. *)
Lemma failed_fetch_can_be_retried_witness :
  let chunk := mkChunkInfo 0 0 0 in
  let key := ImageRenderer.getChunkKey chunk in
  let s := ImageRenderer.loadChunk_begin (ImageRenderer.initialize example_metadata) chunk in
  let s1 := (ImageRenderer.loadChunk_resume s key ImageRenderer.Failed).1 in
  let s2 := ImageRenderer.loadChunk_begin s1 chunk in
  ImageRenderer.chunkCache s1 !! key = None
  /\ ImageRenderer.fetched s2 = [chunk; chunk]
  /\ ImageRenderer.chunkCache
       (ImageRenderer.loadChunk_resume s2 key (ImageRenderer.Loaded 7%positive)).1 !! key
     = Some 7%positive.
Proof.
  intros chunk key s s1 s2.
  assert (Hreach : ImageRenderer.reachable s).
  { exists example_metadata, [ImageRenderer.EvLoadChunk chunk]. reflexivity. }
  assert (Hpend : ImageRenderer.getChunkKey chunk ∈ ImageRenderer.pending s).
  { apply list_elem_of_singleton. reflexivity. }
  destruct (failed_fetch_can_be_retried s chunk Hreach Hpend)
    as (_ & _ & _ & _ & Hc1 & Hf & _ & _ & Hload).
  split; [exact Hc1 |]. split; [exact Hf |].
  destruct (Hload 7%positive) as (_ & Hc & _). exact Hc.
Defined.

(** ** Stable sorting *)

Section StableSortFacts.
Context {A : Type} (le : A -> A -> bool).
Hypothesis le_total : forall a b, le a b = true \/ le b a = true.
Hypothesis le_trans : forall a b c, le a b = true -> le b c = true -> le a c = true.

Let R (a b : A) : Prop := le a b = true.

Lemma sort_insert_Permutation (a : A) (l : list A) :
  sort_insert le a l ≡ₚ a :: l.
Proof.
  induction l as [| b l IH]; simpl; [reflexivity |].
  destruct (le a b); [reflexivity |].
  rewrite IH. apply Permutation_swap.
Qed.

Lemma stable_sort_Permutation (l : list A) : stable_sort le l ≡ₚ l.
Proof.
  induction l as [| a l IH]; simpl; [reflexivity |].
  rewrite sort_insert_Permutation, IH. reflexivity.
Qed.

Lemma sort_insert_StronglySorted (a : A) (l : list A) :
  StronglySorted R l -> StronglySorted R (sort_insert le a l).
Proof.
  induction l as [| b l IH]; intros Hs; simpl.
  - repeat constructor.
  - apply StronglySorted_cons in Hs as [Hb Hs].
    destruct (le a b) eqn:Hab.
    + apply StronglySorted_cons. split.
      * constructor; [exact Hab |].
        eapply Forall_impl; [exact Hb |]. intros x Hx. exact (le_trans _ _ _ Hab Hx).
      * apply StronglySorted_cons. split; assumption.
    + apply StronglySorted_cons. split; [| apply IH, Hs].
      rewrite sort_insert_Permutation. constructor; [| exact Hb].
      destruct (le_total a b) as [Hl | Hl]; [congruence | exact Hl].
Qed.

Lemma stable_sort_StronglySorted (l : list A) :
  StronglySorted R (stable_sort le l).
Proof.
  induction l as [| a l IH]; simpl; [constructor |].
  apply sort_insert_StronglySorted, IH.
Qed.
End StableSortFacts.

(** ** Clean-up of the texture cache *)

Section Cleanup.
Import MemoryManager.

Lemma by_access_time_total (a b : string * Z) :
  by_access_time a b = true \/ by_access_time b a = true.
Proof. unfold by_access_time. rewrite !Z.leb_le. lia. Qed.

Lemma by_access_time_trans (a b c : string * Z) :
  by_access_time a b = true -> by_access_time b c = true ->
  by_access_time a c = true.
Proof. unfold by_access_time. rewrite !Z.leb_le. lia. Qed.

(** The cache after the loop: the keys iterated over are gone, the
    others are untouched. *)
Lemma evict_one_cache (times : list (string * Z))
    (cache : gmap string WebGLTexture) (deleted : list WebGLTexture)
    (entry : string * Z) :
  (evict_one (times, cache, deleted) entry).1.2 = delete entry.1 cache.
Proof.
  unfold evict_one. destruct (cache !! entry.1) eqn:He; [reflexivity |].
  simpl. rewrite delete_id by exact He. reflexivity.
Qed.

Lemma foldl_evict_one_cache (victims : list (string * Z))
    (st : list (string * Z) * gmap string WebGLTexture * list WebGLTexture) :
  (foldl evict_one st victims).1.2 = foldr delete st.1.2 (reverse victims.*1).
Proof.
  revert st. induction victims as [| e victims IH]; intros st; [reflexivity |].
  change (foldl evict_one st (e :: victims))
    with (foldl evict_one (evict_one st e) victims).
  rewrite IH, fmap_cons, reverse_cons, foldr_app. simpl foldr.
  destruct st as [[times cache] deleted]. rewrite evict_one_cache. reflexivity.
Qed.

(** ... and one texture is deleted for each key that was cached. *)
Lemma foldl_evict_one_deleted (victims : list (string * Z))
    (times : list (string * Z)) (cache : gmap string WebGLTexture)
    (deleted : list WebGLTexture) :
  NoDup victims.*1 ->
  (forall key, key ∈ victims.*1 -> is_Some (cache !! key)) ->
  length (foldl evict_one (times, cache, deleted) victims).2
  = (length deleted + length victims)%nat.
Proof.
  revert times cache deleted.
  induction victims as [| e victims IH]; intros times cache deleted Hnd Hin;
    [simpl; lia |].
  rewrite fmap_cons in Hnd, Hin. apply NoDup_cons in Hnd as [Hne Hnd].
  change (foldl evict_one (times, cache, deleted) (e :: victims))
    with (foldl evict_one (evict_one (times, cache, deleted) e) victims).
  assert (Hstep : exists texture,
    evict_one (times, cache, deleted) e
    = (assoc_delete e.1 times, delete e.1 cache, deleted ++ [texture])).
  { destruct (Hin e.1) as [texture He]; [left |]. exists texture.
    unfold evict_one. rewrite He. reflexivity. }
  destruct Hstep as [texture ->].
  rewrite IH; [rewrite length_app; simpl; lia | exact Hnd |].
  intros key Hkey.
  rewrite lookup_delete_ne by (intros Heq; apply Hne; rewrite Heq; exact Hkey).
  apply Hin. right. exact Hkey.
Qed.

(** The result of [cleanupCache] when its size guard lets it run. *)
Lemma cleanupCache_run (self : MemoryManager.t) (chunkCache : gmap string WebGLTexture) :
  maxCacheSize <= currentCacheSize self ->
  let st := foldl evict_one (accessTimes self, chunkCache, [])
                  (sortedChunks self chunkCache) in
  cleanupCache self chunkCache
  = ({| currentCacheSize := recalculateCacheSize st.1.2; accessTimes := st.1.1 |},
     st.1.2, st.2).
Proof.
  intros Hguard st. unfold cleanupCache.
  destruct (Z.ltb_spec (currentCacheSize self) maxCacheSize) as [Hlt | _]; [lia |].
  fold st. destruct st as [[times cache] deleted]. reflexivity.
Qed.

(** ... and when it does not. *)
Lemma cleanupCache_skip (self : MemoryManager.t) (chunkCache : gmap string WebGLTexture) :
  currentCacheSize self < maxCacheSize ->
  cleanupCache self chunkCache = (self, chunkCache, []).
Proof.
  intros Hguard. unfold cleanupCache.
  destruct (Z.ltb_spec (currentCacheSize self) maxCacheSize) as [_ | Hge]; [reflexivity | lia].
Qed.

(** Whatever is removed from the cache is among the entries iterated
    over: the oldest access records, [floor(0.3 * size)] of them. *)
Lemma cleanupCache_lookup (self : MemoryManager.t)
    (chunkCache : gmap string WebGLTexture) (key : string) :
  (cleanupCache self chunkCache).1.2 !! key
  = if decide (maxCacheSize <= currentCacheSize self
               /\ key ∈ (sortedChunks self chunkCache).*1)
    then None else chunkCache !! key.
Proof.
  destruct (Z.le_gt_cases maxCacheSize (currentCacheSize self)) as [Hrun | Hskip].
  - rewrite cleanupCache_run by exact Hrun. cbn [fst snd].
    rewrite foldl_evict_one_cache.
    destruct (decide _) as [[_ Hin] | Hnot].
    + apply lookup_foldr_delete. rewrite elem_of_reverse. exact Hin.
    + apply lookup_foldr_delete_not_elem_of. rewrite elem_of_reverse. tauto.
  - rewrite cleanupCache_skip by lia. cbn [fst snd].
    rewrite decide_False by lia. reflexivity.
Qed.

(** A manager made by its constructor never gets past the size guard:
    [currentCacheSize] starts at 0 and is only recomputed behind the
    guard. *)
Lemma reachable_currentCacheSize (self : MemoryManager.t) :
  reachable self -> currentCacheSize self = 0.
Proof.
  intros [calls <-]. induction calls as [| c calls IH] using rev_ind; [reflexivity |].
  rewrite foldl_app. simpl. destruct c as [chunkKey now | chunkCache]; simpl.
  - exact IH.
  - rewrite cleanupCache_skip by (rewrite IH; reflexivity). exact IH.
Qed.

Lemma reachable_cleanupCache_noop (self : MemoryManager.t)
    (chunkCache : gmap string WebGLTexture) :
  reachable self -> cleanupCache self chunkCache = (self, chunkCache, []).
Proof.
  intros Hr. apply cleanupCache_skip. rewrite (reachable_currentCacheSize self Hr).
  reflexivity.
Qed.
End Cleanup.

Section CleanupOrder.
Import MemoryManager.

Lemma assoc_unique_value {V : Type} (l : list (string * V)) (key : string) (a b : V) :
  NoDup l.*1 -> (key, a) ∈ l -> (key, b) ∈ l -> a = b.
Proof.
  induction l as [| [k v] l IH]; intros Hnd Ha Hb; [by apply elem_of_nil in Ha |].
  rewrite fmap_cons in Hnd. apply NoDup_cons in Hnd as [Hk Hnd]. simpl in Hk.
  assert (Hhead : forall c, (key, c) ∈ (k, v) :: l -> k = key -> c = v).
  { intros c Hc Heq. apply elem_of_cons in Hc as [Hc | Hc]; [congruence |].
    exfalso. apply Hk. apply list_elem_of_fmap. exists (key, c).
    split; [exact Heq | exact Hc]. }
  destruct (decide (k = key)) as [Heq | Hne].
  - rewrite (Hhead a Ha Heq), (Hhead b Hb Heq). reflexivity.
  - apply elem_of_cons in Ha as [Ha | Ha]; [congruence |].
    apply elem_of_cons in Hb as [Hb | Hb]; [congruence |].
    apply IH; assumption.
Qed.

Variable self : MemoryManager.t.
Variable chunkCache : gmap string WebGLTexture.

Let sorted : list (string * Z) := stable_sort by_access_time (accessTimes self).
Let budget : nat := Z.to_nat (thirty_percent (Z.of_nat (size chunkCache))).

Lemma sortedChunks_sorted : sortedChunks self chunkCache = take budget sorted.
Proof. reflexivity. Qed.

Lemma sorted_Permutation : sorted ≡ₚ accessTimes self.
Proof. apply stable_sort_Permutation. Qed.

Lemma sortedChunks_subset (e : string * Z) :
  e ∈ sortedChunks self chunkCache -> e ∈ accessTimes self.
Proof.
  rewrite sortedChunks_sorted. intros He.
  rewrite <- sorted_Permutation. eapply elem_of_sublist; [exact He | apply sublist_take].
Qed.

(** An access record outside the entries iterated over is at least as
    recent as every record among them. *)
Lemma sortedChunks_oldest (e e' : string * Z) :
  e ∈ sortedChunks self chunkCache ->
  e' ∈ accessTimes self ->
  e' ∉ sortedChunks self chunkCache ->
  e.2 <= e'.2.
Proof.
  rewrite sortedChunks_sorted. intros He He' Hne'.
  pose proof (stable_sort_StronglySorted by_access_time by_access_time_total
                by_access_time_trans (accessTimes self)) as Hs.
  fold sorted in Hs. rewrite <- (take_drop budget sorted) in Hs.
  rewrite <- sorted_Permutation, <- (take_drop budget sorted) in He'.
  apply elem_of_app in He' as [He' | He']; [contradiction |].
  pose proof (StronglySorted_app_1_elem_of _ _ _ _ _ Hs He He') as Hle.
  unfold by_access_time in Hle. apply Z.leb_le in Hle. exact Hle.
Qed.

Hypothesis times_NoDup : NoDup (accessTimes self).*1.

Lemma sortedChunks_NoDup : NoDup (sortedChunks self chunkCache).*1.
Proof.
  rewrite sortedChunks_sorted, fmap_take.
  apply (sublist_NoDup _ sorted.*1); [| apply sublist_take].
  rewrite sorted_Permutation. exact times_NoDup.
Qed.

(** Least recently touched first: an entry that the pass removes was
    touched no later than any entry it leaves in the cache. *)
Lemma cleanupCache_removes_oldest (key key' : string) (time time' : Z) :
  (key, time) ∈ accessTimes self ->
  (key', time') ∈ accessTimes self ->
  is_Some (chunkCache !! key) ->
  (cleanupCache self chunkCache).1.2 !! key = None ->
  is_Some ((cleanupCache self chunkCache).1.2 !! key') ->
  time <= time'.
Proof.
  intros Hk Hk' Hcached Hgone Hkept. rewrite cleanupCache_lookup in Hgone, Hkept.
  destruct (decide _) as [[Hrun Hin] | _] in Hgone;
    [| rewrite Hgone in Hcached; by destruct Hcached].
  destruct (decide _) as [_ | Hout] in Hkept; [by destruct Hkept |].
  apply list_elem_of_fmap in Hin as ([k t0] & -> & Hin). simpl in *.
  assert (t0 = time) as ->.
  { eapply assoc_unique_value; [exact times_NoDup | | exact Hk].
    apply sortedChunks_subset, Hin. }
  apply (sortedChunks_oldest (k, time) (key', time') Hin Hk').
  intros Hin'. apply Hout. split; [exact Hrun |].
  apply list_elem_of_fmap. exists (key', time'). split; [reflexivity | exact Hin'].
Qed.

Hypothesis times_cached :
  forall key, key ∈ (accessTimes self).*1 <-> is_Some (chunkCache !! key).

Lemma length_accessTimes : length (accessTimes self) = size chunkCache.
Proof.
  rewrite <- (length_fmap fst), <- (size_dom (D := gset string)).
  rewrite <- (size_list_to_set (C := gset string)) by exact times_NoDup.
  f_equal. apply set_eq. intros key.
  rewrite elem_of_list_to_set, elem_of_dom. apply times_cached.
Qed.

Lemma budget_le : (budget <= size chunkCache)%nat.
Proof.
  unfold budget, thirty_percent.
  assert (3 * Z.of_nat (size chunkCache) / 10 <= Z.of_nat (size chunkCache)).
  { apply Z.div_le_upper_bound; lia. }
  lia.
Qed.

Lemma length_sortedChunks : length (sortedChunks self chunkCache) = budget.
Proof.
  rewrite sortedChunks_sorted, length_take_le; [reflexivity |].
  rewrite sorted_Permutation, length_accessTimes. apply budget_le.
Qed.

Lemma sortedChunks_cached (key : string) :
  key ∈ (sortedChunks self chunkCache).*1 -> is_Some (chunkCache !! key).
Proof.
  intros ([k t] & -> & Hin)%list_elem_of_fmap. apply times_cached.
  apply list_elem_of_fmap. exists (k, t). split; [reflexivity |].
  apply sortedChunks_subset, Hin.
Qed.

Hypothesis guard : maxCacheSize <= currentCacheSize self.

Lemma cleanupCache_deleted_count :
  length (cleanupCache self chunkCache).2 = budget.
Proof.
  rewrite cleanupCache_run by exact guard. cbn [snd].
  rewrite foldl_evict_one_deleted;
    [simpl; apply length_sortedChunks | apply sortedChunks_NoDup | apply sortedChunks_cached].
Qed.

Lemma cleanupCache_size :
  size (cleanupCache self chunkCache).1.2 = (size chunkCache - budget)%nat.
Proof.
  rewrite <- (size_dom (D := gset string)).
  assert (Hdom : dom (cleanupCache self chunkCache).1.2
                 = dom chunkCache ∖ list_to_set (C := gset string)
                                     (sortedChunks self chunkCache).*1).
  { apply set_eq. intros key.
    rewrite elem_of_difference, !elem_of_dom, elem_of_list_to_set, cleanupCache_lookup.
    destruct (decide _) as [[_ Hin] | Hout].
    - split; [intros [v Hv]; discriminate | tauto].
    - split; [intros Hc; split; [exact Hc | tauto] | tauto]. }
  rewrite Hdom, size_difference.
  - rewrite size_dom, size_list_to_set by apply sortedChunks_NoDup.
    rewrite length_fmap, length_sortedChunks. reflexivity.
  - intros key. rewrite elem_of_list_to_set, elem_of_dom. apply sortedChunks_cached.
Qed.
End CleanupOrder.

Section RequestSequence.
Import MemoryManager.

(** A request on a manager whose recorded size is 0: the clean-up
    returns at its guard. *)
Lemma request_tile_skips
    (st : MemoryManager.t * gmap string WebGLTexture * list WebGLTexture) (i : nat) :
  currentCacheSize st.1.1 = 0 ->
  request_tile st i
  = (recordAccess st.1.1 (tile_key i) (Z.of_nat i),
     <[tile_key i := tile_texture i]> st.1.2, st.2).
Proof.
  destruct st as [[manager cache] evicted]. simpl. intros Hsize.
  unfold request_tile. rewrite cleanupCache_skip by (simpl; rewrite Hsize; reflexivity).
  rewrite app_nil_r. reflexivity.
Qed.

Lemma request_sequence_S (n : nat) :
  request_sequence (S n) = request_tile (request_sequence n) n.
Proof. unfold request_sequence. rewrite seq_S, foldl_app. reflexivity. Qed.

Lemma request_sequence_keeps_all (n : nat) :
  (request_sequence n).2 = []
  /\ currentCacheSize (request_sequence n).1.1 = 0
  /\ forall i, (i < n)%nat -> is_Some ((request_sequence n).1.2 !! tile_key i).
Proof.
  induction n as [| n (Hnone & Hsize & Hall)].
  - split; [reflexivity |]. split; [reflexivity |]. intros i Hi. lia.
  - rewrite request_sequence_S, (request_tile_skips _ n Hsize). cbn [fst snd].
    split; [exact Hnone |]. split; [exact Hsize |].
    intros i Hi. destruct (decide (tile_key n = tile_key i)) as [Heq | Hne].
    + rewrite Heq, lookup_insert_eq. eauto.
    + rewrite lookup_insert_ne by exact Hne. apply Hall.
      destruct (decide (i = n)) as [-> | Hin]; [contradiction | lia].
Qed.
End RequestSequence.

(** C5 fails on the code.  The ceiling of 100 MB holds exactly
    [K = 100] tiles of 512 x 512 RGBA pixels.  When pairwise different
    tiles are requested in turn from a new manager, each access recorded
    and the cache cleaned up before the next request, nothing is ever
    evicted, however long the sequence: [currentCacheSize] starts at 0
    and is only recomputed at the end of a pass, behind the guard that
    compares it with the ceiling, so every call of [cleanupCache] returns
    at the guard and the least-recently-touched pass that follows it is
    never run.  After [N = 101] requests all 101 tiles are resident and
    the number of evictions is 0, not [N - K = 1]. *)
Theorem request_sequence_never_evicts :
  cache_capacity = 100
  /\ NoDup (tile_key <$> seq 0 101)
  /\ (forall n : nat,
        (request_sequence n).2 = []
        /\ MemoryManager.currentCacheSize (request_sequence n).1.1 = 0
        /\ forall i, (i < n)%nat ->
                     is_Some ((request_sequence n).1.2 !! tile_key i))
  /\ size (request_sequence 101).1.2 = 101%nat
  /\ Z.of_nat (length (request_sequence 101).2) <> 101 - cache_capacity
  /\ Z.of_nat (size (request_sequence 101).1.2) <> cache_capacity.
Proof.
  split; [reflexivity |].
  split; [apply (bool_decide_unpack (NoDup (tile_key <$> seq 0 101)));
          vm_compute; reflexivity |].
  split; [exact request_sequence_keeps_all |].
  assert (Hsize : size (request_sequence 101).1.2 = 101%nat)
    by (vm_compute; reflexivity).
  split; [exact Hsize |].
  split.
  - rewrite (proj1 (request_sequence_keeps_all 101)). vm_compute. discriminate.
  - rewrite Hsize. vm_compute. discriminate.
Qed.

(** ** Drawing and eviction *)

Section Drawing.
Import ImageRenderer.

(** The draw loop on tiles of existing levels: it completes, and draws
    exactly the tiles whose texture is in the cache when it reads it,
    in order, each with that texture. *)
Lemma renderChunks_resident (s : ImageRenderer.t) (chunks : list ChunkInfo) :
  Forall (fun chunk =>
            is_Some (js_index (levels (imageMetadata s)) (c_level chunk))) chunks ->
  exists draws,
    renderChunks s chunks = Some draws
    /\ d_key <$> draws
       = filter (fun key => is_Some (chunkCache s !! key)) (getChunkKey <$> chunks)
    /\ Forall (fun d => chunkCache s !! d_key d = Some (d_texture d)) draws.
Proof.
  induction 1 as [| chunk chunks [levelData Hlvl] _ (draws & Hr & Hkeys & Htex)].
  - exists []. repeat split. constructor.
  - simpl renderChunks. rewrite fmap_cons, filter_cons.
    destruct (chunkCache s !! getChunkKey chunk) as [texture |] eqn:Hc.
    + rewrite decide_True by eauto. rewrite Hlvl, Hr. simpl.
      eexists. split; [reflexivity |]. split.
      * rewrite fmap_cons, Hkeys. reflexivity.
      * constructor; [exact Hc | exact Htex].
    + rewrite decide_False by (intros [v Hv]; discriminate).
      exists draws. repeat split; assumption.
Qed.

Lemma render_visible_levels (metadata : ImageMetadata) (viewport : Viewport) :
  Forall (fun chunk => is_Some (js_index (levels metadata) (c_level chunk)))
         (render_visible metadata viewport).
Proof.
  unfold render_visible.
  destruct (calculateLOD metadata (v_zoom viewport)) as [| | targetLOD];
    try constructor.
  apply Forall_forall. intros chunk Hin.
  apply getVisibleChunks_in_bounds in Hin as (levelData & Hlvl & -> & _).
  eauto.
Qed.
End Drawing.

(** C6.  An eviction pass of a manager made by its constructor,
    whatever calls it has served, removes no entry of the cache of the
    renderer and deletes no texture; in particular no tile of the draw
    set of the frame is removed.  The draw loop that runs on the cache
    the pass leaves completes and draws exactly the visible tiles that
    were resident before the pass, in order, and every tile it draws is
    resident, with the texture drawn, when the loop reads it. *)
Theorem eviction_keeps_draw_set
    (self : MemoryManager.t) (s : ImageRenderer.t) (viewport : Viewport) :
  MemoryManager.reachable self ->
  let visibleChunks :=
    ImageRenderer.render_visible (ImageRenderer.imageMetadata s) viewport in
  let pass := MemoryManager.cleanupCache self (ImageRenderer.chunkCache s) in
  let after :=
    {| ImageRenderer.imageMetadata := ImageRenderer.imageMetadata s;
       ImageRenderer.chunkCache := pass.1.2;
       ImageRenderer.loadingChunks := ImageRenderer.loadingChunks s;
       ImageRenderer.pending := ImageRenderer.pending s;
       ImageRenderer.fetched := ImageRenderer.fetched s |} in
  pass.2 = []
  /\ (forall chunk texture,
        chunk ∈ visibleChunks ->
        ImageRenderer.chunkCache s !! ImageRenderer.getChunkKey chunk = Some texture ->
        pass.1.2 !! ImageRenderer.getChunkKey chunk = Some texture)
  /\ (forall key, pass.1.2 !! key = ImageRenderer.chunkCache s !! key)
  /\ exists draws,
       ImageRenderer.renderChunks after visibleChunks = Some draws
       /\ ImageRenderer.d_key <$> draws
          = filter (fun key => is_Some (ImageRenderer.chunkCache s !! key))
                   (ImageRenderer.getChunkKey <$> visibleChunks)
       /\ Forall (fun d => pass.1.2 !! ImageRenderer.d_key d
                           = Some (ImageRenderer.d_texture d)) draws.
Proof.
  intros Hreach visibleChunks pass after.
  assert (Hpass : pass = (self, ImageRenderer.chunkCache s, []))
    by (apply reachable_cleanupCache_noop; exact Hreach).
  assert (Hafter : after = s) by (unfold after; rewrite Hpass; destruct s; reflexivity).
  rewrite Hafter, Hpass. cbn [fst snd].
  split; [reflexivity |]. split; [intros chunk texture _ Hc; exact Hc |].
  split; [reflexivity |].
  apply renderChunks_resident, render_visible_levels.
Qed.

(** The theorem on the renderer of the wide example, whose cache holds
    tiles 0 to 99, and a manager that has recorded an access to each of
    them: at the example viewport all nine visible tiles are drawn after
    the pass. *)
Lemma eviction_keeps_draw_set_witness :
  let self :=
    foldl MemoryManager.apply_call MemoryManager.new
          ((fun i => MemoryManager.CallRecordAccess (tile_key i) (Z.of_nat i))
             <$> seq 0 100) in
  let pass := MemoryManager.cleanupCache self (ImageRenderer.chunkCache wide_renderer) in
  pass.2 = []
  /\ exists draws,
       ImageRenderer.renderChunks wide_renderer
         (ImageRenderer.render_visible wide_metadata example_viewport) = Some draws
       /\ length draws = 9%nat.
Proof.
  intros self pass.
  destruct (eviction_keeps_draw_set self wide_renderer example_viewport)
    as (Hnone & _ & Hsame & draws & Hdraws & Hkeys & _).
  - eexists. reflexivity.
  - split; [exact Hnone |]. exists draws. split.
    + rewrite <- Hdraws. reflexivity.
    + rewrite <- (length_fmap ImageRenderer.d_key), Hkeys.
      vm_compute. reflexivity.
Defined.

(** ** Prediction *)

(** Whatever the helpers predict, the prediction is the 5 x 5 block
    around the predicted position, with no check against the image. *)
Lemma predictNextChunks_is_block {Velocity Acceleration : Type}
    (calculateVelocities : list ChunkPredictor.Movement -> list Velocity)
    (calculateAcceleration : list Velocity -> Acceleration)
    (predictPosition : option ChunkPredictor.Movement -> option Velocity ->
                       Acceleration -> ChunkPredictor.Position)
    (movementHistory : list ChunkPredictor.Movement) :
  (2 <= length movementHistory)%nat ->
  ChunkPredictor.predictNextChunks calculateVelocities calculateAcceleration
    predictPosition movementHistory
  = ChunkPredictor.getChunksForPosition
      (predictPosition (last movementHistory)
         (last (calculateVelocities movementHistory))
         (calculateAcceleration (calculateVelocities movementHistory))).
Proof.
  intros Hlen. unfold ChunkPredictor.predictNextChunks.
  destruct (Nat.ltb_spec (length movementHistory) 2) as [Hlt | _]; [lia | reflexivity].
Qed.

(** C10 on the worked example.  With the view at rest at the origin at
    zoom 1, the prediction holds 25 tiles of level 0 with [x] and [y]
    from -2 to 2: sixteen of them lie outside the 8 x 8 grid of the level,
    the first being [(-2, -2)].  At zoom 1/1024 the predicted tiles are of
    level 10, and the pyramid has four levels. *)
Theorem predictNextChunks_example_out_of_grid :
  let history :=
    [ChunkPredictor.mkMovement 0 0 1 0; ChunkPredictor.mkMovement 0 0 1 16] in
  let prediction :=
    ChunkPredictor.predictNextChunks (fun _ => []) (fun _ => tt)
      stationary_predictPosition history in
  prediction = ChunkPredictor.getChunksForPosition (ChunkPredictor.mkPosition 0 0 1)
  /\ (length <$> prediction) = Some 25%nat
  /\ (prediction ≫= fun chunks => chunks !! 9%nat)
     = Some (ChunkPredictor.mkPrediction 0 (-2) (-2) 8)
  /\ (length <$>
        (filter (fun c => ~ (0 <= ChunkPredictor.pr_x c < 8
                             /\ 0 <= ChunkPredictor.pr_y c < 8))
         <$> prediction))
     = Some 16%nat
  /\ js_index (levels example_metadata) 0
     = Some (mkLevelInfo 0 512 512 1 512 8 8 64)
  /\ (fmap (M := list) ChunkPredictor.pr_level
        <$> ChunkPredictor.getChunksForPosition
              (ChunkPredictor.mkPosition 0 0 (1 # 1024)))
     = Some (replicate 25 10)
  /\ length (levels example_metadata) = 4%nat.
Proof.
  intros history prediction.
  repeat split; vm_compute; reflexivity.
Qed.

(** * Further properties *)

(** ** LODManager *)

Section LODManagerFacts.
Import LODManager.

Lemma record_frame_length (self : LODManager.t) (currentTime : Q) :
  (length (frameHistory self) <= maxHistoryLength)%nat ->
  (length (record_frame self currentTime) <= maxHistoryLength)%nat.
Proof.
  intros Hlen. unfold record_frame.
  destruct (Qltb 0 (lastFrameTime self)); [| exact Hlen].
  destruct (Nat.ltb_spec maxHistoryLength
              (length (frameHistory self ++
                 [if Qeq_bool (currentTime - lastFrameTime self) 0
                  then FpsInfinity
                  else Fps (1000 / (currentTime - lastFrameTime self))])))
    as [Hover | Hfit].
  - rewrite length_drop, length_app. simpl. lia.
  - exact Hfit.
Qed.

Lemma Qltb_false (a b : Q) : Qltb a b = false <-> (b <= a)%Q.
Proof.
  rewrite <- not_true_iff_false, Qltb_lt. split; [apply Qnot_lt_le | apply Qle_not_lt].
Qed.

End LODManagerFacts.



(** X2.  The frame-rate history never exceeds ten samples, however many
    frames are rendered, and the first frame (no previous frame time)
    records no sample. *)
Theorem frameHistory_bounded (frames : list (Q * Z * Viewport)) :
  (length (LODManager.frameHistory (LODManager.run frames))
   <= LODManager.maxHistoryLength)%nat
  /\ (forall currentTime maxLODLevel viewport,
        LODManager.frameHistory
          (LODManager.updateLOD LODManager.new currentTime maxLODLevel viewport).1
        = []).
Proof.
  split.
  - unfold LODManager.run.
    induction frames as [| [[currentTime maxLODLevel] viewport] frames IH] using rev_ind.
    + simpl. unfold LODManager.maxHistoryLength. lia.
    + rewrite foldl_app. simpl. apply record_frame_length. exact IH.
  - intros. reflexivity.
Qed.

(** ** PreloadManager *)

Section PreloadFacts.
Import PreloadManager.

Lemma elem_of_shifted (direction : Direction) (chunk c : ChunkInfo) :
  c ∈ shifted direction chunk ->
  c_level c = c_level chunk
  /\ ((c_y c = c_y chunk
       /\ ((0 < dir_x direction)%Q /\ c_x c = c_x chunk + 2
           \/ (dir_x direction < 0)%Q /\ c_x c = c_x chunk - 2))
      \/ (c_x c = c_x chunk
          /\ ((0 < dir_y direction)%Q /\ c_y c = c_y chunk + 2
              \/ (dir_y direction < 0)%Q /\ c_y c = c_y chunk - 2))).
Proof.
  unfold shifted, extraChunks. rewrite !elem_of_app.
  intros [H | [H | [H | H]]];
    match type of H with
    | _ ∈ (if ?b then _ else _) => destruct b eqn:Hb; [| by apply elem_of_nil in H]
    end;
    apply list_elem_of_singleton in H; subst c; apply Qltb_lt in Hb; simpl; tauto.
Qed.

Lemma loop_step_invariant (sched : list ChunkInfo) (self : PreloadManager.t) :
  currentLoads self = Z.of_nat (length (awaiting self)) ->
  currentLoads self <= maxConcurrentLoads ->
  (currentLoads self = maxConcurrentLoads -> awaiting self <> []) ->
  started self ++ preloadQueue self = sched ->
  awaiting self ⊆ started self ->
  queue_invariant sched (loop_step self).
Proof.
  intros Hcount Hmax Hfull Hfifo Hsub. unfold loop_step, queue_invariant.
  destruct (preloadQueue self) as [| chunk rest] eqn:Hq.
  - rewrite Hq. split; [exact Hcount |]. split; [exact Hmax |].
    split; [intros Hne; contradiction |]. split; [exact Hfifo | exact Hsub].
  - destruct (Z.ltb_spec (currentLoads self) maxConcurrentLoads) as [Hroom | Hnoroom].
    + cbn [preloadQueue currentLoads awaiting started].
      split; [rewrite length_app; simpl; lia |]. split; [lia |].
      split; [intros _ Hnil; apply app_eq_nil in Hnil as [_ Hnil]; discriminate |].
      split; [rewrite <- app_assoc; exact Hfifo |].
      intros c [Hc | Hc]%elem_of_app; apply elem_of_app;
        [left; apply Hsub, Hc | right; exact Hc].
    + rewrite Hq. split; [exact Hcount |]. split; [exact Hmax |].
      split; [intros _; apply Hfull; lia |]. split; [exact Hfifo | exact Hsub].
Qed.

Lemma apply_event_invariant_preload (sched : list ChunkInfo)
    (self self' : PreloadManager.t) (ev : Event) :
  queue_invariant sched self ->
  apply_event self ev = Some self' ->
  queue_invariant (sched ++ scheduled [ev]) self'.
Proof.
  intros (Hcount & Hmax & Hwait & Hfifo & Hsub).
  destruct ev as [chunks | i]; simpl; unfold scheduled; simpl; rewrite app_nil_r.
  - intros [= <-]. apply loop_step_invariant; simpl; try assumption.
    + intros Hfull Hnil. rewrite Hnil in Hcount. simpl in Hcount.
      unfold maxConcurrentLoads in Hfull. lia.
    + rewrite app_assoc, Hfifo. reflexivity.
  - unfold resume. destruct (awaiting self !! i) as [chunk |] eqn:Hi; [| discriminate].
    intros [= <-]. pose proof (lookup_lt_Some _ _ _ Hi) as Hlt.
    apply loop_step_invariant; simpl.
    + rewrite length_delete by eauto. lia.
    + lia.
    + unfold maxConcurrentLoads in *. lia.
    + exact Hfifo.
    + intros c Hc. apply Hsub. eapply elem_of_sublist; [exact Hc | apply sublist_delete].
Qed.

Lemma run_invariant_preload (evs : list Event) (self : PreloadManager.t) :
  run evs = Some self -> queue_invariant (scheduled evs) self.
Proof.
  revert self. induction evs as [| ev evs IH] using rev_ind; intros self.
  - intros [= <-]. unfold queue_invariant, maxConcurrentLoads. simpl.
    split; [reflexivity |]. split; [lia |]. split; [intros Hne; exact Hne |].
    split; [reflexivity |]. intros c Hc. exact Hc.
  - unfold run. rewrite foldl_app. simpl. fold (run evs).
    destruct (run evs) as [mid |]; [| discriminate]. simpl. intros Hev.
    unfold scheduled. rewrite bind_app. fold (scheduled evs). fold (scheduled [ev]).
    eapply apply_event_invariant_preload; [apply IH; reflexivity | exact Hev].
Qed.
End PreloadFacts.

(** X3.  Every chunk that [PreloadManager.predictNextChunks] returns
    passes [isValidChunk] and is a currently visible chunk of the same
    level moved by exactly two tiles along the motion: along x in the
    sign of [direction.x], or along y in the sign of [direction.y], the
    other coordinate unchanged.  With no motion nothing is predicted. *)
Theorem PreloadManager_predictNextChunks_valid_and_ahead
    (getCurrentVisibleChunks : Viewport -> list ChunkInfo)
    (isValidChunk : ChunkInfo -> bool)
    (viewport : Viewport) (direction : PreloadManager.Direction) :
  let predictions :=
    PreloadManager.predictNextChunks getCurrentVisibleChunks isValidChunk
      viewport direction in
  (forall c, c ∈ predictions ->
      isValidChunk c = true
      /\ exists chunk,
           chunk ∈ getCurrentVisibleChunks viewport
           /\ c_level c = c_level chunk
           /\ ((c_y c = c_y chunk
                /\ ((0 < PreloadManager.dir_x direction)%Q /\ c_x c = c_x chunk + 2
                    \/ (PreloadManager.dir_x direction < 0)%Q /\ c_x c = c_x chunk - 2))
               \/ (c_x c = c_x chunk
                   /\ ((0 < PreloadManager.dir_y direction)%Q /\ c_y c = c_y chunk + 2
                       \/ (PreloadManager.dir_y direction < 0)%Q
                          /\ c_y c = c_y chunk - 2))))
  /\ ((PreloadManager.dir_x direction == 0)%Q ->
      (PreloadManager.dir_y direction == 0)%Q -> predictions = []).
Proof.
  intros predictions. split.
  - intros c Hc. unfold predictions, PreloadManager.predictNextChunks in Hc.
    apply list_elem_of_filter in Hc as [Hvalid Hc].
    apply list_elem_of_bind in Hc as (chunk & Hc & Hchunk).
    split; [exact Hvalid |]. exists chunk. split; [exact Hchunk |].
    apply elem_of_shifted. exact Hc.
  - intros Hx Hy. unfold predictions, PreloadManager.predictNextChunks.
    assert (Hnone : forall chunk, PreloadManager.shifted direction chunk = []).
    { intros chunk. unfold PreloadManager.shifted.
      assert (Hf : forall q, (q == 0)%Q -> Qltb 0 q = false /\ Qltb q 0 = false).
      { intros q Hq. split; apply Qltb_false; rewrite Hq; apply Qle_refl. }
      destruct (Hf _ Hx) as [-> ->]. destruct (Hf _ Hy) as [-> ->]. reflexivity. }
    induction (getCurrentVisibleChunks viewport) as [| chunk l IH]; [reflexivity |].
    rewrite bind_cons, Hnone. exact IH.
Qed.

(** X4.  In every state of the preload queue the counter [currentLoads]
    equals the number of suspended loads and is at most
    [maxConcurrentLoads] = 4; a chunk waits in the queue only while some
    load is in flight; and the loads started so far followed by the queue
    are exactly the chunks scheduled so far, in order: none is lost,
    duplicated or reordered. *)
Theorem preload_queue_bounded_and_fifo
    (evs : list PreloadManager.Event) (self : PreloadManager.t) :
  PreloadManager.run evs = Some self ->
  PreloadManager.currentLoads self
  = Z.of_nat (length (PreloadManager.awaiting self))
  /\ 0 <= PreloadManager.currentLoads self <= 4
  /\ (PreloadManager.preloadQueue self <> [] -> PreloadManager.awaiting self <> [])
  /\ PreloadManager.started self ++ PreloadManager.preloadQueue self
     = PreloadManager.scheduled evs.
Proof.
  intros Hrun.
  destruct (run_invariant_preload evs self Hrun) as (Hcount & Hmax & Hwait & Hfifo & _).
  unfold PreloadManager.maxConcurrentLoads in Hmax.
  repeat split; try assumption. lia.
Qed.

(** The theorem after six chunks are scheduled in one call and the first
    load has finished: one load in flight, two started, four waiting. *)
Lemma preload_queue_bounded_and_fifo_witness :
  let evs := [PreloadManager.EvSchedule (tile <$> seq 0 6);
              PreloadManager.EvResume 0] in
  exists self,
    PreloadManager.run evs = Some self
    /\ PreloadManager.currentLoads self = 1
    /\ PreloadManager.started self ++ PreloadManager.preloadQueue self
       = tile <$> seq 0 6.
Proof.
  intros evs.
  destruct (PreloadManager.run evs) as [self |] eqn:Hrun;
    [| vm_compute in Hrun; discriminate].
  exists self. split; [reflexivity |].
  destruct (preload_queue_bounded_and_fifo evs self Hrun) as (Hcount & _ & _ & Hfifo).
  split; [| rewrite Hfifo; reflexivity].
  rewrite Hcount. vm_compute in Hrun. injection Hrun as <-. reflexivity.
Defined.

(** ** ProgressiveRenderer *)

(** X5.  Below the coarsest level, the tile that [getLowerLODChunks]
    substitutes for a tile is the tile of the next level that covers it:
    along both axes the span of the substitute contains the span of the
    tile.  The list keeps its length and order. *)
Theorem getLowerLODChunks_covers
    (maxLODLevel c : Z) (chunks : list ChunkInfo) (i : nat) (chunk : ChunkInfo) :
  0 <= c ->
  chunks !! i = Some chunk ->
  0 <= c_level chunk < maxLODLevel ->
  exists lower,
    ProgressiveRenderer.getLowerLODChunks maxLODLevel chunks !! i = Some lower
    /\ c_level lower = c_level chunk + 1
    /\ (tile_span c (c_level lower) (c_x lower)).1
       <= (tile_span c (c_level chunk) (c_x chunk)).1
    /\ (tile_span c (c_level chunk) (c_x chunk)).2
       <= (tile_span c (c_level lower) (c_x lower)).2
    /\ (tile_span c (c_level lower) (c_y lower)).1
       <= (tile_span c (c_level chunk) (c_y chunk)).1
    /\ (tile_span c (c_level chunk) (c_y chunk)).2
       <= (tile_span c (c_level lower) (c_y lower)).2.
Proof.
  intros Hc Hi Hlvl. unfold ProgressiveRenderer.getLowerLODChunks.
  rewrite list_lookup_fmap, Hi. simpl. eexists. split; [reflexivity |]. simpl.
  rewrite Z.min_l by lia. split; [reflexivity |].
  rewrite Z.pow_add_r by lia. change (2 ^ 1) with 2.
  assert (Hp : 0 <= c * 2 ^ c_level chunk) by (apply Z.mul_nonneg_nonneg; [lia | apply Z.pow_nonneg; lia]).
  set (u := c * 2 ^ c_level chunk) in *.
  replace (c * (2 ^ c_level chunk * 2)) with (2 * u) by (unfold u; ring).
  pose proof (Z.div_mod (c_x chunk) 2 ltac:(lia)) as Hx.
  pose proof (Z.mod_pos_bound (c_x chunk) 2 ltac:(lia)) as Hxm.
  pose proof (Z.div_mod (c_y chunk) 2 ltac:(lia)) as Hy.
  pose proof (Z.mod_pos_bound (c_y chunk) 2 ltac:(lia)) as Hym.
  repeat split; nia.
Qed.

(** The theorem on tile (5, 2) of level 1 with four levels and tiles of
    512: it is replaced by tile (2, 1) of level 2. *)
Lemma getLowerLODChunks_covers_witness :
  ProgressiveRenderer.getLowerLODChunks 3 [mkChunkInfo 1 5 2] !! 0%nat
  = Some (mkChunkInfo 2 2 1).
Proof.
  destruct (getLowerLODChunks_covers 3 512 [mkChunkInfo 1 5 2] 0 (mkChunkInfo 1 5 2))
    as (lower & Hlower & _); [lia | reflexivity | simpl; lia |].
  reflexivity.
Defined.

(** ** ViewportController *)

Section WheelFacts.
Import ViewportController.

Lemma Math_max_min_bounds (lo hi v : Q) :
  (lo <= hi)%Q ->
  (lo <= ViewportController.Math_max lo (ViewportController.Math_min hi v)
   /\ ViewportController.Math_max lo (ViewportController.Math_min hi v) <= hi)%Q.
Proof.
  intros Hlohi. unfold ViewportController.Math_max, ViewportController.Math_min.
  destruct (Qle_bool hi v) eqn:Hhv.
  - rewrite (proj2 (Qle_bool_iff lo hi) Hlohi). split; [exact Hlohi | apply Qle_refl].
  - assert (Hvh : (v <= hi)%Q).
    { apply Qlt_le_weak, Qnot_le_lt. intros Hle.
      apply Qle_bool_iff in Hle. congruence. }
    destruct (Qle_bool lo v) eqn:Hlv.
    + apply Qle_bool_iff in Hlv. split; assumption.
    + split; [apply Qle_refl | exact Hlohi].
Qed.
End WheelFacts.

(** X6.  After a wheel event the zoom is between 0.1 and 10, whatever it
    was before, so the level that [calculateLOD] selects for the viewport
    handed to [render] is between 0 and 3: levels coarser than 3 are never
    selected by wheel zoom.  The point under the mouse is the centre of
    the scaling of the origin. *)
Theorem onWheel_clamps_zoom_and_level
    (metadata : ImageMetadata) (viewport viewport' : Viewport)
    (deltaY mouseX mouseY : Q) :
  ViewportController.onWheel viewport deltaY mouseX mouseY = Some viewport' ->
  ((1 # 10) <= v_zoom viewport' <= 10)%Q
  /\ (mouseX - v_x viewport'
      == (mouseX - v_x viewport) * (v_zoom viewport' / v_zoom viewport))%Q
  /\ (mouseY - v_y viewport'
      == (mouseY - v_y viewport) * (v_zoom viewport' / v_zoom viewport))%Q
  /\ v_width viewport' = v_width viewport
  /\ v_height viewport' = v_height viewport
  /\ ((1 <= length (levels metadata))%nat ->
      exists lvl,
        ImageRenderer.calculateLOD metadata (v_zoom viewport') = JS.JInt lvl
        /\ 0 <= lvl <= 3).
Proof.
  unfold ViewportController.onWheel.
  destruct (Qeq_bool (v_zoom viewport) 0); [discriminate |].
  intros [= <-]. cbn [v_zoom v_x v_y v_width v_height].
  set (newZoom := ViewportController.Math_max (1 # 10)
                    (ViewportController.Math_min 10 _)).
  destruct (Math_max_min_bounds (1 # 10) 10
              (v_zoom viewport * (if Qltb 0 deltaY then 9 # 10 else 11 # 10)))
    as [Hlo Hhi]; [discriminate |]. fold newZoom in Hlo, Hhi.
  split; [split; assumption |].
  split; [ring |]. split; [ring |]. split; [reflexivity |]. split; [reflexivity |].
  intros Hlevels.
  assert (Hpos : (0 < newZoom)%Q) by (eapply Qlt_le_trans; [| exact Hlo]; reflexivity).
  eexists. split; [apply calculateLOD_of_positive_zoom; exact Hpos |].
  pose proof (neg_log2_floor_double_tenth newZoom Hlo) as Hn.
  lia.
Qed.

(** The theorem on a wheel step towards the viewer at zoom 1/8 with the
    mouse at the origin: the zoom becomes 0.1125. *)
Lemma onWheel_clamps_zoom_and_level_witness :
  exists viewport',
    ViewportController.onWheel (mkViewport 0 0 1024 1024 (1 # 8)) 1 0 0
    = Some viewport'
    /\ ((1 # 10) <= v_zoom viewport' <= 10)%Q.
Proof.
  destruct (ViewportController.onWheel (mkViewport 0 0 1024 1024 (1 # 8)) 1 0 0)
    as [viewport' |] eqn:Hwheel; [| vm_compute in Hwheel; discriminate].
  exists viewport'. split; [reflexivity |].
  destruct (onWheel_clamps_zoom_and_level example_metadata _ _ _ _ _ Hwheel)
    as [Hzoom _].
  exact Hzoom.
Defined.

(** ** FrustumCuller *)

Section CullFacts.
Import FrustumCuller.

(** The corner picked for a plane maximises the plane's linear form on
    the box. *)
Lemma p_vertex_max (a lo hi v : Q) :
  (lo <= v)%Q -> (v <= hi)%Q ->
  (v * a <= (if Qltb 0 a then hi else lo) * a)%Q.
Proof.
  intros Hlo Hhi. destruct (Qltb 0 a) eqn:Ha.
  - apply Qltb_lt in Ha. apply Qmult_le_compat_r; [exact Hhi | apply Qlt_le_weak, Ha].
  - apply Qltb_false in Ha.
    assert (H : (- (lo * a) <= - (v * a))%Q).
    { assert (E1 : (- (lo * a) == lo * (- a))%Q) by ring.
      assert (E2 : (- (v * a) == v * (- a))%Q) by ring.
      rewrite E1, E2.
      apply Qmult_le_compat_r; [exact Hlo |].
      apply (Qopp_le_compat a 0) in Ha. exact Ha. }
    apply Qopp_le_compat in H. rewrite !Qopp_involutive in H. exact H.
Qed.

Lemma forallb_false_exists {A : Type} (f : A -> bool) (l : list A) :
  forallb f l = false -> exists x, In x l /\ f x = false.
Proof.
  induction l as [| x l IH]; simpl; [discriminate |].
  destruct (f x) eqn:Hfx; simpl.
  - intros H. destruct (IH H) as (y & Hy & Hfy). exists y. auto.
  - intros _. exists x. auto.
Qed.

Lemma outside_plane_sound (frustumPlanes : list Q) (i : nat)
    (minX minY maxX maxY x y : Q) :
  outside_plane frustumPlanes i minX minY maxX maxY = true ->
  (minX <= x <= maxX)%Q -> (minY <= y <= maxY)%Q ->
  exists a b d,
    frustumPlanes !! (i * 4)%nat = Some a
    /\ frustumPlanes !! (i * 4 + 1)%nat = Some b
    /\ frustumPlanes !! (i * 4 + 3)%nat = Some d
    /\ (x * a + y * b + d < 0)%Q.
Proof.
  unfold outside_plane, plane_entry. simpl. rewrite Nat.add_0_r.
  destruct (frustumPlanes !! (i * 4)%nat) as [a |]; [| discriminate].
  destruct (frustumPlanes !! (i * 4 + 1)%nat) as [b |]; [| discriminate].
  destruct (frustumPlanes !! (i * 4 + 3)%nat) as [d |]; [| discriminate].
  intros Hout [Hx1 Hx2] [Hy1 Hy2]. apply Qltb_lt in Hout.
  exists a, b, d. repeat split; try reflexivity.
  eapply Qle_lt_trans; [| exact Hout].
  apply Qplus_le_compat; [| apply Qle_refl].
  apply Qplus_le_compat; apply p_vertex_max; assumption.
Qed.
End CullFacts.

(** X7.  The plane test never culls a tile that has a point inside the
    frustum: when [isChunkVisible] is false, one of the six planes has
    every point of the tile's box strictly on its negative side.  (Only
    the x, y and constant coefficients of a plane are used.) *)
Theorem isChunkVisible_false_is_outside
    (frustumPlanes : list Q) (chunk : ChunkInfo) (levelData : LevelInfo) :
  FrustumCuller.isChunkVisible frustumPlanes chunk levelData = false ->
  let side := (inject_Z (chunk_size levelData) * scale levelData)%Q in
  let minX := (inject_Z (c_x chunk) * inject_Z (chunk_size levelData)
               * scale levelData)%Q in
  let minY := (inject_Z (c_y chunk) * inject_Z (chunk_size levelData)
               * scale levelData)%Q in
  exists i a b d,
    (i < 6)%nat
    /\ frustumPlanes !! (i * 4)%nat = Some a
    /\ frustumPlanes !! (i * 4 + 1)%nat = Some b
    /\ frustumPlanes !! (i * 4 + 3)%nat = Some d
    /\ forall x y,
         (minX <= x <= minX + side)%Q -> (minY <= y <= minY + side)%Q ->
         (x * a + y * b + d < 0)%Q.
Proof.
  intros Hculled side minX minY.
  unfold FrustumCuller.isChunkVisible, FrustumCuller.intersectsFrustum in Hculled.
  cbv zeta in Hculled. fold minX minY side in Hculled.
  apply forallb_false_exists in Hculled as (i & Hi & Hout).
  apply Stdlib.Lists.List.in_seq in Hi. apply negb_false_iff in Hout.
  assert (Hex : exists i, (i < 6)%nat
            /\ FrustumCuller.outside_plane frustumPlanes i minX minY
                 (minX + side) (minY + side) = true).
  { exists i. split; [lia | exact Hout]. }
  clear i Hi Hout.
  destruct Hex as (i & Hi & Hout).
  assert (Hone : exists a b d,
            frustumPlanes !! (i * 4)%nat = Some a
            /\ frustumPlanes !! (i * 4 + 1)%nat = Some b
            /\ frustumPlanes !! (i * 4 + 3)%nat = Some d).
  { unfold FrustumCuller.outside_plane, FrustumCuller.plane_entry in Hout.
    simpl in Hout. rewrite Nat.add_0_r in Hout.
    destruct (frustumPlanes !! (i * 4)%nat) as [a |]; [| discriminate].
    destruct (frustumPlanes !! (i * 4 + 1)%nat) as [b |]; [| discriminate].
    destruct (frustumPlanes !! (i * 4 + 3)%nat) as [d |]; [| discriminate].
    exists a, b, d. repeat split; reflexivity. }
  destruct Hone as (a & b & d & Ha & Hb & Hd).
  exists i, a, b, d. repeat split; try assumption.
  intros x y Hx Hy.
  destruct (outside_plane_sound frustumPlanes i minX minY (minX + side) (minY + side)
              x y Hout Hx Hy) as (a' & b' & d' & Ha' & Hb' & Hd' & Hlt).
  congruence.
Qed.

(** The theorem on the half-plane [x >= 2048] (the other planes accept
    everything): tile (0,0) of level 0, which spans 0 to 512, is culled by
    plane 0. *)
Lemma isChunkVisible_false_is_outside_witness :
  let planes := [1; 0; 0; -2048; 0; 0; 0; 1; 0; 0; 0; 1;
                 0; 0; 0; 1; 0; 0; 0; 1; 0; 0; 0; 1]%Q in
  exists i a b d,
    (i < 6)%nat
    /\ planes !! (i * 4)%nat = Some a
    /\ planes !! (i * 4 + 1)%nat = Some b
    /\ planes !! (i * 4 + 3)%nat = Some d
    /\ (256 * a + 256 * b + d < 0)%Q.
Proof.
  intros planes.
  destruct (isChunkVisible_false_is_outside planes (mkChunkInfo 0 0 0)
              (mkLevelInfo 0 4096 4096 1 512 8 8 64))
    as (i & a & b & d & Hi & Ha & Hb & Hd & Hall); [vm_compute; reflexivity |].
  exists i, a, b, d. repeat split; try assumption.
  apply Hall; simpl; split; vm_compute; discriminate.
Defined.

(** ** ChunkPredictor *)

Section PredictorFacts.
Import ChunkPredictor.





Lemma recordMovement_length (movementHistory : list Movement) (x y zoom : Q) (now : Z) :
  (length movementHistory <= historyLimit)%nat ->
  (length (recordMovement movementHistory x y zoom now) <= historyLimit)%nat.
Proof.
  intros Hlen. unfold recordMovement. cbv zeta.
  destruct (Nat.ltb_spec historyLimit
              (length (movementHistory ++ [mkMovement x y zoom now]))) as [Hlt | Hle].
  - rewrite length_drop, length_app. simpl. lia.
  - exact Hle.
Qed.
End PredictorFacts.

(** X8.  [recordMovement] keeps a sliding window: after any sequence of
    recorded samples the history is the last ten of them, in the order
    they were recorded (each sample stands for the arguments and the
    clock reading of one call). *)
Theorem recordMovement_keeps_last_ten (samples : list ChunkPredictor.Movement) :
  let record := fun history m =>
    ChunkPredictor.recordMovement history (ChunkPredictor.m_x m)
      (ChunkPredictor.m_y m) (ChunkPredictor.m_zoom m)
      (ChunkPredictor.m_timestamp m) in
  foldl record [] samples
  = drop (length samples - ChunkPredictor.historyLimit) samples
  /\ (length (foldl record [] samples) <= ChunkPredictor.historyLimit)%nat.
Proof.
  intros record.
  assert (Hwin : foldl record [] samples
                 = drop (length samples - ChunkPredictor.historyLimit) samples).
  { induction samples as [| m samples IH] using rev_ind; [reflexivity |].
    rewrite foldl_app. simpl. rewrite IH. unfold record at 1.
    unfold ChunkPredictor.recordMovement. cbv zeta.
    replace (ChunkPredictor.mkMovement (ChunkPredictor.m_x m) (ChunkPredictor.m_y m)
               (ChunkPredictor.m_zoom m) (ChunkPredictor.m_timestamp m))
      with m by (destruct m; reflexivity).
    rewrite !length_app, length_drop. simpl.
    unfold ChunkPredictor.historyLimit.
    destruct (Nat.ltb_spec 10
                (length samples - (length samples - 10) + 1)) as [Hlt | Hle].
    - rewrite (drop_app_le (drop _ samples) [m] 1) by (rewrite length_drop; lia).
      rewrite (drop_app_le samples [m]) by lia.
      rewrite drop_drop. f_equal. f_equal. lia.
    - rewrite (drop_app_le samples [m]) by lia. f_equal. f_equal. lia. }
  split; [exact Hwin |].
  rewrite Hwin, length_drop. unfold ChunkPredictor.historyLimit.
  destruct (Nat.le_gt_cases (length samples) 10); lia.
Qed.



(** ** The tiles and the descriptor of a processed image *)

Lemma Qceiling_div_Z_bounds (a b : Z) :
  0 < b ->
  (Qceiling (inject_Z a / inject_Z b) - 1) * b < a
  /\ a <= Qceiling (inject_Z a / inject_Z b) * b.
Proof.
  intros Hb.
  assert (Hbq : (0 < inject_Z b)%Q) by (rewrite <- (Zlt_Qlt 0); exact Hb).
  split.
  - pose proof (proj1 (Qceiling_div_ge (inject_Z a) (inject_Z b)
                         (Qceiling (inject_Z a / inject_Z b)) Hbq)
                      (Z.le_refl _)) as H.
    rewrite <- inject_Z_mult, <- Zlt_Qlt in H. exact H.
  - destruct (Z_lt_le_dec (Qceiling (inject_Z a / inject_Z b) * b) a) as [Hlt | Hle];
      [| exact Hle].
    exfalso.
    assert (H : Qceiling (inject_Z a / inject_Z b) + 1
                <= Qceiling (inject_Z a / inject_Z b)); [| lia].
    apply (Qceiling_div_ge (inject_Z a) (inject_Z b) _ Hbq).
    replace (Qceiling (inject_Z a / inject_Z b) + 1 - 1)
      with (Qceiling (inject_Z a / inject_Z b)) by lia.
    rewrite <- inject_Z_mult, <- Zlt_Qlt. exact Hlt.
Qed.

Lemma foldl_add_lengths {A B : Type} (d : list (A * list B)) (n : Z) :
  foldl (fun n '(_, l) => n + Z.of_nat (length l)) n d
  = n + foldr Z.add 0 ((fun e => Z.of_nat (length e.2)) <$> d).
Proof.
  revert n. induction d as [| [k l] d IH]; intros n.
  - simpl. lia.
  - rewrite fmap_cons. cbn [foldl foldr snd]. rewrite IH. lia.
Qed.

Lemma sum_lengths_concat {A B : Type} (d : list (A * list B)) :
  foldr Z.add 0 ((fun e => Z.of_nat (length e.2)) <$> d)
  = Z.of_nat (length (concat d.*2)).
Proof.
  induction d as [| [k l] d IH]; [reflexivity |].
  rewrite !fmap_cons. cbn [foldr concat snd].
  rewrite length_app, Nat2Z.inj_add, IH. reflexivity.
Qed.

Section TileFacts.
Context `{codec : ImageCodec}.
Import ImageProcessor.

(** The recorded levels are non-empty images. *)
Lemma generate_pyramid_positive (self : t) (image : Image) (e : PyramidLevel) :
  e ∈ generate_pyramid self image ->
  pl_width e = im_width (pl_image e) /\ pl_height e = im_height (pl_image e)
  /\ 256 < pl_width e /\ 256 < pl_height e.
Proof.
  intros [k He]%list_elem_of_lookup.
  destruct (pyramid_loop_spec self image 0) as [Hk _].
  destruct (Hk k e He) as (_ & _ & Hw & Hh & _ & Hmin).
  unfold min_side, min_size in Hmin. repeat split; try assumption; lia.
Qed.

Lemma generate_pyramid_nil (self : t) (image : Image) :
  min_side image <= min_size self -> generate_pyramid self image = [].
Proof.
  intros Hsmall. destruct (generate_pyramid self image) as [| e ls] eqn:Hgen;
    [reflexivity |].
  destruct (pyramid_loop_spec self image 0) as [Hk _].
  unfold generate_pyramid in Hgen. rewrite Hgen in Hk.
  destruct (Hk 0%nat e eq_refl) as (_ & Himg & _ & _ & _ & Hmin).
  rewrite Himg in Hmin. unfold halved in Hmin. simpl in Hmin. lia.
Qed.

Lemma generate_pyramid_cons (self : t) (image : Image) :
  min_size self < min_side image ->
  exists e ls, generate_pyramid self image = e :: ls
               /\ pl_level e = 0 /\ pl_image e = image.
Proof.
  intros Hbig. destruct (generate_pyramid self image) as [| e ls] eqn:Hgen.
  - destruct (pyramid_loop_spec self image 0) as [_ Hstop].
    unfold generate_pyramid in Hgen. rewrite Hgen in Hstop.
    unfold halved in Hstop. simpl in Hstop. lia.
  - exists e, ls. split; [reflexivity |].
    destruct (pyramid_loop_spec self image 0) as [Hk _].
    unfold generate_pyramid in Hgen. rewrite Hgen in Hk.
    destruct (Hk 0%nat e eq_refl) as (Hl & Himg & _). split; [lia | exact Himg].
Qed.

(** The tiles of one level tile its image. *)
Lemma level_chunks_partition (self : t) (lvl : Z) (image : Image) :
  0 < self_chunk_size self -> 0 < im_width image -> 0 < im_height image ->
  let chunk_list :=
    level_chunks self lvl image
      (Qceiling (inject_Z (im_width image) / inject_Z (self_chunk_size self)))
      (Qceiling (inject_Z (im_height image) / inject_Z (self_chunk_size self))) in
  Forall (fun c =>
            ch_level c = lvl
            /\ ch_actual_x c = ch_x c * self_chunk_size self
            /\ ch_actual_y c = ch_y c * self_chunk_size self
            /\ 0 <= ch_x c /\ 0 <= ch_y c
            /\ 1 <= ch_width c <= self_chunk_size self
            /\ 1 <= ch_height c <= self_chunk_size self
            /\ ch_actual_x c + ch_width c <= im_width image
            /\ ch_actual_y c + ch_height c <= im_height image
            /\ ch_data c = crop_image image (ch_actual_x c) (ch_actual_y c)
                             (ch_width c) (ch_height c))
         chunk_list
  /\ forall px py,
       0 <= px < im_width image -> 0 <= py < im_height image ->
       exists c, c ∈ chunk_list /\ chunk_covers c px py
                 /\ forall c', c' ∈ chunk_list -> chunk_covers c' px py -> c' = c.
Proof.
  intros Hcs Hw Hh chunk_list.
  set (cs := self_chunk_size self) in *.
  destruct (Qceiling_div_Z_bounds (im_width image) cs Hcs) as [Hx1 Hx2].
  destruct (Qceiling_div_Z_bounds (im_height image) cs Hcs) as [Hy1 Hy2].
  set (cx := Qceiling (inject_Z (im_width image) / inject_Z cs)) in *.
  set (cy := Qceiling (inject_Z (im_height image) / inject_Z cs)) in *.
  split.
  - apply Forall_forall. intros c Hc.
    apply elem_of_level_chunks in Hc as (x & y & Hx & Hy & ->). simpl. fold cs.
    assert (x * cs <= (cx - 1) * cs) by (apply Z.mul_le_mono_nonneg_r; lia).
    assert (y * cs <= (cy - 1) * cs) by (apply Z.mul_le_mono_nonneg_r; lia).
    repeat split; try reflexivity; lia.
  - intros px py Hpx Hpy.
    pose proof (Z.div_mod px cs ltac:(lia)) as Hdx.
    pose proof (Z.mod_pos_bound px cs Hcs) as Hmx.
    pose proof (Z.div_mod py cs ltac:(lia)) as Hdy.
    pose proof (Z.mod_pos_bound py cs Hcs) as Hmy.
    set (x := px / cs) in *. set (y := py / cs) in *.
    assert (Hx : 0 <= x < cx).
    { split; [apply Z.div_pos; lia |].
      destruct (Z_lt_le_dec x cx) as [Hlt | Hge]; [exact Hlt | exfalso].
      assert (cx * cs <= x * cs) by (apply Z.mul_le_mono_nonneg_r; lia). lia. }
    assert (Hy : 0 <= y < cy).
    { split; [apply Z.div_pos; lia |].
      destruct (Z_lt_le_dec y cy) as [Hlt | Hge]; [exact Hlt | exfalso].
      assert (cy * cs <= y * cs) by (apply Z.mul_le_mono_nonneg_r; lia). lia. }
    eexists. split; [apply elem_of_level_chunks; exists x, y; eauto |].
    split.
    + unfold chunk_covers. simpl. fold cs. lia.
    + intros c' Hc' Hcov.
      apply elem_of_level_chunks in Hc' as (x' & y' & Hx' & Hy' & ->).
      unfold chunk_covers in Hcov. simpl in Hcov. fold cs in Hcov.
      assert (x' = x) as ->.
      { apply (Z.div_unique px cs x' (px - cs * x')); [left |]; lia. }
      assert (y' = y) as ->.
      { apply (Z.div_unique py cs y' (py - cs * y')); [left |]; lia. }
      reflexivity.
Qed.

Lemma split_into_chunks_nonzero (self : t) (ls : list PyramidLevel) :
  self_chunk_size self <> 0 ->
  NoDup (pl_level <$> ls) ->
  split_into_chunks self ls = Some (tiles_of_level self <$> ls).
Proof.
  intros Hcs. unfold split_into_chunks.
  change (Some []) with (Some (tiles_of_level self <$> [])).
  rewrite <- (app_nil_l ls) at 1 3. generalize (@nil PyramidLevel) as pre.
  induction ls as [| e ls IH]; intros pre Hnd.
  - rewrite app_nil_r. reflexivity.
  - change (foldl ?f (Some ?d) (e :: ls))
      with (foldl f (split_level self d e) ls).
    assert (Hstep : split_level self (tiles_of_level self <$> pre) e
                    = Some (dict_set (tiles_of_level self e).1 (tiles_of_level self e).2
                                     (tiles_of_level self <$> pre))).
    { unfold split_level, ceil_div.
      destruct (Z.eqb_spec (self_chunk_size self) 0) as [H0 | _]; [lia |]. reflexivity. }
    rewrite Hstep. unfold dict_set. rewrite assoc_set_fresh.
    + replace ((tiles_of_level self <$> pre)
               ++ [((tiles_of_level self e).1, (tiles_of_level self e).2)])
        with (tiles_of_level self <$> (pre ++ [e]))
        by (rewrite fmap_app; reflexivity).
      rewrite (cons_middle e pre ls), app_assoc in Hnd |- *.
      apply IH. exact Hnd.
    + rewrite <- list_fmap_compose. rewrite fmap_app, fmap_cons in Hnd.
      apply NoDup_app in Hnd as (_ & Hdisj & _). intros Hin.
      apply (Hdisj (pl_level e)); [exact Hin | left].
Qed.
(** With a chunk size that is not positive a level with a width that is
    not negative gets no tile. *)
Lemma tiles_of_level_nonpositive (self : t) (e : PyramidLevel) :
  self_chunk_size self <= 0 -> 0 <= im_width (pl_image e) ->
  (tiles_of_level self e).2 = [].
Proof.
  intros Hcs Hw. unfold tiles_of_level. cbv zeta. cbn [snd].
  unfold level_chunks.
  assert (Hcx : Qceiling (inject_Z (im_width (pl_image e))
                          / inject_Z (self_chunk_size self)) <= 0).
  { assert (Hq : (inject_Z (im_width (pl_image e))
                  / inject_Z (self_chunk_size self) <= 0)%Q).
    { unfold Qdiv, Qle, Qmult, Qinv, inject_Z. simpl.
      destruct (self_chunk_size self) as [| p | p] eqn:Hc; simpl; lia. }
    apply Qceiling_resp_le in Hq. exact Hq. }
  assert (Hnil : seqZ 0 (Qceiling (inject_Z (im_width (pl_image e))
                   / inject_Z (self_chunk_size self))) = []).
  { unfold seqZ. rewrite Z2Nat.nonpos by exact Hcx. reflexivity. }
  rewrite Hnil.
  generalize (seqZ 0 (Qceiling (inject_Z (im_height (pl_image e))
                / inject_Z (self_chunk_size self)))).
  intros rows. induction rows as [| y ys IHys]; [reflexivity |].
  rewrite bind_cons, IHys. reflexivity.
Qed.

Lemma split_into_chunks_raised (self : t) (ls : list PyramidLevel) :
  foldl (fun acc level_data => chunks ← acc; split_level self chunks level_data)
        None ls = None.
Proof. induction ls as [| e ls IH]; [reflexivity | exact IH]. Qed.

(** [process_large_image] in closed form.  It returns when the image
    loads, the chunk size is positive or the pyramid is empty, and the
    helpers return; the metadata and the tiles are then these. *)
Lemma process_large_image_eq (self : t) (load_image : string -> option Image)
    (env : RunEnv) (image_path : string) :
  process_large_image self load_image env image_path
  = (image ← load_image image_path;
     if bool_decide (0 < self_chunk_size self \/ min_side image <= min_size self)
     then
       image_id ← env_image_id env;
       start_time ← env_start_time env;
       if env_saved env
       then Some ({| md_image_id := image_id;
                     md_levels := info_of_level self <$> generate_pyramid self image;
                     md_total_chunks :=
                       foldl (fun n '(_, chunk_list) =>
                                n + Z.of_nat (length chunk_list))
                             0 (tiles_of_level self <$> generate_pyramid self image);
                     md_chunk_size := self_chunk_size self;
                     md_processing_time := (env_now env - start_time)%Q |},
                  tiles_of_level self <$> generate_pyramid self image)
       else None
     else None).
Proof.
  unfold process_large_image.
  destruct (load_image image_path) as [image |]; [| reflexivity].
  cbn [mbind option_bind]. cbv zeta.
  destruct (Z_lt_le_dec 0 (self_chunk_size self)) as [Hpos | Hnonpos].
  - rewrite bool_decide_eq_true_2 by (left; exact Hpos).
    rewrite split_into_chunks_nonzero by (lia || apply generate_pyramid_levels_NoDup).
    cbn [mbind option_bind].
    rewrite generate_metadata_tiles; [| exact Hpos |].
    + destruct (env_image_id env) as [image_id |]; [| reflexivity].
      destruct (env_start_time env) as [start_time |]; reflexivity.
    + apply Forall_forall. intros e He.
      destruct (generate_pyramid_positive self image e He) as (Hw & Hh & Hwp & Hhp).
      lia.
  - destruct (Z_lt_le_dec (min_size self) (min_side image)) as [Hbig | Hsmall].
    + rewrite bool_decide_eq_false_2 by lia.
      destruct (generate_pyramid_cons self image Hbig) as (e & ls & Hgen & Hlvl & Himg).
      destruct (Z.eq_dec (self_chunk_size self) 0) as [Hzero | Hnz].
      * rewrite Hgen. unfold split_into_chunks.
        change (foldl ?f (Some ?d) (e :: ls))
          with (foldl f (split_level self d e) ls).
        unfold split_level at 2, ceil_div. rewrite Hzero.
        cbn [Z.eqb mbind option_bind]. rewrite split_into_chunks_raised. reflexivity.
      * rewrite split_into_chunks_nonzero
          by (exact Hnz || apply generate_pyramid_levels_NoDup).
        cbn [mbind option_bind]. rewrite Hgen, fmap_cons.
        unfold generate_metadata.
        assert (Hempty : (tiles_of_level self e).2 = []).
        { apply tiles_of_level_nonpositive; [exact Hnonpos |].
          rewrite Himg. unfold min_side, min_size in Hbig. lia. }
        destruct (tiles_of_level self e) as [lvl chunk_list]. simpl in Hempty.
        subst chunk_list. reflexivity.
    + rewrite bool_decide_eq_true_2 by (right; exact Hsmall).
      rewrite (generate_pyramid_nil self image Hsmall).
      unfold split_into_chunks, generate_metadata. simpl.
      destruct (env_image_id env) as [image_id |]; [| reflexivity].
      destruct (env_start_time env) as [start_time |]; reflexivity.
Qed.
(** Whether [process_large_image] returns. *)
Lemma process_large_image_is_Some (self : t) (load_image : string -> option Image)
    (env : RunEnv) (image_path : string) :
  is_Some (process_large_image self load_image env image_path)
  <-> exists image,
        load_image image_path = Some image
        /\ helpers_return env
        /\ (0 < self_chunk_size self \/ min_side image <= min_size self).
Proof.
  rewrite process_large_image_eq. unfold helpers_return.
  destruct (load_image image_path) as [image |].
  2: { split; [intros [x Hx]; discriminate | intros (image & Hl & _); discriminate]. }
  cbn [mbind option_bind].
  destruct (bool_decide_reflect
              (0 < self_chunk_size self \/ min_side image <= min_size self))
    as [Hok | Hno].
  2: { split; [intros [x Hx]; discriminate |].
       intros (image' & [= <-] & _ & Hok). contradiction. }
  destruct (env_image_id env) as [image_id |].
  2: { split; [intros [x Hx]; discriminate |].
       intros (_ & _ & ([x Hx] & _) & _). discriminate. }
  destruct (env_start_time env) as [start_time |].
  2: { split; [intros [x Hx]; discriminate |].
       intros (_ & _ & (_ & [x Hx] & _) & _). discriminate. }
  cbn [mbind option_bind].
  destruct (env_saved env).
  - split; [| eauto]. intros _. exists image. repeat split; eauto.
  - split; [intros [x Hx]; discriminate |].
    intros (_ & _ & (_ & _ & Hs) & _). discriminate.
Qed.

(** What a run that returns has met and what it returns. *)
Lemma process_large_image_returned (self : t) (load_image : string -> option Image)
    (env : RunEnv) (image_path : string)
    (metadata : Metadata) (chunks_data : pydict (list Chunk)) :
  process_large_image self load_image env image_path = Some (metadata, chunks_data) ->
  exists image image_id start_time,
    load_image image_path = Some image
    /\ env_image_id env = Some image_id
    /\ env_start_time env = Some start_time
    /\ env_saved env = true
    /\ (0 < self_chunk_size self \/ min_side image <= min_size self)
    /\ chunks_data = tiles_of_level self <$> generate_pyramid self image
    /\ metadata
       = {| md_image_id := image_id;
            md_levels := info_of_level self <$> generate_pyramid self image;
            md_total_chunks :=
              foldl (fun n '(_, chunk_list) => n + Z.of_nat (length chunk_list))
                    0 (tiles_of_level self <$> generate_pyramid self image);
            md_chunk_size := self_chunk_size self;
            md_processing_time := (env_now env - start_time)%Q |}.
Proof.
  rewrite process_large_image_eq.
  destruct (load_image image_path) as [image |]; [| discriminate].
  cbn [mbind option_bind].
  destruct (bool_decide_reflect
              (0 < self_chunk_size self \/ min_side image <= min_size self))
    as [Hok | _]; [| discriminate].
  destruct (env_image_id env) as [image_id |]; [| discriminate].
  destruct (env_start_time env) as [start_time |]; [| discriminate].
  cbn [mbind option_bind].
  destruct (env_saved env); [| discriminate].
  intros [= <- <-]. exists image, image_id, start_time. repeat split; try reflexivity.
  exact Hok.
Qed.
End TileFacts.

(** ** Determinism of the pipeline *)




(** X10.  The tiles that [process_large_image] hands over tile every
    level of the pyramid, for a chunk size and level sides of at most
    [2^53] (where the rounded quotient of [math.ceil(width / chunk_size)]
    has the ceiling of the exact one): the entry of a level holds tiles of
    that level only, each a non-empty crop of at most [chunk_size] pixels
    a side that lies inside the level's image at
    [(x * chunk_size, y * chunk_size)], and every pixel of the level lies
    in exactly one of them. *)
Theorem process_large_image_tiles_partition `{codec : ImageCodec}
    (self : ImageProcessor.t) (load_image : string -> option Image)
    (env : ImageProcessor.RunEnv) (image_path : string) (image : Image)
    (metadata : ImageProcessor.Metadata)
    (chunks_data : pydict (list ImageProcessor.Chunk)) :
  0 < ImageProcessor.self_chunk_size self <= 2 ^ 53 ->
  load_image image_path = Some image ->
  levels_in_double_range self image ->
  ImageProcessor.process_large_image self load_image env image_path
  = Some (metadata, chunks_data) ->
  Forall2
    (fun e entry =>
       entry.1 = ImageProcessor.pl_level e
       /\ Forall (fun c =>
             ImageProcessor.ch_level c = ImageProcessor.pl_level e
             /\ ImageProcessor.ch_actual_x c
                = ImageProcessor.ch_x c * ImageProcessor.self_chunk_size self
             /\ ImageProcessor.ch_actual_y c
                = ImageProcessor.ch_y c * ImageProcessor.self_chunk_size self
             /\ 0 <= ImageProcessor.ch_x c /\ 0 <= ImageProcessor.ch_y c
             /\ 1 <= ImageProcessor.ch_width c
                  <= ImageProcessor.self_chunk_size self
             /\ 1 <= ImageProcessor.ch_height c
                  <= ImageProcessor.self_chunk_size self
             /\ ImageProcessor.ch_actual_x c + ImageProcessor.ch_width c
                <= ImageProcessor.pl_width e
             /\ ImageProcessor.ch_actual_y c + ImageProcessor.ch_height c
                <= ImageProcessor.pl_height e
             /\ ImageProcessor.ch_data c
                = crop_image (ImageProcessor.pl_image e)
                    (ImageProcessor.ch_actual_x c) (ImageProcessor.ch_actual_y c)
                    (ImageProcessor.ch_width c) (ImageProcessor.ch_height c))
            entry.2
       /\ forall px py,
            0 <= px < ImageProcessor.pl_width e ->
            0 <= py < ImageProcessor.pl_height e ->
            exists c, c ∈ entry.2 /\ chunk_covers c px py
              /\ forall c', c' ∈ entry.2 -> chunk_covers c' px py -> c' = c)
    (ImageProcessor.generate_pyramid self image) chunks_data.
Proof.
  intros [Hcs _] Hload _ Hrun.
  destruct (process_large_image_returned self load_image env image_path _ _ Hrun)
    as (image' & _ & _ & Hload' & _ & _ & _ & _ & -> & _).
  rewrite Hload in Hload'. injection Hload' as <-.
  apply Forall2_fmap_r, Forall_Forall2_diag, Forall_forall. intros e He.
  destruct (generate_pyramid_positive self image e He) as (Hw & Hh & Hwpos & Hhpos).
  split; [reflexivity |].
  rewrite Hw, Hh.
  apply (level_chunks_partition self (ImageProcessor.pl_level e)
           (ImageProcessor.pl_image e) Hcs); lia.
Qed.

(** The theorem on a 600 x 300 image with tiles of 512: one level, of
    two tiles. *)
Lemma process_large_image_tiles_partition_witness :
  exists metadata chunks_data,
    ImageProcessor.process_large_image (codec := RectCodec) example_processor
      (fun _ => Some (600, 300)) example_env "small.png"
    = Some (metadata, chunks_data)
    /\ length chunks_data = 1%nat.
Proof.
  destruct (ImageProcessor.process_large_image (codec := RectCodec) example_processor
              (fun _ => Some (600, 300)) example_env "small.png")
    as [[metadata chunks_data] |] eqn:Hrun; [| vm_compute in Hrun; discriminate].
  exists metadata, chunks_data. split; [reflexivity |].
  assert (Hrange : levels_in_double_range (codec := RectCodec) example_processor
                     (600, 300)) by solve_double_range.
  pose proof (process_large_image_tiles_partition (codec := RectCodec)
                example_processor (fun _ => Some (600, 300)) example_env "small.png"
                (600, 300) metadata chunks_data
                ltac:(vm_compute; split; [reflexivity | discriminate])
                eq_refl Hrange Hrun) as Hall.
  apply Forall2_length in Hall. rewrite <- Hall. vm_compute. reflexivity.
Defined.

(** X11.  In the descriptor that [process_large_image] returns, the
    entry at index [k] of [levels] describes level [k] (so the client's
    [levels[level]] finds the entry of that level), its scale is
    [2^-k], its grid is not empty, and [total_chunks] is the sum of the
    [chunk_count] fields, which is the number of tiles handed over. *)
Theorem process_large_image_descriptor_consistent `{codec : ImageCodec}
    (self : ImageProcessor.t) (load_image : string -> option Image)
    (env : ImageProcessor.RunEnv) (image_path : string)
    (metadata : ImageProcessor.Metadata)
    (chunks_data : pydict (list ImageProcessor.Chunk)) :
  0 < ImageProcessor.self_chunk_size self ->
  ImageProcessor.process_large_image self load_image env image_path
  = Some (metadata, chunks_data) ->
  (forall (k : nat) (l : LevelInfo),
      ImageProcessor.md_levels metadata !! k = Some l ->
      level l = Z.of_nat k
      /\ scale l = pow2_neg (Z.of_nat k)
      /\ chunk_size l = ImageProcessor.self_chunk_size self
      /\ 0 < chunks_x l /\ 0 < chunks_y l
      /\ js_index (levels (ImageProcessor.to_client metadata)) (level l) = Some l)
  /\ ImageProcessor.md_total_chunks metadata
     = foldr Z.add 0 (chunk_count <$> ImageProcessor.md_levels metadata)
  /\ ImageProcessor.md_total_chunks metadata
     = Z.of_nat (length (concat chunks_data.*2)).
Proof.
  intros Hcs Hrun.
  destruct (process_large_image_returned self load_image env image_path _ _ Hrun)
    as (image & image_id & start_time & Hload & _ & _ & _ & _ & Hcd & Hmeta).
  assert (Hlevels : ImageProcessor.md_levels metadata
                    = info_of_level self <$> ImageProcessor.generate_pyramid self image)
    by (rewrite Hmeta; reflexivity).
  assert (Htotal : ImageProcessor.md_total_chunks metadata
                   = foldr Z.add 0 ((fun e => Z.of_nat (length e.2)) <$> chunks_data)).
  { rewrite Hmeta, Hcd. cbn [ImageProcessor.md_total_chunks].
    rewrite foldl_add_lengths. lia. }
  assert (Hentry : forall e, e ∈ ImageProcessor.generate_pyramid self image ->
            0 < chunks_x (info_of_level self e) /\ 0 < chunks_y (info_of_level self e)).
  { intros e He.
    destruct (generate_pyramid_positive self image e He) as (Hw & Hh & Hwpos & Hhpos).
    destruct (Qceiling_div_Z_bounds (im_width (ImageProcessor.pl_image e)) _ Hcs)
      as [_ Hx].
    destruct (Qceiling_div_Z_bounds (im_height (ImageProcessor.pl_image e)) _ Hcs)
      as [_ Hy].
    unfold info_of_level. simpl. split; nia. }
  split; [| split].
  - intros k l Hk. rewrite Hlevels in Hk. rewrite list_lookup_fmap in Hk.
    destruct (ImageProcessor.generate_pyramid self image !! k) as [e |] eqn:He;
      [| discriminate].
    simpl in Hk. inversion Hk; subst l. clear Hk.
    destruct (pyramid_loop_spec self image 0) as [Hspec _].
    destruct (Hspec k e He) as (Hl & _).
    destruct (Hentry e) as [Hx Hy]; [apply list_elem_of_lookup; eauto |].
    assert (Hlvl : level (info_of_level self e) = Z.of_nat k) by (simpl; lia).
    repeat split; try assumption.
    + simpl. replace (ImageProcessor.pl_level e) with (Z.of_nat k) by lia.
      reflexivity.
    + rewrite Hlvl. unfold js_index, ImageProcessor.to_client. simpl.
      destruct (Z.ltb_spec (Z.of_nat k) 0) as [Hneg | _]; [lia |].
      rewrite Nat2Z.id, Hlevels, list_lookup_fmap, He. reflexivity.
  - rewrite Htotal, Hcd, Hlevels, <- !list_fmap_compose. f_equal.
    apply list_fmap_ext. intros i e He. simpl.
    destruct (Hentry e) as [Hx Hy]; [apply list_elem_of_lookup; eauto |].
    unfold info_of_level in Hx, Hy. simpl in Hx, Hy.
    apply length_level_chunks; lia.
  - rewrite Htotal. apply sum_lengths_concat.
Qed.

(** The theorem on a 600 x 300 image with tiles of 512: one level of
    two tiles. *)
Lemma process_large_image_descriptor_consistent_witness :
  exists metadata chunks_data,
    ImageProcessor.process_large_image (codec := RectCodec) example_processor
      (fun _ => Some (600, 300)) example_env "small.png"
    = Some (metadata, chunks_data)
    /\ ImageProcessor.md_total_chunks metadata
       = Z.of_nat (length (concat chunks_data.*2)).
Proof.
  destruct (ImageProcessor.process_large_image (codec := RectCodec) example_processor
              (fun _ => Some (600, 300)) example_env "small.png")
    as [[metadata chunks_data] |] eqn:Hrun; [| vm_compute in Hrun; discriminate].
  exists metadata, chunks_data. split; [reflexivity |].
  destruct (process_large_image_descriptor_consistent (codec := RectCodec)
              example_processor (fun _ => Some (600, 300)) example_env "small.png"
              metadata chunks_data ltac:(reflexivity) Hrun)
    as (_ & _ & Htotal).
  exact Htotal.
Defined.

Lemma render_visible_no_levels (metadata : ImageMetadata) (viewport : Viewport) :
  levels metadata = [] -> ImageRenderer.render_visible metadata viewport = [].
Proof.
  intros Hnone. unfold ImageRenderer.render_visible.
  destruct (ImageRenderer.calculateLOD metadata (v_zoom viewport)) as [| | lvl];
    try reflexivity.
  unfold ImageRenderer.getVisibleChunks, js_index. rewrite Hnone.
  destruct (lvl <? 0); [reflexivity |]. rewrite lookup_nil. reflexivity.
Qed.

(** X12.  An image whose smaller side is at most 256 pixels gets no
    level at all, whatever the chunk size.  The run returns exactly when
    the helpers it calls return ([generate_image_id] and [save_chunks]
    return and [self.start_time] is set); what it returns then has an
    empty [levels] list, no tiles and [total_chunks = 0], and a renderer
    initialised with that descriptor draws nothing and fetches nothing
    at any viewport. *)
Theorem small_image_has_no_levels `{codec : ImageCodec}
    (self : ImageProcessor.t) (load_image : string -> option Image)
    (env : ImageProcessor.RunEnv) (image_path : string) (image : Image) :
  load_image image_path = Some image ->
  Z.min (im_width image) (im_height image) <= 256 ->
  (is_Some (ImageProcessor.process_large_image self load_image env image_path)
   <-> ImageProcessor.helpers_return env)
  /\ forall metadata chunks_data,
       ImageProcessor.process_large_image self load_image env image_path
       = Some (metadata, chunks_data) ->
       chunks_data = []
       /\ ImageProcessor.md_levels metadata = []
       /\ ImageProcessor.md_total_chunks metadata = 0
       /\ forall viewport,
            ImageRenderer.render
              (ImageRenderer.initialize (ImageProcessor.to_client metadata)) viewport
            = Some (ImageRenderer.initialize (ImageProcessor.to_client metadata), []).
Proof.
  intros Hload Hsmall. split.
  - rewrite process_large_image_is_Some. split.
    + intros (image' & _ & Hhelp & _). exact Hhelp.
    + intros Hhelp. exists image. split; [exact Hload |].
      split; [exact Hhelp | right; exact Hsmall].
  - intros metadata chunks_data Hrun.
    destruct (process_large_image_returned self load_image env image_path _ _ Hrun)
      as (image' & image_id & start_time & Hload' & _ & _ & _ & _ & -> & ->).
    rewrite Hload in Hload'. injection Hload' as <-.
    rewrite (generate_pyramid_nil self image Hsmall).
    split; [reflexivity |]. split; [reflexivity |]. split; [reflexivity |].
    intros viewport. unfold ImageRenderer.render.
    cbv zeta. rewrite render_visible_no_levels by reflexivity. reflexivity.
Qed.

(** The theorem on a 300 x 200 image, with helpers that return. *)
Lemma small_image_has_no_levels_witness :
  exists metadata,
    ImageProcessor.process_large_image (codec := RectCodec) example_processor
      (fun _ => Some (300, 200)) example_env "thumb.png"
    = Some (metadata, [])
    /\ ImageProcessor.md_levels metadata = [].
Proof.
  destruct (small_image_has_no_levels (codec := RectCodec) example_processor
              (fun _ => Some (300, 200)) example_env "thumb.png" (300, 200)
              eq_refl ltac:(vm_compute; discriminate))
    as (Hreturns & Hempty).
  destruct (proj2 Hreturns) as [[metadata chunks_data] Hrun].
  { unfold ImageProcessor.helpers_return. simpl. repeat split; eauto. }
  destruct (Hempty metadata chunks_data Hrun) as (-> & Hlevels & _).
  exists metadata. split; [exact Hrun | exact Hlevels].
Defined.

(** X13.  When [process_large_image] returns.  A run that returns has
    loaded the image, has met helpers that return, and has a positive
    chunk size or an empty pyramid (the smaller side is at most 256): with
    a pyramid and a chunk size of 0 the division raises; with a negative
    one the first level gets no tile and [chunk_list[0]] raises.
    Conversely, with a chunk size of at most [2^53] and a pyramid within
    the range of the doubles, these conditions are enough for the run to
    return. *)
Theorem process_large_image_returns_when `{codec : ImageCodec}
    (self : ImageProcessor.t) (load_image : string -> option Image)
    (env : ImageProcessor.RunEnv) (image_path : string) :
  (is_Some (ImageProcessor.process_large_image self load_image env image_path) ->
   exists image,
     load_image image_path = Some image
     /\ ImageProcessor.helpers_return env
     /\ (0 < ImageProcessor.self_chunk_size self
         \/ Z.min (im_width image) (im_height image) <= 256))
  /\ (forall image,
        load_image image_path = Some image ->
        ImageProcessor.helpers_return env ->
        ImageProcessor.self_chunk_size self <= 2 ^ 53 ->
        levels_in_double_range self image ->
        0 < ImageProcessor.self_chunk_size self
        \/ Z.min (im_width image) (im_height image) <= 256 ->
        is_Some (ImageProcessor.process_large_image self load_image env image_path)).
Proof.
  split.
  - intros Hsome. apply process_large_image_is_Some in Hsome. exact Hsome.
  - intros image Hload Hhelp _ _ Hok. apply process_large_image_is_Some.
    exists image. split; [exact Hload |]. split; [exact Hhelp | exact Hok].
Qed.

(** The theorem on a 600 x 300 image with tiles of 512 and helpers that
    return: the run returns. *)
Lemma process_large_image_returns_when_witness :
  is_Some (ImageProcessor.process_large_image (codec := RectCodec) example_processor
             (fun _ => Some (600, 300)) example_env "small.png").
Proof.
  assert (Hrange : levels_in_double_range (codec := RectCodec) example_processor
                     (600, 300)) by solve_double_range.
  apply (proj2 (process_large_image_returns_when (codec := RectCodec)
                  example_processor (fun _ => Some (600, 300)) example_env
                  "small.png") (600, 300) eq_refl).
  - unfold ImageProcessor.helpers_return. simpl. repeat split; eauto.
  - vm_compute. discriminate.
  - exact Hrange.
  - left. reflexivity.
Defined.

(** ** Tile keys *)

Section KeyFacts.

Lemma string_app_nil (b : string) : EmptyString +:+ b = b.
Proof. reflexivity. Qed.

Lemma string_app_cons (c : Ascii.ascii) (a b : string) :
  String c a +:+ b = String c (a +:+ b).
Proof. reflexivity. Qed.

Lemma string_app_assoc (a b c : string) : (a +:+ b) +:+ c = a +:+ (b +:+ c).
Proof.
  induction a as [| x a IH]; [reflexivity |].
  rewrite !string_app_cons, IH. reflexivity.
Qed.

Lemma string_app_nil_r (a : string) : a +:+ EmptyString = a.
Proof.
  induction a as [| x a IH]; [reflexivity |]. rewrite string_app_cons, IH. reflexivity.
Qed.

Lemma no_dash_app (a b : string) : no_dash a -> no_dash b -> no_dash (a +:+ b).
Proof.
  induction a as [| x a IH]; [rewrite string_app_nil; auto |].
  rewrite string_app_cons. simpl. intros [Hx Ha] Hb. split; auto.
Qed.

Lemma pretty_N_char_no_dash (x : N) : pretty_N_char x <> dash_char.
Proof. unfold pretty_N_char. repeat case_match; discriminate. Qed.

(** The digits that [pretty_N_go] puts in front of its accumulator. *)
Lemma pretty_N_go_digits (x : N) (s : string) :
  exists p, pretty_N_go x s = p +:+ s /\ no_dash p /\ ((0 < x)%N -> p <> EmptyString).
Proof.
  revert s. induction (N.lt_wf_0 x) as [x _ IH]. intros s.
  destruct (N.eq_0_gt_0_cases x) as [-> | Hpos].
  - exists EmptyString. rewrite pretty_N_go_0. repeat split. intros H. lia.
  - rewrite pretty_N_go_step by exact Hpos.
    destruct (IH (x `div` 10)%N (N.div_lt x 10 Hpos eq_refl)
                 (String (pretty_N_char (x `mod` 10)) s)) as (p & Hp & Hnd & _).
    exists (p +:+ String (pretty_N_char (x `mod` 10)) EmptyString).
    rewrite string_app_assoc. split; [exact Hp |]. split.
    + apply no_dash_app; [exact Hnd |]. simpl. split; [apply pretty_N_char_no_dash | exact I].
    + intros _. destruct p; discriminate.
Qed.

Lemma pretty_N_digits (n : N) :
  no_dash (pretty n) /\ pretty n <> EmptyString.
Proof.
  unfold pretty, pretty_N. destruct (decide (n = 0)%N) as [-> | Hne].
  - split; [simpl; split; [discriminate | exact I] | discriminate].
  - destruct (pretty_N_go_digits n EmptyString) as (p & Hp & Hnd & Hne').
    rewrite Hp, string_app_nil_r. split; [exact Hnd | apply Hne'; lia].
Qed.

(** A printed integer is a string of digits, after a minus sign for a
    negative one. *)
Lemma pretty_Z_digits (z : Z) :
  exists p, no_dash p /\ p <> EmptyString
            /\ (pretty z = p \/ pretty z = String dash_char p).
Proof.
  destruct z as [| q | q].
  - exists "0"%string. repeat split; [discriminate | discriminate | left; reflexivity].
  - exists (pretty (N.pos q)). destruct (pretty_N_digits (N.pos q)) as [Hnd Hne].
    repeat split; [exact Hnd | exact Hne | left; reflexivity].
  - exists (pretty (N.pos q)). destruct (pretty_N_digits (N.pos q)) as [Hnd Hne].
    repeat split; [exact Hnd | exact Hne | right; reflexivity].
Qed.

Lemma digits_dash_inj (p1 p2 r1 r2 : string) :
  no_dash p1 -> no_dash p2 ->
  p1 +:+ String dash_char r1 = p2 +:+ String dash_char r2 -> p1 = p2 /\ r1 = r2.
Proof.
  revert p2. induction p1 as [| c1 p1 IH]; intros [| c2 p2];
    rewrite ?string_app_nil, ?string_app_cons; simpl.
  - intros _ _ H. injection H as ->. split; reflexivity.
  - intros _ [Hc _] H. injection H as Hc' _. congruence.
  - intros [Hc _] _ H. injection H as Hc' _. congruence.
  - intros [_ H1] [_ H2] H. injection H as -> H.
    destruct (IH p2 H1 H2 H) as [-> ->]. split; reflexivity.
Qed.

Lemma pretty_Z_dash_inj (a b : Z) (r1 r2 : string) :
  pretty a +:+ String dash_char r1 = pretty b +:+ String dash_char r2 -> a = b /\ r1 = r2.
Proof.
  destruct (pretty_Z_digits a) as (p1 & Hnd1 & Hne1 & Ha).
  destruct (pretty_Z_digits b) as (p2 & Hnd2 & Hne2 & Hb).
  intros H.
  assert (Hp : pretty a = pretty b /\ r1 = r2).
  { destruct Ha as [Ha | Ha], Hb as [Hb | Hb]; rewrite Ha, Hb in H |- *.
    - destruct (digits_dash_inj _ _ _ _ Hnd1 Hnd2 H) as [-> ->]. split; reflexivity.
    - destruct p1 as [| c p1]; [congruence |].
      rewrite !string_app_cons in H. simpl in Hnd1.
      injection H as Hc _. destruct Hnd1 as [Hc' _]. congruence.
    - destruct p2 as [| c p2]; [congruence |].
      rewrite !string_app_cons in H. simpl in Hnd2.
      injection H as Hc _. destruct Hnd2 as [Hc' _]. congruence.
    - rewrite !string_app_cons in H. injection H as H.
      destruct (digits_dash_inj _ _ _ _ Hnd1 Hnd2 H) as [-> ->]. split; reflexivity. }
  destruct Hp as [Hp ->]. split; [| reflexivity].
  apply (inj pretty). exact Hp.
Qed.

Lemma getChunkKey_eq (a b : ChunkInfo) :
  ImageRenderer.getChunkKey a = ImageRenderer.getChunkKey b -> a = b.
Proof.
  unfold ImageRenderer.getChunkKey. intros H.
  change ("-" +:+ ?s) with (String dash_char s) in H.
  apply pretty_Z_dash_inj in H as [Hl H].
  apply pretty_Z_dash_inj in H as [Hx H].
  apply (inj pretty) in H.
  destruct a, b. simpl in *. congruence.
Qed.
End KeyFacts.

(** X14.  [getChunkKey] gives different tiles different keys, negative
    coordinates included: the key determines the level and both
    coordinates, so the cache and the loading set never confuse two
    tiles. *)
Theorem getChunkKey_injective (a b : ChunkInfo) :
  ImageRenderer.getChunkKey a = ImageRenderer.getChunkKey b <-> a = b.
Proof. split; [apply getChunkKey_eq | intros ->; reflexivity]. Qed.

(** ** Frames of the renderer *)

Section FrameFacts.
Import ImageRenderer.

Lemma filter_none {A : Type} (P : A -> Prop) `{!forall x, Decision (P x)} (l : list A) :
  (forall x, x ∈ l -> ~ P x) -> filter P l = [].
Proof.
  induction l as [| a l IH]; intros Hnone; [reflexivity |].
  rewrite filter_cons, decide_False by (apply Hnone; left).
  apply IH. intros x Hx. apply Hnone. right. exact Hx.
Qed.

Lemma filter_all {A : Type} (P : A -> Prop) `{!forall x, Decision (P x)} (l : list A) :
  (forall x, x ∈ l -> P x) -> filter P l = l.
Proof.
  induction l as [| a l IH]; intros Hall; [reflexivity |].
  rewrite filter_cons, decide_True by (apply Hall; left).
  f_equal. apply IH. intros x Hx. apply Hall. right. exact Hx.
Qed.

(** A run of [loadChunk] calls on tiles that are not cached: each key
    not yet loading is fetched once, at its first occurrence. *)
Lemma foldl_loadChunk_begin_spec (chunks : list ChunkInfo) (s : ImageRenderer.t) :
  (forall c, c ∈ chunks -> chunkCache s !! getChunkKey c = None) ->
  exists started,
    fetched (foldl loadChunk_begin s chunks) = fetched s ++ started
    /\ pending (foldl loadChunk_begin s chunks)
       = pending s ++ (getChunkKey <$> started)
    /\ started `sublist_of` chunks
    /\ NoDup (getChunkKey <$> started)
    /\ (forall c, c ∈ started -> getChunkKey c ∉ loadingChunks s)
    /\ (forall key, key ∈ loadingChunks (foldl loadChunk_begin s chunks)
          <-> key ∈ loadingChunks s \/ key ∈ getChunkKey <$> chunks).
Proof.
  revert s. induction chunks as [| c chunks IH]; intros s Hnc.
  - exists []. simpl. rewrite !app_nil_r.
    split; [reflexivity |]. split; [reflexivity |]. split; [constructor |].
    split; [constructor |]. split; [intros c []%elem_of_nil |].
    intros key. split; [intros H; left; exact H |].
    intros [H | []%elem_of_nil]; exact H.
  - simpl foldl.
    assert (Hc : chunkCache s !! getChunkKey c = None) by (apply Hnc; left).
    destruct (decide (getChunkKey c ∈ loadingChunks s)) as [Hin | Hout].
    + rewrite (loadChunk_begin_coalesces s c) by (right; exact Hin).
      destruct (IH s) as (started & Hf & Hp & Hsub & Hnd & Hnl & Hl).
      { intros c' Hc'. apply Hnc. right. exact Hc'. }
      exists started. split; [exact Hf |]. split; [exact Hp |].
      split; [apply sublist_cons, Hsub |]. split; [exact Hnd |]. split; [exact Hnl |].
      intros key. rewrite Hl, fmap_cons, elem_of_cons. split; [tauto |].
      intros [H | [-> | H]]; auto.
    + destruct (loadChunk_begin_fetches s c Hc Hout) as (Hf1 & Hp1 & Hl1 & Hc1 & _).
      destruct (IH (loadChunk_begin s c)) as (started & Hf & Hp & Hsub & Hnd & Hnl & Hl).
      { intros c' Hc'. rewrite Hc1. apply Hnc. right. exact Hc'. }
      exists (c :: started).
      split. { rewrite Hf, Hf1, <- app_assoc. reflexivity. }
      split. { rewrite Hp, Hp1, <- app_assoc, fmap_cons. reflexivity. }
      split. { apply sublist_skip, Hsub. }
      split.
      { rewrite fmap_cons. apply NoDup_cons. split; [| exact Hnd].
        intros (c' & Hk & Hc')%list_elem_of_fmap. apply (Hnl c' Hc').
        rewrite Hl1, <- Hk. apply elem_of_union_l, elem_of_singleton. reflexivity. }
      split.
      { intros c' [-> | Hc']%elem_of_cons; [exact Hout |].
        intros Hin. apply (Hnl c' Hc'). rewrite Hl1. apply elem_of_union_r, Hin. }
      intros key.
      rewrite Hl, Hl1, elem_of_union, elem_of_singleton, fmap_cons, elem_of_cons. tauto.
Qed.

(** ... and when the keys are pairwise different and none is loading,
    every tile is fetched, in order. *)
Lemma foldl_loadChunk_begin_all (chunks : list ChunkInfo) (s : ImageRenderer.t) :
  NoDup (getChunkKey <$> chunks) ->
  (forall c, c ∈ chunks ->
     chunkCache s !! getChunkKey c = None /\ getChunkKey c ∉ loadingChunks s) ->
  fetched (foldl loadChunk_begin s chunks) = fetched s ++ chunks
  /\ pending (foldl loadChunk_begin s chunks) = pending s ++ (getChunkKey <$> chunks).
Proof.
  revert s. induction chunks as [| c chunks IH]; intros s Hnd Hmiss.
  - simpl. rewrite !app_nil_r. split; reflexivity.
  - rewrite fmap_cons in Hnd. apply NoDup_cons in Hnd as [Hfresh Hnd]. simpl foldl.
    destruct (Hmiss c) as [Hc Hout]; [left |].
    destruct (loadChunk_begin_fetches s c Hc Hout) as (Hf1 & Hp1 & Hl1 & Hc1 & _).
    destruct (IH (loadChunk_begin s c) Hnd) as [Hf Hp].
    { intros c' Hc'. destruct (Hmiss c') as [Hn Ho]; [right; exact Hc' |].
      rewrite Hc1, Hl1. split; [exact Hn |].
      rewrite elem_of_union, elem_of_singleton. intros [Heq | Hin]; [| contradiction].
      apply Hfresh. rewrite <- Heq. apply list_elem_of_fmap. eauto. }
    rewrite Hf, Hp, Hf1, Hp1, <- !app_assoc, fmap_cons. split; reflexivity.
Qed.

Lemma first_by_key_sublist (seen : gset string) (chunks : list ChunkInfo) :
  first_by_key seen chunks `sublist_of` chunks.
Proof.
  revert seen. induction chunks as [| c chunks IH]; intros seen; [constructor |].
  simpl. destruct (decide (getChunkKey c ∈ seen)).
  - apply sublist_cons, IH.
  - apply sublist_skip, IH.
Qed.

Lemma first_by_key_fresh (seen : gset string) (chunks : list ChunkInfo) (c : ChunkInfo) :
  c ∈ first_by_key seen chunks -> getChunkKey c ∉ seen.
Proof.
  revert seen. induction chunks as [| c' chunks IH]; intros seen; simpl;
    [intros []%elem_of_nil |].
  destruct (decide (getChunkKey c' ∈ seen)) as [Hin | Hout]; [apply IH |].
  intros [-> | Hc]%elem_of_cons; [exact Hout |].
  apply IH in Hc. intros Hin. apply Hc, elem_of_union_r, Hin.
Qed.

Lemma first_by_key_NoDup (seen : gset string) (chunks : list ChunkInfo) :
  NoDup (getChunkKey <$> first_by_key seen chunks).
Proof.
  revert seen. induction chunks as [| c chunks IH]; intros seen; simpl;
    [constructor |].
  destruct (decide (getChunkKey c ∈ seen)) as [Hin | Hout]; [apply IH |].
  rewrite fmap_cons. apply NoDup_cons. split; [| apply IH].
  intros (c' & Hk & Hc')%list_elem_of_fmap.
  apply first_by_key_fresh in Hc'. apply Hc'.
  rewrite Hk. apply elem_of_union_l, elem_of_singleton. reflexivity.
Qed.

Lemma first_by_key_complete (seen : gset string) (chunks : list ChunkInfo)
    (c : ChunkInfo) :
  c ∈ chunks -> getChunkKey c ∉ seen ->
  getChunkKey c ∈ getChunkKey <$> first_by_key seen chunks.
Proof.
  revert seen. induction chunks as [| c' chunks IH]; intros seen;
    [intros []%elem_of_nil |].
  intros Hc Hfresh. simpl.
  destruct (decide (getChunkKey c' ∈ seen)) as [Hin | Hout].
  - apply IH; [| exact Hfresh].
    apply elem_of_cons in Hc as [-> | Hc]; [contradiction | exact Hc].
  - rewrite fmap_cons.
    destruct (decide (getChunkKey c = getChunkKey c')) as [Heq | Hne];
      [rewrite Heq; left |].
    right. apply IH.
    2: { intros [Hin | Hin]%elem_of_union; [| contradiction].
         apply elem_of_singleton in Hin. contradiction. }
    apply elem_of_cons in Hc as [-> | Hc]; [contradiction | exact Hc].
Qed.

(** Filtering out tiles whose key has been seen changes nothing. *)
Lemma first_by_key_filter (P : ChunkInfo -> Prop) `{!forall c, Decision (P c)}
    (seen : gset string) (chunks : list ChunkInfo) :
  (forall c, ~ P c -> getChunkKey c ∈ seen) ->
  first_by_key seen (filter P chunks) = first_by_key seen chunks.
Proof.
  revert seen. induction chunks as [| c chunks IH]; intros seen Hseen; [reflexivity |].
  rewrite filter_cons. destruct (decide (P c)) as [Hp | Hnp]; simpl.
  - destruct (decide (getChunkKey c ∈ seen)); [apply IH, Hseen |].
    f_equal. apply IH. intros c' Hc'. apply elem_of_union_r, Hseen, Hc'.
  - rewrite decide_True by (apply Hseen, Hnp). apply IH, Hseen.
Qed.

(** A run of [loadChunk] calls fetches the tiles that are neither cached
    nor loading, every key at its first occurrence. *)
Lemma foldl_loadChunk_begin_first (chunks : list ChunkInfo) (s : ImageRenderer.t) :
  let started := first_by_key (loadingChunks s ∪ dom (chunkCache s)) chunks in
  fetched (foldl loadChunk_begin s chunks) = fetched s ++ started
  /\ pending (foldl loadChunk_begin s chunks)
     = pending s ++ (getChunkKey <$> started).
Proof.
  revert s. induction chunks as [| c chunks IH]; intros s; cbv zeta.
  - simpl. rewrite !app_nil_r. split; reflexivity.
  - simpl foldl. cbn [first_by_key]. cbv zeta.
    destruct (decide (getChunkKey c ∈ loadingChunks s ∪ dom (chunkCache s)))
      as [Hseen | Hfresh].
    + rewrite (loadChunk_begin_coalesces s c).
      * apply IH.
      * apply elem_of_union in Hseen as [Hl | Hd]; [right; exact Hl | left].
        apply elem_of_dom in Hd. exact Hd.
    + assert (Hc : chunkCache s !! getChunkKey c = None).
      { apply not_elem_of_dom. intros Hd. apply Hfresh, elem_of_union_r, Hd. }
      assert (Hout : getChunkKey c ∉ loadingChunks s)
        by (intros Hl; apply Hfresh, elem_of_union_l, Hl).
      destruct (loadChunk_begin_fetches s c Hc Hout) as (Hf1 & Hp1 & Hl1 & Hc1 & _).
      destruct (IH (loadChunk_begin s c)) as [Hf Hp].
      rewrite Hf, Hp, Hf1, Hp1, Hl1, Hc1, <- !app_assoc, fmap_cons.
      rewrite (assoc_L (∪)). split; reflexivity.
Qed.

Lemma elem_of_missing (s : ImageRenderer.t) (chunks : list ChunkInfo) (c : ChunkInfo) :
  c ∈ filter (fun chunk => ¬ is_Some (chunkCache s !! getChunkKey chunk)
                           ∧ getChunkKey chunk ∉ loadingChunks s) chunks
  <-> c ∈ chunks /\ chunkCache s !! getChunkKey c = None
      /\ getChunkKey c ∉ loadingChunks s.
Proof.
  rewrite list_elem_of_filter, <- eq_None_not_Some. tauto.
Qed.

(** After [loadMissingChunks] every tile passed to it is cached or
    loading. *)
Lemma loadMissingChunks_covers (s : ImageRenderer.t) (chunks : list ChunkInfo)
    (c : ChunkInfo) :
  c ∈ chunks ->
  is_Some (chunkCache (loadMissingChunks s chunks) !! getChunkKey c)
  \/ getChunkKey c ∈ loadingChunks (loadMissingChunks s chunks).
Proof.
  intros Hc. unfold loadMissingChunks.
  destruct (foldl_loadChunk_begin_cache
              (filter (fun chunk => ¬ is_Some (chunkCache s !! getChunkKey chunk)
                                    ∧ getChunkKey chunk ∉ loadingChunks s) chunks) s)
    as [Hcache _].
  rewrite Hcache.
  destruct (chunkCache s !! getChunkKey c) as [texture |] eqn:Hlook; [left; eauto |].
  right.
  destruct (foldl_loadChunk_begin_spec
              (filter (fun chunk => ¬ is_Some (chunkCache s !! getChunkKey chunk)
                                    ∧ getChunkKey chunk ∉ loadingChunks s) chunks) s)
    as (started & _ & _ & _ & _ & _ & Hl).
  { intros c' Hc'. apply elem_of_missing in Hc'. tauto. }
  apply Hl. destruct (decide (getChunkKey c ∈ loadingChunks s)) as [Hin | Hout];
    [left; exact Hin | right].
  apply list_elem_of_fmap. exists c. split; [reflexivity |].
  apply elem_of_missing. auto.
Qed.

Lemma foldl_remove_first_self (l r : list string) :
  foldl (fun p key => remove_first key p) (l ++ r) l = r.
Proof.
  induction l as [| k l IH]; [reflexivity |].
  simpl. rewrite decide_True by reflexivity. exact IH.
Qed.

(** A run of successful resumptions. *)
Lemma foldl_resume_spec (textures : string -> WebGLTexture) (keys : list string)
    (s : ImageRenderer.t) :
  let s' := foldl (fun s' key => (loadChunk_resume s' key (Loaded (textures key))).1)
                  s keys in
  imageMetadata s' = imageMetadata s
  /\ fetched s' = fetched s
  /\ pending s' = foldl (fun p key => remove_first key p) (pending s) keys
  /\ (forall key, chunkCache s' !! key
                  = if decide (key ∈ keys) then Some (textures key)
                    else chunkCache s !! key).
Proof.
  revert s. induction keys as [| k keys IH]; intros s.
  - simpl. repeat split.
  - simpl foldl.
    destruct (IH (loadChunk_resume s k (Loaded (textures k))).1)
      as (Hm & Hf & Hp & Hc).
    split; [exact Hm |]. split; [exact Hf |]. split; [exact Hp |].
    intros key. rewrite Hc. simpl.
    destruct (decide (key ∈ keys)) as [Hin | Hout].
    + rewrite decide_True by (right; exact Hin). reflexivity.
    + destruct (decide (key = k)) as [-> | Hne].
      * rewrite decide_True by left. apply lookup_insert_eq.
      * rewrite decide_False by (intros [? | ?]%elem_of_cons; contradiction).
        apply lookup_insert_ne. congruence.
Qed.

Lemma settle_all_spec (textures : string -> WebGLTexture) (s : ImageRenderer.t) :
  imageMetadata (settle_all textures s) = imageMetadata s
  /\ fetched (settle_all textures s) = fetched s
  /\ pending (settle_all textures s) = []
  /\ (forall key, chunkCache (settle_all textures s) !! key
                  = if decide (key ∈ pending s) then Some (textures key)
                    else chunkCache s !! key).
Proof.
  unfold settle_all.
  destruct (foldl_resume_spec textures (pending s) s) as (Hm & Hf & Hp & Hc).
  split; [exact Hm |]. split; [exact Hf |]. split; [| exact Hc].
  rewrite Hp. rewrite <- (app_nil_r (pending s)) at 1.
  apply foldl_remove_first_self.
Qed.

Lemma chunk_grid_NoDup (lvl startX endX startY endY : Z) :
  NoDup (chunk_grid lvl startX endX startY endY).
Proof.
  unfold chunk_grid. apply NoDup_bind; [| | apply NoDup_seqZ].
  - intros y1 y2 c _ _ (x1 & ->%list_elem_of_singleton & _)%list_elem_of_bind
                      (x2 & Heq%list_elem_of_singleton & _)%list_elem_of_bind.
    congruence.
  - intros y _. apply NoDup_bind; [| | apply NoDup_seqZ].
    + intros x1 x2 c _ _ ->%list_elem_of_singleton Heq%list_elem_of_singleton.
      congruence.
    + intros x _. apply NoDup_singleton.
Qed.

Lemma render_visible_keys_NoDup (metadata : ImageMetadata) (viewport : Viewport) :
  NoDup (getChunkKey <$> render_visible metadata viewport).
Proof.
  assert (Hinj : Inj (=) (=) getChunkKey) by (intros a b; apply getChunkKey_eq).
  apply (NoDup_fmap_2 _). unfold render_visible.
  destruct (calculateLOD metadata (v_zoom viewport)) as [| | lvl]; try constructor.
  unfold getVisibleChunks.
  destruct (js_index (levels metadata) lvl) as [l |]; [| constructor].
  cbv zeta.
  destruct (loop_start (v_x viewport * scale l) _); [| constructor].
  destruct (loop_start (v_y viewport * scale l) _); [| constructor].
  destruct (loop_end (chunks_x l - 1) _ _); [| constructor].
  destruct (loop_end (chunks_y l - 1) _ _); [apply chunk_grid_NoDup | constructor].
Qed.
End FrameFacts.

(** X15.  [loadMissingChunks] leaves the cache alone and starts one load
    for each key among the tiles passed to it that is neither cached nor
    loading, at the key's first occurrence and in the order of the
    array: the fetches issued and the loads suspended are exactly those
    of the tiles [first_by_key] keeps, so none is left out and none is
    started twice; afterwards every tile passed to it is cached or
    loading. *)
Theorem loadMissingChunks_starts_each_missing_tile_once
    (s : ImageRenderer.t) (chunks : list ChunkInfo) :
  let s' := ImageRenderer.loadMissingChunks s chunks in
  let started :=
    first_by_key (ImageRenderer.loadingChunks s ∪ dom (ImageRenderer.chunkCache s))
                 chunks in
  ImageRenderer.chunkCache s' = ImageRenderer.chunkCache s
  /\ (forall c, c ∈ chunks ->
        is_Some (ImageRenderer.chunkCache s' !! ImageRenderer.getChunkKey c)
        \/ ImageRenderer.getChunkKey c ∈ ImageRenderer.loadingChunks s')
  /\ (forall key,
        key ∈ ImageRenderer.loadingChunks s'
        <-> key ∈ ImageRenderer.loadingChunks s
            \/ (key ∈ ImageRenderer.getChunkKey <$> chunks
                /\ ImageRenderer.chunkCache s !! key = None))
  /\ ImageRenderer.fetched s' = ImageRenderer.fetched s ++ started
  /\ ImageRenderer.pending s'
     = ImageRenderer.pending s ++ (ImageRenderer.getChunkKey <$> started)
  /\ started `sublist_of` chunks
  /\ NoDup (ImageRenderer.getChunkKey <$> started)
  /\ (forall c, c ∈ started ->
        ImageRenderer.chunkCache s !! ImageRenderer.getChunkKey c = None
        /\ ImageRenderer.getChunkKey c ∉ ImageRenderer.loadingChunks s)
  /\ (forall c, c ∈ chunks ->
        ImageRenderer.chunkCache s !! ImageRenderer.getChunkKey c = None ->
        ImageRenderer.getChunkKey c ∉ ImageRenderer.loadingChunks s ->
        ImageRenderer.getChunkKey c ∈ ImageRenderer.getChunkKey <$> started).
Proof.
  intros s' started.
  split; [apply foldl_loadChunk_begin_cache |].
  split; [intros c Hc; apply loadMissingChunks_covers, Hc |].
  split.
  { unfold s', ImageRenderer.loadMissingChunks.
    set (missing := filter _ chunks).
    destruct (foldl_loadChunk_begin_spec missing s)
      as (started' & _ & _ & _ & _ & _ & Hl).
    { intros c Hc. apply elem_of_missing in Hc. tauto. }
    intros key. rewrite Hl. split.
    + intros [Hin | (c & -> & Hc)%list_elem_of_fmap]; [left; exact Hin | right].
      apply elem_of_missing in Hc as (Hc & Hnone & _).
      split; [apply list_elem_of_fmap; eauto | exact Hnone].
    + intros [Hin | [(c & -> & Hc)%list_elem_of_fmap Hnone]]; [left; exact Hin |].
      destruct (decide (ImageRenderer.getChunkKey c ∈ ImageRenderer.loadingChunks s))
        as [Hin | Hout]; [left; exact Hin | right].
      apply list_elem_of_fmap. exists c. split; [reflexivity |].
      apply elem_of_missing. auto. }
  assert (Hstarted :
    first_by_key (ImageRenderer.loadingChunks s ∪ dom (ImageRenderer.chunkCache s))
      (filter (fun chunk =>
                 ¬ is_Some (ImageRenderer.chunkCache s !! ImageRenderer.getChunkKey chunk)
                 ∧ ImageRenderer.getChunkKey chunk ∉ ImageRenderer.loadingChunks s)
              chunks)
    = started).
  { apply first_by_key_filter. intros c Hnot.
    destruct (decide (ImageRenderer.getChunkKey c ∈ ImageRenderer.loadingChunks s))
      as [Hin | Hout]; [apply elem_of_union_l, Hin |].
    apply elem_of_union_r, elem_of_dom.
    destruct (ImageRenderer.chunkCache s !! ImageRenderer.getChunkKey c) eqn:Hc;
      [eauto |].
    exfalso. apply Hnot. split; [intros [x Hx]; discriminate | exact Hout]. }
  destruct (foldl_loadChunk_begin_first
              (filter (fun chunk =>
                 ¬ is_Some (ImageRenderer.chunkCache s !! ImageRenderer.getChunkKey chunk)
                 ∧ ImageRenderer.getChunkKey chunk ∉ ImageRenderer.loadingChunks s)
                 chunks) s) as [Hf Hp].
  rewrite Hstarted in Hf, Hp.
  split; [exact Hf |]. split; [exact Hp |].
  split; [apply first_by_key_sublist |]. split; [apply first_by_key_NoDup |].
  split.
  - intros c Hc. apply first_by_key_fresh in Hc.
    split; [apply not_elem_of_dom |]; intros Hin; apply Hc;
      [apply elem_of_union_r, Hin | apply elem_of_union_l, Hin].
  - intros c Hc Hnone Hout. apply first_by_key_complete; [exact Hc |].
    apply not_elem_of_dom in Hnone.
    intros [Hin | Hin]%elem_of_union; contradiction.
Qed.

(** The theorem on the tiles (0,0), (1,0), (0,0) of level 0 passed to a
    renderer that holds nothing: two fetches, in that order. *)
Lemma loadMissingChunks_starts_each_missing_tile_once_witness :
  ImageRenderer.fetched
    (ImageRenderer.loadMissingChunks (ImageRenderer.initialize example_metadata)
       [mkChunkInfo 0 0 0; mkChunkInfo 0 1 0; mkChunkInfo 0 0 0])
  = [mkChunkInfo 0 0 0; mkChunkInfo 0 1 0].
Proof.
  destruct (loadMissingChunks_starts_each_missing_tile_once
              (ImageRenderer.initialize example_metadata)
              [mkChunkInfo 0 0 0; mkChunkInfo 0 1 0; mkChunkInfo 0 0 0])
    as (_ & _ & _ & Hf & _).
  rewrite Hf. vm_compute. reflexivity.
Defined.

(** X16.  Progress of the frame loop.  From a state in which the
    suspended loads are exactly the keys marked as loading (every
    reachable state), a frame completes; once the loads it left pending
    have all resumed with a texture, the next frame at the same viewport
    draws every visible tile, in order, and starts no load. *)
Theorem next_frame_draws_every_visible_tile
    (s : ImageRenderer.t) (viewport : Viewport)
    (textures : string -> WebGLTexture) :
  loading_invariant s ->
  exists s1 draws1 draws2,
    ImageRenderer.render s viewport = Some (s1, draws1)
    /\ ImageRenderer.render (settle_all textures s1) viewport
       = Some (settle_all textures s1, draws2)
    /\ ImageRenderer.d_key <$> draws2
       = ImageRenderer.getChunkKey
           <$> ImageRenderer.render_visible (ImageRenderer.imageMetadata s) viewport
    /\ ImageRenderer.fetched (settle_all textures s1) = ImageRenderer.fetched s1
    /\ ImageRenderer.pending (settle_all textures s1) = [].
Proof.
  intros Hinv. unfold ImageRenderer.render. cbv zeta.
  set (visible := ImageRenderer.render_visible (ImageRenderer.imageMetadata s) viewport).
  set (s1 := ImageRenderer.loadMissingChunks s visible).
  assert (Hmeta1 : ImageRenderer.imageMetadata s1 = ImageRenderer.imageMetadata s)
    by apply foldl_loadChunk_begin_cache.
  assert (Hinv1 : loading_invariant s1)
    by (apply foldl_loadChunk_begin_invariant, Hinv).
  destruct (settle_all_spec textures s1) as (Hmeta2 & Hf2 & Hp2 & Hc2).
  set (s2 := settle_all textures s1) in *.
  destruct (renderChunks_resident s1 visible) as (draws1 & Hr1 & _).
  { rewrite Hmeta1. apply render_visible_levels. }
  assert (Hcached : forall c, c ∈ visible ->
            is_Some (ImageRenderer.chunkCache s2 !! ImageRenderer.getChunkKey c)).
  { intros c Hc. rewrite Hc2.
    destruct (decide (ImageRenderer.getChunkKey c ∈ ImageRenderer.pending s1))
      as [Hin | Hout]; [eauto |].
    destruct (loadMissingChunks_covers s visible c Hc) as [Hsome | Hload];
      [exact Hsome |].
    exfalso. apply Hout. destruct Hinv1 as (_ & Hiff & _). apply Hiff. exact Hload. }
  assert (Hvis2 : ImageRenderer.render_visible (ImageRenderer.imageMetadata s2) viewport
                  = visible) by (rewrite Hmeta2, Hmeta1; reflexivity).
  assert (Hload2 : ImageRenderer.loadMissingChunks s2 visible = s2).
  { unfold ImageRenderer.loadMissingChunks. rewrite filter_none; [reflexivity |].
    intros c Hc [Hnot _]. apply Hnot, Hcached, Hc. }
  destruct (renderChunks_resident s2 visible) as (draws2 & Hr2 & Hkeys2 & _).
  { rewrite Hmeta2, Hmeta1. apply render_visible_levels. }
  exists s1, draws1, draws2. fold s2. rewrite Hr1. split; [reflexivity |].
  rewrite Hvis2, Hload2, Hr2. split; [reflexivity |].
  split; [| split; assumption].
  rewrite Hkeys2. apply filter_all.
  intros key (c & -> & Hc)%list_elem_of_fmap. apply Hcached, Hc.
Qed.

(** The theorem on the example: a fresh renderer, the viewport of the
    example, every load ending with texture 1. *)
Lemma next_frame_draws_every_visible_tile_witness :
  exists s1 draws1 draws2,
    ImageRenderer.render (ImageRenderer.initialize example_metadata) example_viewport
    = Some (s1, draws1)
    /\ ImageRenderer.render (settle_all (fun _ => 1%positive) s1) example_viewport
       = Some (settle_all (fun _ => 1%positive) s1, draws2)
    /\ length draws2 = 9%nat.
Proof.
  destruct (next_frame_draws_every_visible_tile
              (ImageRenderer.initialize example_metadata) example_viewport
              (fun _ => 1%positive))
    as (s1 & draws1 & draws2 & Hr1 & Hr2 & Hkeys & _).
  { unfold loading_invariant. simpl. split; [constructor |].
    split; [intros key; split; [intros []%elem_of_nil | intros []%elem_of_empty] |].
    intros key []%elem_of_nil. }
  exists s1, draws1, draws2. split; [exact Hr1 |]. split; [exact Hr2 |].
  rewrite <- (length_fmap ImageRenderer.d_key), Hkeys, length_fmap.
  vm_compute. reflexivity.
Defined.

(** X17.  A zoom that is not positive.  At zoom 0 the level selection
    yields the coarsest level ([Math.min(Infinity, n - 1)]); at a
    negative zoom it yields [NaN], [levels[NaN]] is [undefined], and the
    frame draws nothing and starts no load. *)
Theorem render_at_nonpositive_zoom (s : ImageRenderer.t) (viewport : Viewport) :
  (v_zoom viewport <= 0)%Q ->
  ((v_zoom viewport == 0)%Q ->
     ImageRenderer.calculateLOD (ImageRenderer.imageMetadata s) (v_zoom viewport)
     = JS.JInt (Z.of_nat (length (levels (ImageRenderer.imageMetadata s))) - 1))
  /\ ((v_zoom viewport < 0)%Q ->
        ImageRenderer.calculateLOD (ImageRenderer.imageMetadata s) (v_zoom viewport)
        = JS.JNaN
        /\ ImageRenderer.render s viewport = Some (s, [])).
Proof.
  intros _. destruct (v_zoom viewport) as [num den] eqn:Hzoom. split.
  - intros Hzero. unfold Qeq in Hzero. simpl in Hzero.
    assert (num = 0) as -> by lia. reflexivity.
  - intros Hneg. unfold Qlt in Hneg. simpl in Hneg.
    assert (Hlod : ImageRenderer.calculateLOD (ImageRenderer.imageMetadata s) (num # den)
                   = JS.JNaN).
    { unfold ImageRenderer.calculateLOD, JS.floor_neg_log2. simpl.
      destruct (Z.compare_spec num 0); try lia. reflexivity. }
    split; [exact Hlod |].
    unfold ImageRenderer.render, ImageRenderer.render_visible. cbv zeta.
    rewrite Hzoom, Hlod. reflexivity.
Qed.

(** The theorem at zoom -1 on the example. *)
Lemma render_at_nonpositive_zoom_witness :
  ImageRenderer.render (ImageRenderer.initialize example_metadata)
    (mkViewport 0 0 1024 1024 (-1))
  = Some (ImageRenderer.initialize example_metadata, []).
Proof.
  destruct (render_at_nonpositive_zoom (ImageRenderer.initialize example_metadata)
              (mkViewport 0 0 1024 1024 (-1)))
    as [_ Hneg]; [vm_compute; discriminate |].
  destruct Hneg as [_ Hrender]; [reflexivity | exact Hrender].
Defined.

(** X18.  The first frame of a renderer draws nothing and fetches every
    visible tile exactly once, in the row-major order of
    [getVisibleChunks]; the visible tiles have pairwise different
    keys. *)
Theorem first_frame_fetches_visible_tiles
    (metadata : ImageMetadata) (viewport : Viewport) :
  let visible := ImageRenderer.render_visible metadata viewport in
  NoDup (ImageRenderer.getChunkKey <$> visible)
  /\ exists s1,
       ImageRenderer.render (ImageRenderer.initialize metadata) viewport
       = Some (s1, [])
       /\ ImageRenderer.fetched s1 = visible
       /\ ImageRenderer.pending s1 = ImageRenderer.getChunkKey <$> visible
       /\ ImageRenderer.chunkCache s1 = ∅.
Proof.
  intros visible.
  assert (Hnd : NoDup (ImageRenderer.getChunkKey <$> visible))
    by apply render_visible_keys_NoDup.
  split; [exact Hnd |].
  unfold ImageRenderer.render. cbv zeta.
  change (ImageRenderer.render_visible
            (ImageRenderer.imageMetadata (ImageRenderer.initialize metadata)) viewport)
    with visible.
  set (s1 := ImageRenderer.loadMissingChunks (ImageRenderer.initialize metadata) visible).
  assert (Hmiss : forall c, c ∈ visible ->
            ImageRenderer.chunkCache (ImageRenderer.initialize metadata)
              !! ImageRenderer.getChunkKey c = None
            /\ ImageRenderer.getChunkKey c
               ∉ ImageRenderer.loadingChunks (ImageRenderer.initialize metadata)).
  { intros c _. simpl. split; [apply lookup_empty | apply not_elem_of_empty]. }
  assert (Hcache : ImageRenderer.chunkCache s1 = ∅)
    by apply foldl_loadChunk_begin_cache.
  assert (Hmeta : ImageRenderer.imageMetadata s1 = metadata)
    by apply foldl_loadChunk_begin_cache.
  assert (Hall : ImageRenderer.fetched s1 = visible
                 /\ ImageRenderer.pending s1 = ImageRenderer.getChunkKey <$> visible).
  { unfold s1, ImageRenderer.loadMissingChunks. rewrite filter_all.
    - apply (foldl_loadChunk_begin_all visible (ImageRenderer.initialize metadata) Hnd Hmiss).
    - intros c Hc. destruct (Hmiss c Hc) as [Hnone Hout].
      split; [rewrite Hnone; apply is_Some_None | exact Hout]. }
  destruct (renderChunks_resident s1 visible) as (draws & Hr & Hkeys & _).
  { rewrite Hmeta. apply render_visible_levels. }
  assert (draws = []) as ->.
  { apply (fmap_nil_inv ImageRenderer.d_key). rewrite Hkeys. apply filter_none.
    intros key _ [texture Hsome]. rewrite Hcache, lookup_empty in Hsome. discriminate. }
  exists s1. rewrite Hr. split; [reflexivity |].
  destruct Hall as [Hf Hp]. split; [exact Hf |]. split; [exact Hp | exact Hcache].
Qed.

(** ** The memory manager over its life *)

Section ManagerFacts.
Import MemoryManager.

Lemma elem_of_assoc_set_keys {V : Type} (k key : string) (v : V) (d : list (string * V)) :
  key ∈ (assoc_set k v d).*1 <-> key = k \/ key ∈ d.*1.
Proof.
  induction d as [| [k' v'] d IH]; simpl.
  - rewrite list_elem_of_singleton. split; [auto | intros [H | []%elem_of_nil]; exact H].
  - destruct (decide (k' = k)) as [-> | Hne]; simpl.
    + rewrite !elem_of_cons. tauto.
    + rewrite !elem_of_cons, IH. tauto.
Qed.

Lemma elem_of_assoc_delete_keys {V : Type} (k key : string) (d : list (string * V)) :
  key ∈ (assoc_delete k d).*1 <-> key ∈ d.*1 /\ key <> k.
Proof.
  unfold assoc_delete. rewrite !list_elem_of_fmap. split.
  - intros (e & -> & [Hne He]%list_elem_of_filter). split; [eauto | exact Hne].
  - intros [(e & -> & He) Hne]. exists e. split; [reflexivity |].
    apply list_elem_of_filter. split; assumption.
Qed.

Lemma size_delete_Some {V : Type} (m : gmap string V) (k : string) (v : V) :
  m !! k = Some v -> size m = S (size (delete k m)).
Proof.
  intros Hk. rewrite <- (insert_delete_id m k v Hk) at 1.
  apply map_size_insert_None, lookup_delete_eq.
Qed.

(** What the loop of [cleanupCache] does to its three variables,
    whatever it iterates over. *)
Lemma foldl_evict_one_shrinks (victims : list (string * Z))
    (times : list (string * Z)) (cache : gmap string WebGLTexture)
    (deleted : list WebGLTexture) :
  let st := foldl evict_one (times, cache, deleted) victims in
  st.1.2 ⊆ cache
  /\ st.1.1 `sublist_of` times
  /\ (size st.1.2 + length st.2 = size cache + length deleted)%nat
  /\ (length st.2 <= length deleted + length victims)%nat
  /\ (forall key, key ∈ times.*1 -> key ∉ st.1.1.*1 ->
        is_Some (cache !! key) /\ st.1.2 !! key = None).
Proof.
  revert times cache deleted.
  induction victims as [| e victims IH]; intros times cache deleted.
  - simpl. split; [reflexivity |]. split; [reflexivity |]. split; [reflexivity |].
    split; [lia |]. intros key Hin Hout. contradiction.
  - change (foldl evict_one (times, cache, deleted) (e :: victims))
      with (foldl evict_one (evict_one (times, cache, deleted) e) victims).
    unfold evict_one at 2. destruct (cache !! e.1) as [texture |] eqn:He.
    + destruct (IH (assoc_delete e.1 times) (delete e.1 cache) (deleted ++ [texture]))
        as (Hsub & Hlist & Hsize & Hlen & Hdrop).
      cbv zeta. split; [etrans; [exact Hsub | apply delete_subseteq] |].
      split; [etrans; [exact Hlist | apply sublist_filter] |].
      split; [rewrite Hsize, length_app, (size_delete_Some cache e.1 texture He); simpl; lia |].
      split; [rewrite length_app in Hlen; simpl in *; lia |].
      intros key Hin Hout.
      destruct (decide (key = e.1)) as [-> | Hne].
      * split; [eauto |].
        eapply lookup_weaken_None; [apply lookup_delete_eq | exact Hsub].
      * destruct (Hdrop key) as [[v Hv] Hnone]; [| exact Hout |].
        { apply elem_of_assoc_delete_keys. split; assumption. }
        rewrite lookup_delete_ne in Hv by congruence. split; [eauto | exact Hnone].
    + destruct (IH times cache deleted) as (Hsub & Hlist & Hsize & Hlen & Hdrop).
      cbv zeta. split; [exact Hsub |]. split; [exact Hlist |]. split; [exact Hsize |].
      split; [simpl; lia | exact Hdrop].
Qed.

Lemma foldl_apply_call_fresh (calls : list Call) :
  currentCacheSize (foldl apply_call new calls) = 0
  /\ accessTimes (foldl apply_call new calls) = recorded calls.
Proof.
  unfold recorded.
  induction calls as [| c calls [IHsize IHtimes]] using rev_ind; [split; reflexivity |].
  rewrite !foldl_app. simpl. destruct c as [chunkKey now | chunkCache]; simpl.
  - split; [exact IHsize | rewrite IHtimes; reflexivity].
  - rewrite cleanupCache_skip by (rewrite IHsize; reflexivity). simpl.
    split; [exact IHsize | exact IHtimes].
Qed.

Lemma recorded_keys (calls : list Call) (key : string) (now : Z) :
  CallRecordAccess key now ∈ calls -> key ∈ (recorded calls).*1.
Proof.
  unfold recorded. induction calls as [| c calls IH] using rev_ind;
    [intros []%elem_of_nil |].
  rewrite foldl_app. simpl. intros [Hin | <-%list_elem_of_singleton]%elem_of_app.
  - destruct c as [chunkKey now' | chunkCache]; [| apply IH, Hin].
    apply elem_of_assoc_set_keys. right. apply IH, Hin.
  - apply elem_of_assoc_set_keys. left. reflexivity.
Qed.
End ManagerFacts.

(** X19.  A manager made by its constructor never evicts: whatever
    calls of [recordAccess] and [cleanupCache] it has served,
    [currentCacheSize] is still 0, so [cleanupCache] returns at its size
    guard and leaves the manager and the cache as they are, and the access
    times are those recorded by [recordAccess], none forgotten. *)
Theorem constructed_manager_never_evicts (calls : list MemoryManager.Call) :
  let self := foldl MemoryManager.apply_call MemoryManager.new calls in
  MemoryManager.currentCacheSize self = 0
  /\ MemoryManager.accessTimes self = recorded calls
  /\ (forall chunkCache,
        MemoryManager.cleanupCache self chunkCache = (self, chunkCache, []))
  /\ (forall key now,
        MemoryManager.CallRecordAccess key now ∈ calls ->
        key ∈ (MemoryManager.accessTimes self).*1).
Proof.
  intros self. destruct (foldl_apply_call_fresh calls) as [Hsize Htimes].
  split; [exact Hsize |]. split; [exact Htimes |]. split.
  - intros chunkCache. apply cleanupCache_skip. fold self in Hsize. rewrite Hsize.
    reflexivity.
  - intros key now Hin. fold self in Htimes. rewrite Htimes.
    apply (recorded_keys calls key now Hin).
Qed.

(** X20.  [cleanupCache] only removes: the cache it leaves is part of
    the cache it was given, the access times it leaves are a subsequence
    of the old ones, it calls [deleteTexture] once for each entry removed
    from the cache and for at most [floor(0.3 * size)] entries, and an
    access record is dropped only together with the cached texture of its
    key. *)
Theorem cleanupCache_only_removes
    (self : MemoryManager.t) (chunkCache : gmap string WebGLTexture) :
  let result := MemoryManager.cleanupCache self chunkCache in
  let self' := result.1.1 in
  let chunkCache' := result.1.2 in
  let deleted := result.2 in
  chunkCache' ⊆ chunkCache
  /\ MemoryManager.accessTimes self' `sublist_of` MemoryManager.accessTimes self
  /\ (size chunkCache' + length deleted = size chunkCache)%nat
  /\ Z.of_nat (length deleted)
     <= MemoryManager.thirty_percent (Z.of_nat (size chunkCache))
  /\ (forall key,
        key ∈ (MemoryManager.accessTimes self).*1 ->
        key ∉ (MemoryManager.accessTimes self').*1 ->
        is_Some (chunkCache !! key) /\ chunkCache' !! key = None).
Proof.
  intros result self' chunkCache' deleted.
  unfold deleted, chunkCache', self', result. clear result self' chunkCache' deleted.
  assert (H30 : 0 <= MemoryManager.thirty_percent (Z.of_nat (size chunkCache))).
  { unfold MemoryManager.thirty_percent. apply Z.div_pos; lia. }
  destruct (Z.le_gt_cases MemoryManager.maxCacheSize
              (MemoryManager.currentCacheSize self)) as [Hrun | Hskip].
  - rewrite cleanupCache_run by exact Hrun. cbn [fst snd MemoryManager.accessTimes].
    destruct (foldl_evict_one_shrinks (MemoryManager.sortedChunks self chunkCache)
                (MemoryManager.accessTimes self) chunkCache [])
      as (Hsub & Hlist & Hsize & Hlen & Hdrop).
    split; [exact Hsub |]. split; [exact Hlist |].
    split; [cbn [length] in Hsize; lia |]. split; [| exact Hdrop].
    assert (Hbudget : (length (MemoryManager.sortedChunks self chunkCache)
                       <= Z.to_nat (MemoryManager.thirty_percent
                                      (Z.of_nat (size chunkCache))))%nat)
      by (unfold MemoryManager.sortedChunks; rewrite length_take; lia).
    cbn [length] in Hlen. lia.
  - rewrite cleanupCache_skip by lia. cbn [fst snd].
    split; [reflexivity |]. split; [reflexivity |]. split; [simpl; lia |].
    split; [simpl; lia |]. intros key Hin Hout. contradiction.
Qed.

(** ** From the server's descriptor to the client's requests *)

(** X21.  The tiles a frame asks for exist on the server: with the
    descriptor that [process_large_image] returned, every tile that
    [render] picks at any viewport is one of the tiles the same run
    produced for that level. *)
Theorem render_visible_tiles_are_stored `{codec : ImageCodec}
    (self : ImageProcessor.t) (load_image : string -> option Image)
    (env : ImageProcessor.RunEnv) (image_path : string)
    (metadata : ImageProcessor.Metadata)
    (chunks_data : pydict (list ImageProcessor.Chunk))
    (viewport : Viewport) (c : ChunkInfo) :
  0 < ImageProcessor.self_chunk_size self ->
  ImageProcessor.process_large_image self load_image env image_path
  = Some (metadata, chunks_data) ->
  c ∈ ImageRenderer.render_visible (ImageProcessor.to_client metadata) viewport ->
  exists chunk_list chunk,
    (c_level c, chunk_list) ∈ chunks_data
    /\ chunk ∈ chunk_list
    /\ ImageProcessor.ch_level chunk = c_level c
    /\ ImageProcessor.ch_x chunk = c_x c
    /\ ImageProcessor.ch_y chunk = c_y c.
Proof.
  intros Hcs Hrun Hvis.
  destruct (process_large_image_returned self load_image env image_path _ _ Hrun)
    as (image & image_id & start_time & Hload & _ & _ & _ & _ & Hcd & Hmeta).
  assert (Hlevels : ImageProcessor.md_levels metadata
                    = info_of_level self <$> ImageProcessor.generate_pyramid self image)
    by (rewrite Hmeta; reflexivity).
  unfold ImageRenderer.render_visible in Hvis.
  destruct (ImageRenderer.calculateLOD (ImageProcessor.to_client metadata)
              (v_zoom viewport)) as [| | lvl];
    try (apply elem_of_nil in Hvis; contradiction).
  apply getVisibleChunks_in_bounds in Hvis as (levelData & Hidx & Hlvl & Hx & Hy).
  unfold js_index, ImageProcessor.to_client in Hidx. simpl in Hidx.
  destruct (Z.ltb_spec lvl 0) as [Hneg | Hnonneg]; [discriminate |].
  rewrite Hlevels, list_lookup_fmap in Hidx.
  destruct (ImageProcessor.generate_pyramid self image !! Z.to_nat lvl) as [e |] eqn:He;
    [| discriminate].
  simpl in Hidx. injection Hidx as <-.
  destruct (pyramid_loop_spec self image 0) as [Hspec _].
  destruct (Hspec (Z.to_nat lvl) e He) as (Hl & _).
  assert (Hle : ImageProcessor.pl_level e = c_level c) by lia.
  exists (tiles_of_level self e).2.
  eexists. split; [| split].
  - rewrite Hcd. apply list_elem_of_fmap. exists e. split.
    + unfold tiles_of_level. cbv zeta. cbn [snd]. rewrite Hle. reflexivity.
    + apply list_elem_of_lookup. eauto.
  - unfold tiles_of_level. cbv zeta. cbn [snd].
    apply elem_of_level_chunks. exists (c_x c), (c_y c).
    split; [exact Hx |]. split; [exact Hy | reflexivity].
  - simpl. repeat split. exact Hle.
Qed.

(** The theorem on a 600 x 300 image with tiles of 512: tile (1, 0) of
    level 0, picked at the viewport of the example. *)
Lemma render_visible_tiles_are_stored_witness :
  exists metadata chunks_data chunk_list chunk,
    ImageProcessor.process_large_image (codec := RectCodec) example_processor
      (fun _ => Some (600, 300)) example_env "small.png"
    = Some (metadata, chunks_data)
    /\ (0, chunk_list) ∈ chunks_data
    /\ chunk ∈ chunk_list
    /\ ImageProcessor.ch_x chunk = 1 /\ ImageProcessor.ch_y chunk = 0.
Proof.
  destruct (ImageProcessor.process_large_image (codec := RectCodec) example_processor
              (fun _ => Some (600, 300)) example_env "small.png")
    as [[metadata chunks_data] |] eqn:Hrun; [| vm_compute in Hrun; discriminate].
  destruct (render_visible_tiles_are_stored (codec := RectCodec) example_processor
              (fun _ => Some (600, 300)) example_env "small.png"
              metadata chunks_data example_viewport (mkChunkInfo 0 1 0)
              ltac:(reflexivity) Hrun)
    as (chunk_list & chunk & Hin & Hchunk & _ & Hx & Hy).
  { vm_compute in Hrun. injection Hrun as <- _.
    apply list_elem_of_lookup. exists 1%nat. vm_compute. reflexivity. }
  exists metadata, chunks_data, chunk_list, chunk.
  split; [reflexivity |]. split; [exact Hin |]. split; [exact Hchunk |].
  split; [exact Hx | exact Hy].
Defined.

(** X22.  The responses of [process_image], for images whose pyramid
    is within the range of the doubles.  It answers 400 exactly when the
    path is missing, empty or does not exist; otherwise it answers 500
    exactly when the image cannot be loaded or one of the helpers of the
    processor raises ([generate_image_id], [save_chunks], the read of
    [self.start_time]), and success exactly when the image loads and the
    helpers return, with the descriptor of the image's pyramid for tiles
    of 512: with the default chunk size nothing else raises. *)
Theorem process_image_responses `{codec : ImageCodec}
    (path_exists : string -> bool) (load_image : string -> option Image)
    (env : ImageProcessor.RunEnv) (file_path : option string) :
  (forall path image,
      load_image path = Some image ->
      levels_in_double_range (ImageProcessor.init 512) image) ->
  let response := Api.process_image path_exists load_image env file_path in
  (response = Api.Error 400
   <-> file_path = None
       \/ exists path, file_path = Some path
                       /\ (path = "" \/ path_exists path = false))
  /\ (response = Api.Error 500
      <-> exists path, file_path = Some path /\ path <> ""
                       /\ path_exists path = true
                       /\ (load_image path = None
                           \/ ~ ImageProcessor.helpers_return env))
  /\ ((exists metadata, response = Api.Success metadata)
      <-> exists path image,
            file_path = Some path /\ path <> "" /\ path_exists path = true
            /\ load_image path = Some image
            /\ ImageProcessor.helpers_return env)
  /\ (forall metadata,
        response = Api.Success metadata ->
        exists path image chunks_data,
          file_path = Some path
          /\ load_image path = Some image
          /\ ImageProcessor.process_large_image (ImageProcessor.init 512)
               load_image env path = Some (metadata, chunks_data)
          /\ ImageProcessor.md_chunk_size metadata = 512
          /\ ImageProcessor.md_levels metadata
             = info_of_level (ImageProcessor.init 512)
                 <$> ImageProcessor.generate_pyramid
                       (ImageProcessor.init 512) image).
Proof.
  intros _ response. unfold response, Api.process_image. clear response.
  destruct file_path as [path |].
  2: { split; [| split; [| split]].
       - split; [intros _; left; reflexivity | reflexivity].
       - split; [discriminate | intros (path & Hp & _); discriminate].
       - split; [intros [m Hm]; discriminate |].
         intros (path & image & Hp & _). discriminate.
       - intros metadata Hm. discriminate. }
  destruct (bool_decide (path = "")) eqn:Hempty.
  { apply bool_decide_eq_true in Hempty. simpl. split; [| split; [| split]].
    - split; [intros _; right; exists path; auto | reflexivity].
    - split; [discriminate |]. intros (p & [= <-] & Hne & _). contradiction.
    - split; [intros [m Hm]; discriminate |].
      intros (p & image & [= <-] & Hne & _). contradiction.
    - intros metadata Hm. discriminate. }
  apply bool_decide_eq_false in Hempty.
  destruct (path_exists path) eqn:Hexists; simpl.
  2: { split; [| split; [| split]].
       - split; [intros _; right; exists path; auto | reflexivity].
       - split; [discriminate |]. intros (p & [= <-] & _ & Hex & _). congruence.
       - split; [intros [m Hm]; discriminate |].
         intros (p & image & [= <-] & _ & Hex & _). congruence.
       - intros metadata Hm. discriminate. }
  pose proof (process_large_image_is_Some (ImageProcessor.init 512) load_image env path)
    as Hsome.
  destruct (ImageProcessor.process_large_image (ImageProcessor.init 512)
              load_image env path) as [[metadata0 chunks_data] |] eqn:Hrun.
  - destruct (proj1 Hsome ltac:(eauto)) as (image & Hload & Hhelp & _).
    split; [| split; [| split]].
    + split; [discriminate |].
      intros [Hnone | (p & [= <-] & [Hp | Hp])]; [discriminate | contradiction | congruence].
    + split; [discriminate |].
      intros (p & [= <-] & _ & _ & [Hnone | Hnot]); [congruence | contradiction].
    + split; [| eauto]. intros _. exists path, image.
      split; [reflexivity |]. split; [exact Hempty |]. split; [exact Hexists |].
      split; [exact Hload | exact Hhelp].
    + intros metadata [= <-].
      destruct (process_large_image_returned _ _ _ _ _ _ Hrun)
        as (image' & image_id & start_time & Hload' & _ & _ & _ & _ & _ & Hmeta).
      exists path, image', chunks_data.
      split; [reflexivity |]. split; [exact Hload' |]. split; [exact Hrun |].
      rewrite Hmeta. split; reflexivity.
  - assert (Hnot : ~ exists image,
               load_image path = Some image
               /\ ImageProcessor.helpers_return env
               /\ (0 < ImageProcessor.self_chunk_size (ImageProcessor.init 512)
                   \/ ImageProcessor.min_side image
                      <= ImageProcessor.min_size (ImageProcessor.init 512))).
    { intros Hex. apply Hsome in Hex. destruct Hex as [x Hx]. discriminate. }
    split; [| split; [| split]].
    + split; [discriminate |].
      intros [Hnone | (p & [= <-] & [Hp | Hp])]; [discriminate | contradiction | congruence].
    + split; [| reflexivity]. intros _. exists path.
      split; [reflexivity |]. split; [exact Hempty |]. split; [exact Hexists |].
      destruct (load_image path) as [image |] eqn:Hload; [right | left; reflexivity].
      intros Hhelp. apply Hnot. exists image.
      split; [reflexivity |]. split; [exact Hhelp |]. left. reflexivity.
    + split; [intros [m Hm]; discriminate |].
      intros (p & image & [= <-] & _ & _ & Hload & Hhelp). exfalso. apply Hnot.
      exists image. split; [exact Hload |]. split; [exact Hhelp |]. left. reflexivity.
    + intros metadata Hm. discriminate.
Qed.

(** The theorem on a 600 x 300 image at a path that exists, with helpers
    that return: the request succeeds, with one level. *)
Lemma process_image_responses_witness :
  exists metadata,
    Api.process_image (codec := RectCodec) (fun _ => true)
      (fun _ => Some (600, 300)) example_env (Some "small.png")
    = Api.Success metadata
    /\ length (ImageProcessor.md_levels metadata) = 1%nat.
Proof.
  assert (Hrange : forall (path : string) (image : Image (ImageCodec := RectCodec)),
            (fun _ : string => Some (600, 300)) path = Some image ->
            levels_in_double_range (codec := RectCodec) (ImageProcessor.init 512) image).
  { intros path image [= <-]. solve_double_range. }
  destruct (process_image_responses (codec := RectCodec) (fun _ => true)
              (fun _ => Some (600, 300)) example_env (Some "small.png") Hrange)
    as (_ & _ & Hsuccess & Hvalue).
  destruct (proj2 Hsuccess) as [metadata Hresp].
  { exists "small.png", (600, 300). split; [reflexivity |].
    split; [discriminate |]. split; [reflexivity |]. split; [reflexivity |].
    unfold ImageProcessor.helpers_return. simpl. repeat split; eauto. }
  exists metadata. split; [exact Hresp |].
  destruct (Hvalue metadata Hresp) as (path & image & chunks_data & _ & [= <-] & _ & _ & ->).
  rewrite length_fmap. vm_compute. reflexivity.
Defined.
